(** * Alien Appropriation: Poisson-disk sampler and map generator

    A shallow embedding of [PoissonGenerator.h] and [map_generator.cpp].

    Conventions of the embedding.
    - The code is embedded twice.  In [PoissonGenerator], [MapGenerator]
      and [PlayerNode] the C++ [float] values are modelled by the real
      numbers [R]: arithmetic is exact, there is no rounding, no NaN and no
      infinity, and [sqrt], [cos] and [sin] are the functions of the
      standard library of reals.  The properties proved there are those
      that do not rest on a distance or a cell being exact.  In
      [PoissonBinary32] the sampler is embedded with IEEE 754 binary32
      floats, every operation rounding as the compiled code does; the
      minimum distance and the cells of the sampling grid are settled
      there.
    - C++ [int] values are modelled by [Z], [size_t] values by [nat].  The
      cast of a [float] to [int] is undefined when the value is no [int];
      it is modelled by the error [UndefinedCast].  No overflow of the
      integer arithmetic is modelled.
    - A raw [operator[]] outside a vector is undefined behaviour; it is
      modelled by the error [OutOfBounds].  [vector::at] outside the vector
      throws; it is modelled by the error [OutOfRange].  Memory is taken to
      be large enough for the vectors the code builds.
    - The loops whose number of turns is not fixed beforehand take a
      [fuel] argument; running out of it is the error [OutOfFuel].  Lemma
      [generatePoissonPoints_ends] shows that the [while] loop of the sampler
      never does so with [2 * numPoints] turns of fuel, and lemma
      [generatePoissonPoints_more] that any other result is the result
      with every larger fuel.
    - C++ leaves open the order of evaluation of the two draws that are
      the arguments of a constructor; the order is a parameter of the
      embedding, [ArgOrder].
    - The scene graph is modelled by the list of the instances it is asked
      to create. *)

From Stdlib Require Import Reals Lra Lia ZArith List String Bool Zfloor.
From Stdlib Require Import Psatz Permutation.
From Stdlib Require Import QArith Floats.SpecFloat.
Import ListNotations.

#[local] Open Scope R_scope.

(** ** Results of fallible code *)

Inductive error : Type :=
| OutOfBounds   (* operator[] outside the vector *)
| OutOfRange    (* vector::at outside the vector *)
| LengthError   (* vector::resize with a negative size *)
| UndefinedCast (* a float that is no int is cast to int *)
| OutOfFuel.    (* a loop did not finish within the fuel *)

Inductive result (A : Type) : Type :=
| Ok (a : A)
| Err (e : error).

Arguments Ok {A} a.
Arguments Err {A} e.

Definition bind {A B : Type} (m : result A) (k : A -> result B) : result B :=
  match m with
  | Ok a => k a
  | Err e => Err e
  end.

Notation "x <- m ;; k" := (bind m (fun x => k))
  (at level 61, m at next level, right associativity).
Notation "' pat <- m ;; k" := (bind m (fun x => match x with pat => k end))
  (at level 61, pat pattern, m at next level, right associativity).

(** ** Comparisons and conversions on floats *)

Definition fle (a b : R) : bool := if Rle_dec a b then true else false.
Definition flt (a b : R) : bool := if Rlt_dec a b then true else false.

(** The cast [(int)r]: truncation towards zero. *)
Definition truncZ (r : R) : Z := if Rle_dec 0 r then Zfloor r else Zceil r.

(** The bounds of a 32-bit [int]. *)
Definition INT_MIN : Z := -2147483648.
Definition INT_MAX : Z := 2147483647.

(** The cast [(int)r] where the size of [r] is not known beforehand: the
    behaviour is undefined when the truncated value is no [int]. *)
Definition int_of_float (r : R) : result Z :=
  let z := truncZ r in
  if ((INT_MIN <=? z) && (z <=? INT_MAX))%Z then Ok z else Err UndefinedCast.

(** ** Vectors indexed by an [int] *)

Fixpoint list_update {A : Type} (l : list A) (n : nat) (a : A) : list A :=
  match l, n with
  | [], _ => []
  | _ :: t, O => a :: t
  | h :: t, S n' => h :: list_update t n' a
  end.

(** [v[i]] read *)
Definition vec_get {A : Type} (v : list A) (i : Z) : result A :=
  if (i <? 0)%Z then Err OutOfBounds
  else match nth_error v (Z.to_nat i) with
       | Some a => Ok a
       | None => Err OutOfBounds
       end.

(** [v[i] = a] *)
Definition vec_set {A : Type} (v : list A) (i : Z) (a : A) : result (list A) :=
  if (i <? 0)%Z then Err OutOfBounds
  else if (Z.to_nat i <? List.length v)%nat then Ok (list_update v (Z.to_nat i) a)
       else Err OutOfBounds.

(** [v.at(i)] read *)
Definition vec_at {A : Type} (v : list A) (i : Z) : result A :=
  if (i <? 0)%Z then Err OutOfRange
  else match nth_error v (Z.to_nat i) with
       | Some a => Ok a
       | None => Err OutOfRange
       end.

(** ** PoissonGenerator.h *)

Module PoissonGenerator.

(** The interface the template parameter [PRNG] has to offer. *)
Class PRNG (G : Type) : Type := {
  randomFloat : G -> R * G;
  randomInt : G -> Z -> Z * G
}.

(** What [DefaultPRNG] promises about the values it draws:
    [uniform_real_distribution<float>(0, 1)] and
    [uniform_int_distribution<>(0, maxValue)]. *)
Class PRNG_range (G : Type) `{PRNG G} : Prop := {
  randomFloat_range : forall g, 0 <= fst (randomFloat g) < 1;
  randomInt_range : forall g m, (0 <= m)%Z -> (0 <= fst (randomInt g m) <= m)%Z
}.

(** C++ leaves open in which order the two arguments of
    [Point( generator.randomFloat(), generator.randomFloat() )] are
    evaluated; the compiler decides ([g++] evaluates the second argument
    first).  [right_to_left] is [true] when the first draw becomes [Y]. *)
Class ArgOrder : Type := right_to_left : bool.

Record Point : Type := mkPoint {
  p_x : R;
  p_y : R;
  valid_ : bool
}.

(** [Point()] *)
Definition Point_default : Point := mkPoint 0 0 false.
(** [Point(X, Y)] *)
Definition Point_xy (X Y : R) : Point := mkPoint X Y true.

Definition isInRectangle (p : Point) : bool :=
  fle 0 (p_x p) && fle 0 (p_y p) && fle (p_x p) 1 && fle (p_y p) 1.

Definition isInCircle (p : Point) : bool :=
  let fx := p_x p - 0.5 in
  let fy := p_y p - 0.5 in
  fle (fx * fx + fy * fy) 0.25.

Record GridPoint : Type := mkGridPoint {
  g_x : Z;
  g_y : Z
}.

Definition getDistance (P1 P2 : Point) : R :=
  sqrt ((p_x P1 - p_x P2) * (p_x P1 - p_x P2)
        + (p_y P1 - p_y P2) * (p_y P1 - p_y P2)).

Definition imageToGrid (P : Point) (cellSize : R) : GridPoint :=
  mkGridPoint (truncZ (p_x P / cellSize)) (truncZ (p_y P / cellSize)).

Record Grid : Type := mkGrid {
  w_ : Z;
  h_ : Z;
  cellSize_ : R;
  grid_ : list (list Point)
}.

(** [Grid(w, h, cellSize)]: [h_] rows of [w] default points. *)
Definition Grid_new (w h : Z) (cellSize : R) : result Grid :=
  if (h <? 0)%Z then Err LengthError
  else if ((0 <? h) && (w <? 0))%Z then Err LengthError
  else Ok (mkGrid w h cellSize
             (repeat (repeat Point_default (Z.to_nat w)) (Z.to_nat h))).

(** [grid_[i][j]] read *)
Definition Grid_get (gr : Grid) (i j : Z) : result Point :=
  row <- vec_get (grid_ gr) i ;;
  vec_get row j.

(** [Grid::insert]: [grid_[g.x][g.y] = p], no test on [g]. *)
Definition Grid_insert (gr : Grid) (p : Point) : result Grid :=
  let g := imageToGrid p (cellSize_ gr) in
  row <- vec_get (grid_ gr) (g_x g) ;;
  row' <- vec_set row (g_y g) p ;;
  rows' <- vec_set (grid_ gr) (g_x g) row' ;;
  Ok (mkGrid (w_ gr) (h_ gr) (cellSize_ gr) rows').

(** number of adjacent cells to look for neighbour points *)
Definition D : Z := 5.

(** One cell of the scan of [isInNeighbourhood]: [true] when the scan
    returns at this cell. *)
Definition scan_cell (gr : Grid) (point : Point) (minDist : R) (i j : Z)
  : result bool :=
  if ((0 <=? i) && (i <? w_ gr) && (0 <=? j) && (j <? h_ gr))%Z then
    P <- Grid_get gr i j ;;
    Ok (valid_ P && flt (getDistance P point) minDist)
  else Ok false.

(** [for (j = j0; ...; j++)] over [n] cells *)
Fixpoint scan_j (gr : Grid) (point : Point) (minDist : R) (i j : Z) (n : nat)
  : result bool :=
  match n with
  | O => Ok false
  | S n' =>
      hit <- scan_cell gr point minDist i j ;;
      if hit : bool then Ok true
      else scan_j gr point minDist i (j + 1) n'
  end.

(** [for (i = i0; ...; i++)] over [n] rows, each over [m] cells from [j0] *)
Fixpoint scan_i (gr : Grid) (point : Point) (minDist : R) (i j0 : Z)
  (n m : nat) : result bool :=
  match n with
  | O => Ok false
  | S n' =>
      hit <- scan_j gr point minDist i j0 m ;;
      if hit : bool then Ok true
      else scan_i gr point minDist (i + 1) j0 n' m
  end.

(** [Grid::isInNeighbourhood]: [i] runs over [g.x - D <= i < g.x + D] and
    [j] over [g.y - D <= j < g.y + D]. *)
Definition isInNeighbourhood (gr : Grid) (point : Point) (minDist cellSize : R)
  : result bool :=
  let g := imageToGrid point cellSize in
  scan_i gr point minDist (g_x g - D) (g_y g - D)
    (Z.to_nat (2 * D)) (Z.to_nat (2 * D)).

Section Sampler.

Context {G : Type} `{PRNG G} {order : ArgOrder}.

(** [points.erase(points.begin() + idx)] *)
Fixpoint erase {A : Type} (l : list A) (n : nat) : list A :=
  match l, n with
  | [], _ => []
  | _ :: t, O => t
  | h :: t, S n' => h :: erase t n'
  end.

Definition popRandom (points : list Point) (generator : G)
  : result (Point * list Point * G) :=
  let (idx, generator') :=
    randomInt generator (Z.of_nat (List.length points) - 1) in
  p <- vec_get points idx ;;
  Ok (p, erase points (Z.to_nat idx), generator').

Definition generateRandomPointAround (p : Point) (minDist : R) (generator : G)
  : Point * G :=
  let (R1, g1) := randomFloat generator in
  let (R2, g2) := randomFloat g1 in
  let radius := minDist * (R1 + 1) in
  let angle := 2 * 3.141592653589 * R2 in
  let x := p_x p + radius * cos angle in
  let y := p_y p + radius * sin angle in
  (Point_xy x y, g2).

(** The local state of [generatePoissonPoints]. *)
Record State : Type := mkState {
  samplePoints : list Point;
  processList : list Point;
  grid : Grid;
  generator : G
}.

(** [isCircle ? p.isInCircle() : p.isInRectangle()] *)
Definition inShape (isCircle : bool) (p : Point) : bool :=
  if isCircle then isInCircle p else isInRectangle p.

(** [Point( generator.randomFloat(), generator.randomFloat() )]: two draws,
    of which the compiler decides which one is [X]. *)
Definition draw_point (g : G) : Point * G :=
  let (d1, g1) := randomFloat g in
  let (d2, g2) := randomFloat g1 in
  (if right_to_left then Point_xy d2 d1 else Point_xy d1 d2, g2).

(** The [do ... while] loop that draws the first point. *)
Fixpoint firstPoint_loop (fuel : nat) (isCircle : bool) (g : G)
  : result (Point * G) :=
  match fuel with
  | O => Err OutOfFuel
  | S fuel' =>
      let (firstPoint, g2) := draw_point g in
      if inShape isCircle firstPoint then Ok (firstPoint, g2)
      else firstPoint_loop fuel' isCircle g2
  end.

(** One turn of the [for] loop over the candidates around [point]. *)
Definition candidate (isCircle : bool) (minDist cellSize : R) (point : Point)
  (st : State) : result State :=
  let (newPoint, g') := generateRandomPointAround point minDist (generator st) in
  let canFitPoint := inShape isCircle newPoint in
  near <- (if canFitPoint
           then isInNeighbourhood (grid st) newPoint minDist cellSize
           else Ok true) ;;
  if canFitPoint && negb near then
    grid' <- Grid_insert (grid st) newPoint ;;
    Ok (mkState (samplePoints st ++ [newPoint])
                (processList st ++ [newPoint])
                grid' g')
  else
    Ok (mkState (samplePoints st) (processList st) (grid st) g').

(** [for (int i = 0; i < newPointsCount; i++)], [n] turns left *)
Fixpoint candidates (n : nat) (isCircle : bool) (minDist cellSize : R)
  (point : Point) (st : State) : result State :=
  match n with
  | O => Ok st
  | S n' =>
      st' <- candidate isCircle minDist cellSize point st ;;
      candidates n' isCircle minDist cellSize point st'
  end.

(** The condition of the [while] loop. *)
Definition loop_cond (numPoints : nat) (st : State) : bool :=
  negb (match processList st with [] => true | _ => false end)
  && (List.length (samplePoints st) <? numPoints)%nat.

(** [while (!processList.empty() && samplePoints.size() < numPoints)] *)
Fixpoint main_loop (fuel : nat) (numPoints : nat) (newPointsCount : Z)
  (isCircle : bool) (minDist cellSize : R) (st : State) : result State :=
  if loop_cond numPoints st then
    match fuel with
    | O => Err OutOfFuel
    | S fuel' =>
        '(point, rest, g') <- popRandom (processList st) (generator st) ;;
        st' <- candidates (Z.to_nat newPointsCount) isCircle minDist cellSize
                 point (mkState (samplePoints st) rest (grid st) g') ;;
        main_loop fuel' numPoints newPointsCount isCircle minDist cellSize st'
    end
  else Ok st.

(** [minDist] after the default has been filled in *)
Definition effective_minDist (numPoints : nat) (minDist : R) : R :=
  if flt minDist 0 then sqrt (INR numPoints) / INR numPoints else minDist.

Definition cellSize_of (minDist : R) : R := minDist / sqrt 2.

(** [(int)ceil( 1.0f / cellSize )].  A [cellSize] of zero makes the quotient
    infinite, and a quotient beyond [INT_MAX] is no [int] either: the cast
    is undefined then. *)
Definition grid_size (cellSize : R) : result Z :=
  if fle cellSize 0 && fle 0 cellSize then Err UndefinedCast
  else int_of_float (IZR (Zceil (1 / cellSize))).

(** The state at the head of the [while] loop: grid built, first point
    drawn and stored. *)
Definition seed_state (fuel : nat) (generator0 : G) (isCircle : bool)
  (minDist : R) : result State :=
  let cellSize := cellSize_of minDist in
  gridW <- grid_size cellSize ;;
  gridH <- grid_size cellSize ;;
  grid0 <- Grid_new gridW gridH cellSize ;;
  '(firstPoint, g1) <- firstPoint_loop fuel isCircle generator0 ;;
  grid1 <- Grid_insert grid0 firstPoint ;;
  Ok (mkState [firstPoint] [firstPoint] grid1 g1).

(** The whole of [generatePoissonPoints], with its final local state. *)
Definition generatePoissonPoints_state (fuel : nat) (numPoints : nat)
  (generator0 : G) (newPointsCount : Z) (isCircle : bool) (minDist : R)
  : result State :=
  let minDist := effective_minDist numPoints minDist in
  st0 <- seed_state fuel generator0 isCircle minDist ;;
  main_loop fuel numPoints newPointsCount isCircle minDist
    (cellSize_of minDist) st0.

(** [generatePoissonPoints]: the returned vector, and the generator, which
    is passed by reference. *)
Definition generatePoissonPoints (fuel : nat) (numPoints : nat)
  (generator0 : G) (newPointsCount : Z) (isCircle : bool) (minDist : R)
  : result (list Point * G) :=
  st <- generatePoissonPoints_state fuel numPoints generator0 newPointsCount
          isCircle minDist ;;
  Ok (samplePoints st, generator st).

End Sampler.

End PoissonGenerator.

(** ** map_generator.cpp *)

Module MapGenerator.

Import PoissonGenerator.

(** The C library's [rand()], a global generator: its state is threaded
    explicitly. *)
Class CRand (RS : Type) : Type := {
  rand : RS -> Z * RS
}.

(** [rand()] returns a value between 0 and [RAND_MAX]. *)
Class CRand_range (RS : Type) `{CRand RS} : Prop := {
  rand_nonneg : forall rs, (0 <= fst (rand rs))%Z
}.

Definition vec2 : Type := (R * R)%type.

(** [glm::distance] on [vec2] *)
Definition distance (p q : vec2) : R :=
  sqrt ((fst p - fst q) * (fst p - fst q) + (snd p - snd q) * (snd p - snd q)).

(** Modelled from the spec: the declaration of [Object] is in
    map_generator.h, which is not among the sources.  The spec's Placement
    is a world position, a cell coordinate, a category tag and an optional
    orientation; the field names are those the code uses. *)
Record Object : Type := mkObject {
  pos : vec2;
  a : Z;
  b : Z;
  type : string;
  rotation : R
}.

(** [Object point;] before any field is assigned *)
Definition Object_default : Object := mkObject (0, 0) 0 0 EmptyString 0.

Definition set_type (o : Object) (t : string) : Object :=
  mkObject (pos o) (a o) (b o) t (rotation o).
Definition set_rotation (o : Object) (r : R) : Object :=
  mkObject (pos o) (a o) (b o) (type o) r.

(** What the scene is asked to create. *)
Inductive NodeKind : Type := EntityNode | SceneNode.

Record Instance : Type := mkInstance {
  i_kind : NodeKind;
  i_type : string;
  i_cell : Z * Z;
  i_pos : vec2;
  i_rotation : option R;
  i_scale : option (R * R * R);
  i_tags : list string
}.

Section Generator.

Context {G : Type} `{PRNG G} {order : ArgOrder} {RS : Type} `{CRand RS}.

(** [glm::normalize] and [glm::orientedAngle], library functions whose
    code is not part of the repository. *)
Variable normalize : vec2 -> vec2.
Variable orientedAngle : vec2 -> vec2 -> R.

(** The fields of [MapGenerator] the generation reads and writes.  The
    declarations are in map_generator.h; [cellSize] is initialised to 20 by
    the constructor, [density] is taken to be a [float]. *)
Record MapGenerator : Type := mkMapGenerator {
  cellSize : Z;
  width : Z;
  height : Z;
  gridWidth : Z;
  gridHeight : Z;
  density : R;
  grid : list (list (list Object));
  PRNG_ : G
}.

Definition with_grid (m : MapGenerator) (g : list (list (list Object)))
  : MapGenerator :=
  mkMapGenerator (cellSize m) (width m) (height m) (gridWidth m)
    (gridHeight m) (density m) g (PRNG_ m).

Definition with_PRNG (m : MapGenerator) (g : G) : MapGenerator :=
  mkMapGenerator (cellSize m) (width m) (height m) (gridWidth m)
    (gridHeight m) (density m) (grid m) g.

(** [MapGenerator::MapGenerator(sceneGraph, initWidth, initHeight)] *)
Definition MapGenerator_new (prng : G) (initWidth initHeight : Z)
  : MapGenerator :=
  let cellSize := 20%Z in
  let width := (initWidth * 100)%Z in
  let height := (initHeight * 100)%Z in
  let gridWidth := Z.quot width cellSize in
  let gridHeight := Z.quot height cellSize in
  mkMapGenerator cellSize width height gridWidth gridHeight 1
    (repeat (repeat [] (Z.to_nat gridHeight)) (Z.to_nat gridWidth))
    prng.

(** [grid.at(x).at(y)] read *)
Definition cell_at (g : list (list (list Object))) (x y : Z)
  : result (list Object) :=
  col <- vec_at g x ;;
  vec_at col y.

(** [grid.at(x).at(y).push_back(o)] *)
Definition cell_push_back (g : list (list (list Object))) (x y : Z)
  (o : Object) : result (list (list (list Object))) :=
  col <- vec_at g x ;;
  cell <- vec_at col y ;;
  Ok (list_update g (Z.to_nat x) (list_update col (Z.to_nat y) (cell ++ [o]))).

(** The values of [for (int v = lo; v < hi; v++)], [n] of them from [lo]. *)
Fixpoint int_range (lo : Z) (n : nat) : list Z :=
  match n with
  | O => []
  | S n' => lo :: int_range (lo + 1) n'
  end.

Definition for_range (lo hi : Z) : list Z := int_range lo (Z.to_nat (hi - lo)).

(** The test that skips a cell offset in the clearing scan. *)
Definition outside_map (m : MapGenerator) (cx cy : Z) : bool :=
  ((cx <? 0) || (cx >? gridWidth m - 1) || (cy <? 0) || (cy >? gridHeight m - 1))%Z.

(** The cells the clearing scan of [GenerateCluster] looks into, in the
    order of the two [for] loops [x = -1; x < 1] and [y = -1; y < 1]. *)
Definition scanned_cells (m : MapGenerator) (origin : Object) : list (Z * Z) :=
  flat_map
    (fun x =>
       flat_map
         (fun y =>
            if outside_map m (a origin + x) (b origin + y) then []
            else [((a origin + x)%Z, (b origin + y)%Z)])
         (for_range (-1) 1))
    (for_range (-1) 1).

(** The body of [for (auto point : cell)]: [point] is a copy of the
    element; the body assigns to the copy.  The value is the copy at the end
    of the body. *)
Definition clearing_body (origin : Object) (radius : R) (point : Object)
  : Object :=
  if flt (distance (pos origin) (pos point)) radius
  then set_type point "default"
  else point.

(** The clearing scan: the copies the loop has worked on, in the order of
    the visit.  The scan assigns to no element of [grid]. *)
Fixpoint clearing_scan_cells (g : list (list (list Object)))
  (origin : Object) (radius : R) (cells : list (Z * Z))
  : result (list Object) :=
  match cells with
  | [] => Ok []
  | (cx, cy) :: rest =>
      cell <- cell_at g cx cy ;;
      more <- clearing_scan_cells g origin radius rest ;;
      Ok (map (clearing_body origin radius) cell ++ more)
  end.

Definition clearing_scan (m : MapGenerator) (origin : Object) (radius : R)
  : result (list Object) :=
  clearing_scan_cells (grid m) origin radius (scanned_cells m origin).

(** The position of a member of the cluster:
    [origin.pos + glm::vec2(p.x * radius, p.y * radius) - radius / 2.0f],
    the scalar being subtracted from both coordinates. *)
Definition member_pos (origin : Object) (radius : R) (p : Point) : vec2 :=
  (fst (pos origin) + p_x p * radius - radius / 2,
   snd (pos origin) + p_y p * radius - radius / 2).

(** The body of the loop over the points of the cluster. *)
Definition place_member (m : MapGenerator) (origin : Object) (radius : R)
  (isBarnCluster : bool) (p : Point)
  (acc : list (list (list Object)) * RS)
  : result (list (list (list Object)) * RS) :=
  let (g, rs) := acc in
  let position : vec2 := member_pos origin radius p in
  let pa := Zfloor (fst position / IZR (cellSize m)) in
  let pb := Zfloor (snd position / IZR (cellSize m)) in
  if ((pa >? gridWidth m - 1) || (pa <? 0)
      || (pb >? gridHeight m - 1) || (pb <? 0))%Z
  then Ok (g, rs)
  else
    let point := mkObject position pa pb EmptyString 0 in
    let (point', rs') :=
      if isBarnCluster then
        let (r, rs1) := rand rs in
        let barn := set_type point "barn" in
        (match Z.rem r 3 with
         | 0%Z => set_rotation barn 0
         | 1%Z => set_rotation barn 90
         | 2%Z => set_rotation barn
                    (orientedAngle (normalize (pos origin))
                       (normalize (fst position - fst (pos origin),
                                   snd position - snd (pos origin))))
         | _ => barn
         end, rs1)
      else (set_type point "tree", rs) in
    g' <- cell_push_back g pa pb point' ;;
    Ok (g', rs').

Fixpoint place_members (m : MapGenerator) (origin : Object) (radius : R)
  (isBarnCluster : bool) (Points : list Point)
  (acc : list (list (list Object)) * RS)
  : result (list (list (list Object)) * RS) :=
  match Points with
  | [] => Ok acc
  | p :: rest =>
      acc' <- place_member m origin radius isBarnCluster p acc ;;
      place_members m origin radius isBarnCluster rest acc'
  end.

(** The clearing radius, drawn after the kind of the cluster. *)
Definition cluster_radius (m : MapGenerator) (isBarnCluster : bool) (rs : RS)
  : R * RS :=
  if isBarnCluster then (IZR (cellSize m), rs)
  else let (r, rs') := rand rs in
       ((1 + IZR (Z.rem r 5) / 5) * IZR (cellSize m), rs').

(** The number of points asked from the sampler. *)
Definition cluster_count (isBarnCluster : bool) (rs : RS) : Z * RS :=
  let (r, rs') := rand rs in
  (if isBarnCluster then Z.rem r 6 + 1 else Z.rem r 30 + 10, rs')%Z.

(** [MapGenerator::GenerateCluster(Object origin)] *)
Definition GenerateCluster (fuel : nat) (origin : Object)
  (m : MapGenerator) (rs : RS) : result (MapGenerator * RS) :=
  let (r0, rs1) := rand rs in
  let isBarnCluster := (Z.rem r0 100 <? 20)%Z in
  let (radius, rs2) := cluster_radius m isBarnCluster rs1 in
  _copies <- clearing_scan m origin radius ;;
  let (n, rs3) := cluster_count isBarnCluster rs2 in
  '(Points, prng') <-
    generatePoissonPoints fuel (Z.to_nat n) (PRNG_ m) 70 true (-1) ;;
  '(g', rs4) <-
    place_members m origin radius isBarnCluster Points (grid m, rs3) ;;
  Ok (with_grid (with_PRNG m prng') g', rs4).

(** The body of the binning loop of [GenerateMap]. *)
Definition bin_point (m : MapGenerator) (p : Point)
  (acc : list (list (list Object)) * RS)
  : result (list (list (list Object)) * RS) :=
  let (g, rs) := acc in
  let position : vec2 := (p_x p * IZR (width m), p_y p * IZR (height m)) in
  let pa := Zfloor (fst position / IZR (cellSize m)) in
  let pb := Zfloor (snd position / IZR (cellSize m)) in
  let (r, rs') := rand rs in
  let t := if (Z.rem r 100 <? 15)%Z then "originPoint"%string
           else "hay"%string in
  let point := mkObject position pa pb t 0 in
  g' <- cell_push_back g pa pb point ;;
  Ok (g', rs').

Fixpoint bin_points (m : MapGenerator) (Points : list Point)
  (acc : list (list (list Object)) * RS)
  : result (list (list (list Object)) * RS) :=
  match Points with
  | [] => Ok acc
  | p :: rest =>
      acc' <- bin_point m p acc ;;
      bin_points m rest acc'
  end.

(** [for (int i = 0; i < grid.at(x).at(y).size(); i++)]: the size is read
    again at every turn, and [GenerateCluster] may append to the cell. *)
Fixpoint origins_in_cell (fuel : nat) (x y : Z) (i : nat)
  (m : MapGenerator) (rs : RS) : result (MapGenerator * RS) :=
  cell <- cell_at (grid m) x y ;;
  match nth_error cell i with
  | None => Ok (m, rs)
  | Some o =>
      match fuel with
      | O => Err OutOfFuel
      | S fuel' =>
          '(m', rs') <-
            (if String.eqb (type o) "originPoint"
             then GenerateCluster (S fuel') o m rs
             else Ok (m, rs)) ;;
          origins_in_cell fuel' x y (S i) m' rs'
      end
  end.

Fixpoint origins_pass (fuel : nat) (cells : list (Z * Z))
  (m : MapGenerator) (rs : RS) : result (MapGenerator * RS) :=
  match cells with
  | [] => Ok (m, rs)
  | (x, y) :: rest =>
      '(m', rs') <- origins_in_cell fuel x y 0 m rs ;;
      origins_pass fuel rest m' rs'
  end.

(** The pairs [(x, y)] of [for x in 0..gridWidth) for y in 0..gridHeight)]. *)
Definition all_cells (m : MapGenerator) : list (Z * Z) :=
  flat_map (fun x => map (fun y => (x, y)) (for_range 0 (gridHeight m)))
    (for_range 0 (gridWidth m)).

(** The body of the last loop of [GenerateMap]: what is created for [o]. *)
Definition instantiate (x y : Z) (o : Object) (rs : RS)
  : list Instance * RS :=
  if String.eqb (type o) "default" || String.eqb (type o) "originPoint"
  then ([], rs)
  else if String.eqb (type o) "hay" then
    ([mkInstance EntityNode (type o) (x, y) (pos o) None None
        ["canPickUp"%string; "canCollect"%string]], rs)
  else
    let (scale1, rs1) :=
      if String.eqb (type o) "tree"
      then let (r, rs') := rand rs in
           let s := 1.25 + IZR (Z.rem r 5) / 10 in (Some (s, s, s), rs')
      else (None, rs) in
    let '(rot, scale2, rs2) :=
      if String.eqb (type o) "barn"
      then let (r1, rs') := rand rs1 in
           let (r2, rs'') := rand rs' in
           let (r3, rs''') := rand rs'' in
           (Some (rotation o),
            Some (1.3 + IZR (Z.rem r1 80) / 100,
                  1.3 + IZR (Z.rem r2 80) / 100,
                  1.3 + IZR (Z.rem r3 80) / 100), rs''')
      else (None, scale1, rs1) in
    ([mkInstance SceneNode (type o) (x, y) (pos o) rot scale2 []], rs2).

Fixpoint instantiate_cell (x y : Z) (cell : list Object) (rs : RS)
  : list Instance * RS :=
  match cell with
  | [] => ([], rs)
  | o :: rest =>
      let (here, rs1) := instantiate x y o rs in
      let (more, rs2) := instantiate_cell x y rest rs1 in
      (here ++ more, rs2)
  end.

Fixpoint final_pass (g : list (list (list Object))) (cells : list (Z * Z))
  (rs : RS) : result (list Instance * RS) :=
  match cells with
  | [] => Ok ([], rs)
  | (x, y) :: rest =>
      cell <- cell_at g x y ;;
      let (here, rs1) := instantiate_cell x y cell rs in
      '(more, rs2) <- final_pass g rest rs1 ;;
      Ok (here ++ more, rs2)
  end.

(** The ground tiles created first. *)
Definition ground_plane (m : MapGenerator) : list Instance :=
  flat_map
    (fun i =>
       map (fun j =>
              mkInstance SceneNode "Ground" (i, j)
                (IZR (i * 100), IZR (j * 100)) None None [])
         (for_range 0 (Z.quot (height m) 100)))
    (for_range 0 (Z.quot (width m) 100)).

(** [MapGenerator::GenerateMap()]: the generator after the call, and the
    instances created in the scene, in the order of their creation. *)
Definition GenerateMap (fuel : nat) (m : MapGenerator) (rs : RS)
  : result (MapGenerator * RS * list Instance) :=
  let numPoints :=
    Z.to_nat
      (truncZ (IZR ((gridWidth m + 1) * (gridHeight m + 1)) * density m)) in
  let minDist := 1 / (density m * IZR (Z.min (gridWidth m) (gridHeight m))) in
  '(Points, prng') <-
    generatePoissonPoints fuel numPoints (PRNG_ m) 50 false minDist ;;
  let m1 := with_PRNG m prng' in
  '(g2, rs2) <- bin_points m1 Points (grid m1, rs) ;;
  let m2 := with_grid m1 g2 in
  '(m3, rs3) <- origins_pass fuel (all_cells m2) m2 rs2 ;;
  '(created, rs4) <- final_pass (grid m3) (all_cells m3) rs3 ;;
  Ok (m3, rs4, ground_plane m ++ created).

End Generator.

End MapGenerator.

(** ** Predicates used by the statements *)

Module Spec.

Import PoissonGenerator.

(** Any two points at different places of the sequence are at least
    [minDist] apart. *)
Definition pairwise_apart (minDist : R) (l : list Point) : Prop :=
  forall i j p q,
    i <> j -> nth_error l i = Some p -> nth_error l j = Some q ->
    minDist <= getDistance p q.

(** The grid is a square of [w_] rows of [w_] cells. *)
Definition grid_wf (gr : Grid) : Prop :=
  (0 <= w_ gr)%Z /\ h_ gr = w_ gr
  /\ List.length (grid_ gr) = Z.to_nat (h_ gr)
  /\ Forall (fun row => List.length row = Z.to_nat (w_ gr)) (grid_ gr).

(** The cell of the sampling grid a point falls into. *)
Definition cell_of (cellSize : R) (p : Point) : Z * Z :=
  (g_x (imageToGrid p cellSize), g_y (imageToGrid p cellSize)).



(** The invariant of the [while] loop of [generatePoissonPoints]. *)
Record Inv {G : Type} (isCircle : bool) (minDist : R) (st : State (G:=G))
  : Prop := mkInv {
  inv_wf : grid_wf (grid st);
  inv_cs : cellSize_ (grid st) = cellSize_of minDist;
  inv_width :
    w_ (grid st) = truncZ (IZR (Zceil (1 / cellSize_of minDist)));
  inv_shape : Forall (fun p => inShape isCircle p = true) (samplePoints st);
  inv_valid : Forall (fun p => valid_ p = true) (samplePoints st);
  inv_stored : forall p, In p (samplePoints st) ->
      Grid_get (grid st) (fst (cell_of (cellSize_of minDist) p))
        (snd (cell_of (cellSize_of minDist) p)) = Ok p;
  inv_only : forall i j P, Grid_get (grid st) i j = Ok P ->
      valid_ P = true ->
      In P (samplePoints st) /\ cell_of (cellSize_of minDist) P = (i, j);
  inv_apart : pairwise_apart minDist (samplePoints st);
  inv_sub : incl (processList st) (samplePoints st);
  inv_nonempty : samplePoints st <> []
}.

(** The width of the grid for [minDist] is an [int]. *)
Definition grid_fits (minDist : R) : Prop :=
  (Zceil (1 / cellSize_of minDist) <= INT_MAX)%Z.

(** The states one run goes through after the head of the loop [st0]: a
    point is popped from the active list, or a candidate is tried. *)
Inductive Reached {G : Type} `{PRNG G} (isCircle : bool) (minDist : R)
  (st0 : State (G:=G)) : State (G:=G) -> Prop :=
| Reached_head : Reached isCircle minDist st0 st0
| Reached_pop st point rest g' :
    Reached isCircle minDist st0 st ->
    popRandom (processList st) (generator st) = Ok (point, rest, g') ->
    Reached isCircle minDist st0
      (mkState (samplePoints st) rest (grid st) g')
| Reached_candidate st point st' :
    Reached isCircle minDist st0 st ->
    candidate isCircle minDist (cellSize_of minDist) point st = Ok st' ->
    Reached isCircle minDist st0 st'.

End Spec.

(** ** Predicates on the placement grid *)

Module MapSpec.

Import MapGenerator.

(** The placement grid has [gw] columns of [gh] cells. *)
Definition pgrid_wf (gw gh : Z) (g : list (list (list Object))) : Prop :=
  (0 <= gw)%Z /\ (0 <= gh)%Z /\ List.length g = Z.to_nat gw
  /\ Forall (fun col => List.length col = Z.to_nat gh) g.

(** Every object is stored in the cell its fields [a] and [b] name. *)
Definition cells_consistent (g : list (list (list Object))) : Prop :=
  forall x y cell o,
    cell_at g x y = Ok cell -> In o cell -> a o = x /\ b o = y.

(** The test of the last loop of [GenerateMap]. *)
Definition visible (o : Object) : bool :=
  negb (String.eqb (type o) "default" || String.eqb (type o) "originPoint").

(** The number of objects in the grid. *)
Definition total_objects (g : list (list (list Object))) : nat :=
  List.length (List.concat (List.concat g)).

(** Every object of every cell satisfies [Q]. *)
Definition cells_all (Q : Object -> Prop) (g : list (list (list Object)))
  : Prop :=
  forall x y cell, cell_at g x y = Ok cell -> Forall Q cell.

(** Every cell of [g'] is the cell of [g] followed by objects that
    satisfy [Q]. *)
Definition grid_extends (Q : Object -> Prop)
  (g g' : list (list (list Object))) : Prop :=
  forall x y cell, cell_at g x y = Ok cell ->
    exists added, cell_at g' x y = Ok (cell ++ added) /\ Forall Q added.

(** The kinds the binning loop and the clusters give to objects. *)
Definition binned_kind (o : Object) : Prop :=
  type o = "hay"%string \/ type o = "originPoint"%string.
Definition cluster_kind (o : Object) : Prop :=
  type o = "barn"%string \/ type o = "tree"%string.

(** The two generators differ by their grid and their [PRNG] only. *)
Definition same_config {G : Type} (m m' : MapGenerator (G:=G)) : Prop :=
  cellSize m' = cellSize m /\ width m' = width m /\ height m' = height m
  /\ gridWidth m' = gridWidth m /\ gridHeight m' = gridHeight m
  /\ density m' = density m.

(** What a cell holds, nothing when it cannot be read. *)
Definition cell_or_empty (g : list (list (list Object))) (x y : Z)
  : list Object :=
  match cell_at g x y with Ok cell => cell | Err _ => [] end.

(** The instance [i] is what the last loop of [GenerateMap] creates for
    the object [o] of the cell [c]: a bale of hay is an entity that can be
    picked up and collected; anything else is a plain node, a barn with its
    rotation and three scale factors between 1.3 and 2.1, a tree with one
    scale factor between 1.25 and 1.65. *)
Definition shown_as (c : Z * Z) (o : Object) (i : Instance) : Prop :=
  i_cell i = c /\ i_type i = type o /\ i_pos i = pos o
  /\ if String.eqb (type o) "hay"
     then i_kind i = EntityNode
          /\ i_tags i = ["canPickUp"%string; "canCollect"%string]
          /\ i_rotation i = None /\ i_scale i = None
     else i_kind i = SceneNode /\ i_tags i = []
          /\ if String.eqb (type o) "barn"
             then i_rotation i = Some (rotation o)
                  /\ exists s1 s2 s3, i_scale i = Some (s1, s2, s3)
                       /\ 1.3 <= s1 <= 2.1 /\ 1.3 <= s2 <= 2.1
                       /\ 1.3 <= s3 <= 2.1
             else i_rotation i = None
                  /\ if String.eqb (type o) "tree"
                     then exists s, i_scale i = Some (s, s, s)
                            /\ 1.25 <= s <= 1.65
                     else i_scale i = None.

(** The objects the last loop creates an instance for, with their cells,
    in the order of the loop over [cells]. *)
Definition visible_objects (g : list (list (list Object)))
  (cells : list (Z * Z)) : list (Z * Z * Object) :=
  flat_map
    (fun c =>
       map (pair c) (filter visible (cell_or_empty g (fst c) (snd c))))
    cells.

End MapSpec.

(** ** player_node.cpp: the tilt of the player *)

Module PlayerNode.

(** The fields of [PlayerNode] the functions below read and write;
    [mPosition] is inherited from [SceneNode]. *)
Record PlayerNode : Type := mkPlayerNode {
  x_tilt_percentage : R;
  y_tilt_percentage : R;
  forward_factor : R;
  mPosition : R * R * R
}.

Definition set_x_tilt (p : PlayerNode) (t : R) : PlayerNode :=
  mkPlayerNode t (y_tilt_percentage p) (forward_factor p) (mPosition p).
Definition set_y_tilt (p : PlayerNode) (t : R) : PlayerNode :=
  mkPlayerNode (x_tilt_percentage p) t (forward_factor p) (mPosition p).

(** [glm::min] and [glm::max] *)
Definition glm_min (x y : R) : R := if flt y x then y else x.
Definition glm_max (x y : R) : R := if flt x y then y else x.

Definition rotateLeft (p : PlayerNode) : PlayerNode :=
  let p1 := set_x_tilt p (x_tilt_percentage p + PI / 20) in
  set_x_tilt p1 (glm_min (PI / 2) (x_tilt_percentage p1)).

Definition rotateRight (p : PlayerNode) : PlayerNode :=
  let p1 := set_x_tilt p (x_tilt_percentage p - PI / 20) in
  set_x_tilt p1 (glm_max (- PI / 2) (x_tilt_percentage p1)).

Definition rotateForward (p : PlayerNode) : PlayerNode :=
  let p1 := set_y_tilt p (y_tilt_percentage p + PI / 20) in
  set_y_tilt p1 (glm_min (PI / 2) (y_tilt_percentage p1)).

Definition rotateBackward (p : PlayerNode) : PlayerNode :=
  let p1 := set_y_tilt p (y_tilt_percentage p - PI / 20) in
  set_y_tilt p1 (glm_max (- PI / 2) (y_tilt_percentage p1)).

(** [rotateByCamera], with the raw velocity of the camera as an
    argument. *)
Definition rotateByCamera (current_velocity : R * R * R) (p : PlayerNode)
  : PlayerNode :=
  let velocity_limit := PI / 2 in
  let '(vx, _, vz) := current_velocity in
  let p1 := set_x_tilt p (- vx * velocity_limit) in
  let p2 := set_y_tilt p1 (vz * velocity_limit) in
  let p3 := set_x_tilt p2 (glm_max (-1) (x_tilt_percentage p2)) in
  let p4 := set_x_tilt p3 (glm_min 1 (x_tilt_percentage p3)) in
  let p5 := set_y_tilt p4 (glm_max (-1) (y_tilt_percentage p4)) in
  set_y_tilt p5 (glm_min 1 (y_tilt_percentage p5)).

(** [setPlayerPosition]: [-forward_factor * glm::vec3(0, 0, 1)] *)
Definition setPlayerPosition (p : PlayerNode) : PlayerNode :=
  mkPlayerNode (x_tilt_percentage p) (y_tilt_percentage p) (forward_factor p)
    (- forward_factor p * 0, - forward_factor p * 0, - forward_factor p * 1).

Definition getDistanceFromCamera (p : PlayerNode) : R := forward_factor p.

(** The two angles [SetupShader] tilts the player by. *)
Definition angle_x (p : PlayerNode) : R :=
  PI / 16 * sin (x_tilt_percentage p).
Definition angle_y (p : PlayerNode) : R :=
  PI / 16 * sin (y_tilt_percentage p).

End PlayerNode.

(** ** Concrete generators used to run the code *)

Module Runs.

Import PoissonGenerator MapGenerator.

(** The two orders of evaluation.  Where a run below does not name the
    order, the draws are taken as written, the first one being [X]. *)
#[export] Instance as_written : ArgOrder := false.
Definition second_first : ArgOrder := true.

(** A generator that replays a script of floats and always draws index 0;
    once the script is over it draws 0. *)
#[export] Instance script_prng : PRNG (list R) := {
  randomFloat g := match g with [] => (0, []) | r :: g' => (r, g') end;
  randomInt g _ := (0%Z, g)
}.

(** A generator that always draws 1/2 and index 0. *)
#[export] Instance half_prng : PRNG unit := {
  randomFloat g := (1 / 2, g);
  randomInt g _ := (0%Z, g)
}.

(** A generator whose floats are 1/4 and 3/4 in turn, and whose indices
    are 0. *)
#[export] Instance turn_prng : PRNG bool := {
  randomFloat g := (if g then 3 / 4 else 1 / 4, negb g);
  randomInt g _ := (0%Z, g)
}.

(** A generator that counts its draws; every float is 0 and every index
    is the largest one, [maxValue]. *)
#[export] Instance last_prng : PRNG nat := {
  randomFloat g := (0, S g);
  randomInt g maxValue := (maxValue, S g)
}.


(** The script of a run that accepts one candidate. *)
Definition two_point_script : list R := [1 / 4; 1 / 2; 0; 0].

(** The script of a run whose candidate lands on the edge [x = 1]; the
    two draws of the first point are equal, so that the run is the same
    in both orders of evaluation. *)
Definition edge_script : list R := [1 - sqrt 2 / 2; 1 - sqrt 2 / 2; 0; 0].

(** The script of a run that accepts two candidates around the first
    point, and the second of them. *)
Definition overshoot_script : list R := [1 / 2; 1 / 2; 0; 0; 0; 1 / 2].
Definition overshoot_third : Point :=
  Point_xy (1 / 2 + 1 / 4 * (0 + 1) * cos (2 * 3.141592653589 * (1 / 2)))
    (1 / 2 + 1 / 4 * (0 + 1) * sin (2 * 3.141592653589 * (1 / 2))).

(** The script of a run of [GenerateMap] whose second point is (1, 3/4):
    the first point is (3/4, 3/4) in both orders of evaluation, and the
    first candidate is drawn at distance [minDist * (1/4 + 1)] under the
    angle 0. *)
Definition map_edge_script : list R := [3 / 4; 3 / 4; 1 / 4; 0].

(** A [rand()] that always returns 0. *)
#[export] Instance zero_rand : CRand unit := {
  rand rs := (0%Z, rs)
}.

(** A map of 5 x 5 cells whose cell (4, 4) holds a bale of hay, as a first
    call of [GenerateMap] leaves it, and the script of a second call: the
    first point is (7/8, 7/8), the 50 candidates around it are drawn with
    zeros, and the sampler of the cluster draws 1/4 twice.  With a [rand()]
    that always returns 0 the point becomes an origin, and the origin a
    cluster of one barn. *)
Definition cluster_script : list R :=
  [7 / 8; 7 / 8] ++ repeat 0 100 ++ [1 / 4; 1 / 4].
Definition hay2 : Object := mkObject (85, 85) 4 4 "hay" 0.
Definition origin2 : Object :=
  mkObject (7 / 8 * 100, 7 / 8 * 100) 4 4 "originPoint" 0.
Definition barn2 : Object :=
  mkObject (member_pos origin2 20 (Point_xy (1 / 4) (1 / 4))) 4 4 "barn" 0.
Definition grid_corner (cell : list Object) : list (list (list Object)) :=
  [ repeat [] 5; repeat [] 5; repeat [] 5; repeat [] 5;
    [[]; []; []; []; cell] ].
Definition map2 : MapGenerator (G:=list R) :=
  with_grid (MapGenerator_new cluster_script 1 1) (grid_corner [hay2]).
Definition map2_binned : MapGenerator (G:=list R) :=
  with_grid (with_PRNG map2 [1 / 4; 1 / 4]) (grid_corner [hay2; origin2]).
Definition map2_done : MapGenerator (G:=list R) :=
  with_grid (with_PRNG map2 []) (grid_corner [hay2; origin2; barn2]).
Definition hay2_instance : Instance :=
  mkInstance EntityNode "hay" (4, 4)%Z (pos hay2) None None
    ["canPickUp"%string; "canCollect"%string].
Definition barn2_instance : Instance :=
  mkInstance SceneNode "barn" (4, 4)%Z (pos barn2) (Some 0)
    (Some (1.3 + IZR (Z.rem 0 80) / 100, 1.3 + IZR (Z.rem 0 80) / 100,
           1.3 + IZR (Z.rem 0 80) / 100)) [].

(** A player that looks straight ahead, as the constructor leaves it. *)
Definition player0 : PlayerNode.PlayerNode :=
  PlayerNode.mkPlayerNode 0 0 40 (0, 0, 0).

(** A map of 5 x 5 cells whose cell (0, 0) holds an origin and a bale of
    hay less than three units away from it. *)
Definition origin0 : Object := mkObject (12, 12) 0 0 "originPoint" 0.
Definition hay0 : Object := mkObject (10, 10) 0 0 "hay" 0.
Definition map0 : MapGenerator (G:=unit) :=
  with_grid (MapGenerator_new tt 1 1)
    (([origin0; hay0] :: repeat [] 4) :: repeat (repeat [] 5) 4).

(** A map of 5 x 5 cells with an origin in cell (1, 1) and a bale of hay
    two units away from it, in cell (2, 1). *)
Definition origin1 : Object := mkObject (39, 30) 1 1 "originPoint" 0.
Definition hay1 : Object := mkObject (41, 30) 2 1 "hay" 0.
Definition map1 : MapGenerator (G:=unit) :=
  with_grid (MapGenerator_new tt 1 1)
    [ repeat [] 5;
      [[]; [origin1]; []; []; []];
      [[]; [hay1]; []; []; []];
      repeat [] 5;
      repeat [] 5 ].

(** The member the cluster around [origin0] gets in the run below. *)
Definition barn0 : Object :=
  mkObject (member_pos origin0 20 (Point_xy (1 / 2) (1 / 2))) 0 0 "barn" 0.

(** The instance the last loop of [GenerateMap] creates for [hay0]. *)
Definition hay0_instance : Instance :=
  mkInstance EntityNode "hay" (0, 0)%Z (pos hay0) None None
    ["canPickUp"%string; "canCollect"%string].

End Runs.

(** ** Binary32 arithmetic *)

(** The claims on the minimum distance and on the cells of the sampling
    grid depend on how the operations round.  For them the sampler is
    embedded a second time, with [float] as IEEE 754 binary32: every
    operation rounds to nearest, ties to even, as the compiled code does
    with SSE arithmetic and without contraction.  The source is built with
    Visual C++, whose [<cmath>] gives the unqualified [sqrt], [cos], [sin]
    and [ceil] their [float] overloads. *)

Module Binary32.

Definition prec : Z := 24.
Definition emax : Z := 128.

Definition float : Type := spec_float.

Definition fadd : float -> float -> float := SFadd prec emax.
Definition fsub : float -> float -> float := SFsub prec emax.
Definition fmul : float -> float -> float := SFmul prec emax.
Definition fdiv : float -> float -> float := SFdiv prec emax.
Definition fsqrt : float -> float := SFsqrt prec emax.

(** [a < b], [a <= b] and [a >= b]; all three are false on a NaN. *)
Definition fltb (a b : float) : bool := SFltb a b.
Definition fleb (a b : float) : bool := SFleb a b.
Definition fgeb (a b : float) : bool := SFleb b a.

(** The conversion of an integer, [float(n)]. *)
Definition of_int (n : Z) : float := binary_normalize prec emax n 0 false.

(** The float with the given 32 bits. *)
Definition of_bits (b : Z) : float :=
  let s := Z.testbit b 31 in
  let e := Z.land (Z.shiftr b 23) 255 in
  let m := Z.land b 8388607 in
  if (e =? 0)%Z then
    if (m =? 0)%Z then S754_zero s else S754_finite s (Z.to_pos m) (-149)
  else if (e =? 255)%Z then
    if (m =? 0)%Z then S754_infinity s else S754_nan
  else S754_finite s (Z.to_pos (m + 8388608)) (e - 150).

(** The literals of the source. *)
Definition lit_0 : float := of_int 0.             (* 0.0f *)
Definition lit_1 : float := of_int 1.             (* 1.0f *)
Definition lit_2 : float := of_int 2.             (* 2.0f *)
Definition lit_0_5 : float := of_bits 0x3f000000.   (* 0.5f *)
Definition lit_0_25 : float := of_bits 0x3e800000.  (* 0.25f *)
Definition lit_pi : float := of_bits 0x40490fdb.    (* 3.141592653589f *)

(** The value of a finite float, a rational number. *)
Definition value (x : float) : Q :=
  match x with
  | S754_finite s m e =>
      let n := if s then Z.neg m else Z.pos m in
      if (0 <=? e)%Z then inject_Z (n * 2 ^ e)
      else Qmake n (Z.to_pos (2 ^ (- e)))
  | _ => 0%Q
  end.

(** The cast [(int)x]: truncation towards zero.  The behaviour is
    undefined when [x] is a NaN or an infinity, or when the truncated
    value is no [int]. *)
Definition to_int (x : float) : result Z :=
  match x with
  | S754_zero _ => Ok 0%Z
  | S754_finite s m e =>
      let t := if (0 <=? e)%Z then (Z.pos m * 2 ^ e)%Z
               else (Z.pos m / 2 ^ (- e))%Z in
      let z := if s then (- t)%Z else t in
      if ((INT_MIN <=? z) && (z <=? INT_MAX))%Z then Ok z
      else Err UndefinedCast
  | _ => Err UndefinedCast
  end.

(** [ceilf]: a float with no fractional bit is its own ceiling; the
    ceiling of a value between -1 and 0 is the negative zero. *)
Definition fceil (x : float) : float :=
  match x with
  | S754_finite s m e =>
      if (0 <=? e)%Z then x
      else
        let q := (Z.pos m / 2 ^ (- e))%Z in
        let whole := (Z.pos m mod 2 ^ (- e) =? 0)%Z in
        if s then
          if (q =? 0)%Z then S754_zero true else of_int (- q)
        else of_int (if whole then q else q + 1)
  | _ => x
  end.

(** [cosf] and [sinf] of the C library, whose code is not part of the
    repository. *)
Class Libm : Type := {
  cosf : float -> float;
  sinf : float -> float
}.

End Binary32.

(** ** PoissonGenerator.h, with binary32 floats *)

Module PoissonBinary32.

Import Binary32.
Import PoissonGenerator(ArgOrder, right_to_left, erase).

(** The interface the template parameter [PRNG] has to offer. *)
Class PRNG (G : Type) : Type := {
  randomFloat : G -> float * G;
  randomInt : G -> Z -> Z * G
}.

Record Point : Type := mkPoint {
  p_x : float;
  p_y : float;
  valid_ : bool
}.

(** [Point()] *)
Definition Point_default : Point := mkPoint lit_0 lit_0 false.
(** [Point(X, Y)] *)
Definition Point_xy (X Y : float) : Point := mkPoint X Y true.

Definition isInRectangle (p : Point) : bool :=
  fgeb (p_x p) (of_int 0) && fgeb (p_y p) (of_int 0)
  && fleb (p_x p) (of_int 1) && fleb (p_y p) (of_int 1).

Definition isInCircle (p : Point) : bool :=
  let fx := fsub (p_x p) lit_0_5 in
  let fy := fsub (p_y p) lit_0_5 in
  fleb (fadd (fmul fx fx) (fmul fy fy)) lit_0_25.

Record GridPoint : Type := mkGridPoint {
  g_x : Z;
  g_y : Z
}.

Definition getDistance (P1 P2 : Point) : float :=
  fsqrt (fadd (fmul (fsub (p_x P1) (p_x P2)) (fsub (p_x P1) (p_x P2)))
              (fmul (fsub (p_y P1) (p_y P2)) (fsub (p_y P1) (p_y P2)))).

(** The quotient is rounded to a float before it is cast. *)
Definition imageToGrid (P : Point) (cellSize : float) : result GridPoint :=
  X <- to_int (fdiv (p_x P) cellSize) ;;
  Y <- to_int (fdiv (p_y P) cellSize) ;;
  Ok (mkGridPoint X Y).

Record Grid : Type := mkGrid {
  w_ : Z;
  h_ : Z;
  cellSize_ : float;
  grid_ : list (list Point)
}.

(** [Grid(w, h, cellSize)]: [h_] rows of [w] default points. *)
Definition Grid_new (w h : Z) (cellSize : float) : result Grid :=
  if (h <? 0)%Z then Err LengthError
  else if ((0 <? h) && (w <? 0))%Z then Err LengthError
  else Ok (mkGrid w h cellSize
             (repeat (repeat Point_default (Z.to_nat w)) (Z.to_nat h))).

(** [grid_[i][j]] read *)
Definition Grid_get (gr : Grid) (i j : Z) : result Point :=
  row <- vec_get (grid_ gr) i ;;
  vec_get row j.

(** [Grid::insert]: [grid_[g.x][g.y] = p], no test on [g], and no test on
    what the cell holds. *)
Definition Grid_insert (gr : Grid) (p : Point) : result Grid :=
  g <- imageToGrid p (cellSize_ gr) ;;
  row <- vec_get (grid_ gr) (g_x g) ;;
  row' <- vec_set row (g_y g) p ;;
  rows' <- vec_set (grid_ gr) (g_x g) row' ;;
  Ok (mkGrid (w_ gr) (h_ gr) (cellSize_ gr) rows').

(** number of adjacent cells to look for neighbour points *)
Definition D : Z := 5.

Definition scan_cell (gr : Grid) (point : Point) (minDist : float) (i j : Z)
  : result bool :=
  if ((0 <=? i) && (i <? w_ gr) && (0 <=? j) && (j <? h_ gr))%Z then
    P <- Grid_get gr i j ;;
    Ok (valid_ P && fltb (getDistance P point) minDist)
  else Ok false.

Fixpoint scan_j (gr : Grid) (point : Point) (minDist : float) (i j : Z)
  (n : nat) : result bool :=
  match n with
  | O => Ok false
  | S n' =>
      hit <- scan_cell gr point minDist i j ;;
      if hit : bool then Ok true
      else scan_j gr point minDist i (j + 1) n'
  end.

Fixpoint scan_i (gr : Grid) (point : Point) (minDist : float) (i j0 : Z)
  (n m : nat) : result bool :=
  match n with
  | O => Ok false
  | S n' =>
      hit <- scan_j gr point minDist i j0 m ;;
      if hit : bool then Ok true
      else scan_i gr point minDist (i + 1) j0 n' m
  end.

(** [Grid::isInNeighbourhood] *)
Definition isInNeighbourhood (gr : Grid) (point : Point)
  (minDist cellSize : float) : result bool :=
  g <- imageToGrid point cellSize ;;
  scan_i gr point minDist (g_x g - D) (g_y g - D)
    (Z.to_nat (2 * D)) (Z.to_nat (2 * D)).

Section Sampler.

Context {G : Type} `{PRNG G} {libm : Libm} {order : ArgOrder}.

Definition popRandom (points : list Point) (generator : G)
  : result (Point * list Point * G) :=
  let (idx, generator') :=
    randomInt generator (Z.of_nat (List.length points) - 1) in
  p <- vec_get points idx ;;
  Ok (p, erase points (Z.to_nat idx), generator').

Definition generateRandomPointAround (p : Point) (minDist : float)
  (generator : G) : Point * G :=
  let (R1, g1) := randomFloat generator in
  let (R2, g2) := randomFloat g1 in
  let radius := fmul minDist (fadd R1 lit_1) in
  let angle := fmul (fmul (of_int 2) lit_pi) R2 in
  let x := fadd (p_x p) (fmul radius (cosf angle)) in
  let y := fadd (p_y p) (fmul radius (sinf angle)) in
  (Point_xy x y, g2).

(** The local state of [generatePoissonPoints]. *)
Record State : Type := mkState {
  samplePoints : list Point;
  processList : list Point;
  grid : Grid;
  generator : G
}.

Definition inShape (isCircle : bool) (p : Point) : bool :=
  if isCircle then isInCircle p else isInRectangle p.

Definition draw_point (g : G) : Point * G :=
  let (d1, g1) := randomFloat g in
  let (d2, g2) := randomFloat g1 in
  (if right_to_left then Point_xy d2 d1 else Point_xy d1 d2, g2).

Fixpoint firstPoint_loop (fuel : nat) (isCircle : bool) (g : G)
  : result (Point * G) :=
  match fuel with
  | O => Err OutOfFuel
  | S fuel' =>
      let (firstPoint, g2) := draw_point g in
      if inShape isCircle firstPoint then Ok (firstPoint, g2)
      else firstPoint_loop fuel' isCircle g2
  end.

Definition candidate (isCircle : bool) (minDist cellSize : float)
  (point : Point) (st : State) : result State :=
  let (newPoint, g') := generateRandomPointAround point minDist (generator st) in
  let canFitPoint := inShape isCircle newPoint in
  near <- (if canFitPoint
           then isInNeighbourhood (grid st) newPoint minDist cellSize
           else Ok true) ;;
  if canFitPoint && negb near then
    grid' <- Grid_insert (grid st) newPoint ;;
    Ok (mkState (samplePoints st ++ [newPoint])
                (processList st ++ [newPoint])
                grid' g')
  else
    Ok (mkState (samplePoints st) (processList st) (grid st) g').

Fixpoint candidates (n : nat) (isCircle : bool) (minDist cellSize : float)
  (point : Point) (st : State) : result State :=
  match n with
  | O => Ok st
  | S n' =>
      st' <- candidate isCircle minDist cellSize point st ;;
      candidates n' isCircle minDist cellSize point st'
  end.

Definition loop_cond (numPoints : nat) (st : State) : bool :=
  negb (match processList st with [] => true | _ => false end)
  && (List.length (samplePoints st) <? numPoints)%nat.

Fixpoint main_loop (fuel : nat) (numPoints : nat) (newPointsCount : Z)
  (isCircle : bool) (minDist cellSize : float) (st : State) : result State :=
  if loop_cond numPoints st then
    match fuel with
    | O => Err OutOfFuel
    | S fuel' =>
        '(point, rest, g') <- popRandom (processList st) (generator st) ;;
        st' <- candidates (Z.to_nat newPointsCount) isCircle minDist cellSize
                 point (mkState (samplePoints st) rest (grid st) g') ;;
        main_loop fuel' numPoints newPointsCount isCircle minDist cellSize st'
    end
  else Ok st.

(** [minDist] after the default has been filled in *)
Definition effective_minDist (numPoints : nat) (minDist : float) : float :=
  if fltb minDist lit_0
  then fdiv (fsqrt (of_int (Z.of_nat numPoints))) (of_int (Z.of_nat numPoints))
  else minDist.

Definition cellSize_of (minDist : float) : float := fdiv minDist (fsqrt lit_2).

(** [(int)ceil( 1.0f / cellSize )] *)
Definition grid_size (cellSize : float) : result Z :=
  to_int (fceil (fdiv lit_1 cellSize)).

Definition seed_state (fuel : nat) (generator0 : G) (isCircle : bool)
  (minDist : float) : result State :=
  let cellSize := cellSize_of minDist in
  gridW <- grid_size cellSize ;;
  gridH <- grid_size cellSize ;;
  grid0 <- Grid_new gridW gridH cellSize ;;
  '(firstPoint, g1) <- firstPoint_loop fuel isCircle generator0 ;;
  grid1 <- Grid_insert grid0 firstPoint ;;
  Ok (mkState [firstPoint] [firstPoint] grid1 g1).

Definition generatePoissonPoints_state (fuel : nat) (numPoints : nat)
  (generator0 : G) (newPointsCount : Z) (isCircle : bool) (minDist : float)
  : result State :=
  let minDist := effective_minDist numPoints minDist in
  st0 <- seed_state fuel generator0 isCircle minDist ;;
  main_loop fuel numPoints newPointsCount isCircle minDist
    (cellSize_of minDist) st0.

Definition generatePoissonPoints (fuel : nat) (numPoints : nat)
  (generator0 : G) (newPointsCount : Z) (isCircle : bool) (minDist : float)
  : result (list Point * G) :=
  st <- generatePoissonPoints_state fuel numPoints generator0 newPointsCount
          isCircle minDist ;;
  Ok (samplePoints st, generator st).

End Sampler.

End PoissonBinary32.

(** ** A binary32 run in which a cell of the grid is written twice *)

Module Runs32.

Import Binary32 PoissonBinary32.
Import PoissonGenerator(ArgOrder, right_to_left).

(** A generator that replays a script of floats and always draws index 0;
    once the script is over it draws 0. *)
#[export] Instance script_prng : PRNG (list float) := {
  randomFloat g := match g with [] => (lit_0, []) | r :: g' => (r, g') end;
  randomInt g _ := (0%Z, g)
}.

(** [minDist = 1.0f / 15] *)
Definition minDist15 : float := fdiv lit_1 (of_int 15).

(** The two draws of the first point, so that it is (0, 0.23570228) in
    either order of evaluation. *)
Definition first_y : float := of_bits 0x3e715bf0.
Definition first_draws (order : ArgOrder) : list float :=
  if right_to_left then [first_y; lit_0] else [lit_0; first_y].

(** Then [R1 = 0] and [R2 = 1/8] for the candidate around the first point,
    and [R1 = 1/8] and [R2 = 3/4] for the candidate around the second. *)
Definition lit_0_125 : float := of_bits 0x3e000000.
Definition lit_0_75 : float := of_bits 0x3f400000.
Definition overwrite_script (order : ArgOrder) : list float :=
  first_draws order ++ [lit_0; lit_0_125; lit_0_125; lit_0_75].

(** The two angles the run passes to [cosf] and [sinf], and the values
    nearest to the cosine and the sine of these two floats. *)
Definition angle_q : float := fmul (fmul (of_int 2) lit_pi) lit_0_125.
Definition angle_c : float := fmul (fmul (of_int 2) lit_pi) lit_0_75.
Definition cos_q : float := of_bits 0x3f3504f3.
Definition sin_q : float := of_bits 0x3f3504f3.
Definition cos_c : float := of_bits 0x324cde2e.
Definition sin_c : float := of_bits 0xbf800000.

(** A C library that answers for these two angles. *)
Definition table_libm : Libm := {|
  cosf a := if SFeqb a angle_q then cos_q
            else if SFeqb a angle_c then cos_c else S754_nan;
  sinf a := if SFeqb a angle_q then sin_q
            else if SFeqb a angle_c then sin_c else S754_nan
|}.

(** The three points of the run. *)
Definition first_p : Point := Point_xy lit_0 first_y.
Definition second_q : Point :=
  Point_xy (of_bits 0x3d411659) (of_bits 0x3e90d0c3).
Definition third_c : Point :=
  Point_xy (of_bits 0x3d411659) (of_bits 0x3e54d4b9).

(** The grid of 22 x 22 cells with [P] in the cell (0, 5), and with a
    second point in the cell (0, 4). *)
Definition grid_with (P : Point) : Grid :=
  mkGrid 22 22 (cellSize_of minDist15)
    (([Point_default; Point_default; Point_default; Point_default;
       Point_default; P] ++ repeat Point_default 16)
     :: repeat (repeat Point_default 22) 21).
Definition grid_with2 (P C : Point) : Grid :=
  mkGrid 22 22 (cellSize_of minDist15)
    (([Point_default; Point_default; Point_default; Point_default;
       C; P] ++ repeat Point_default 16)
     :: repeat (repeat Point_default 22) 21).

(** The number of valid points a grid holds. *)
Definition valid_points (gr : Grid) : nat :=
  List.length (filter valid_ (List.concat (grid_ gr))).

End Runs32.

(** ** Floats, casts and vectors *)

Section Basics.

Lemma fle_true (a b : R) : fle a b = true <-> a <= b.
Proof. unfold fle. destruct (Rle_dec a b); split; intros; easy. Qed.

Lemma fle_false (a b : R) : fle a b = false <-> b < a.
Proof.
  unfold fle. destruct (Rle_dec a b); split; intros; try easy; lra.
Qed.

Lemma flt_true (a b : R) : flt a b = true <-> a < b.
Proof. unfold flt. destruct (Rlt_dec a b); split; intros; easy. Qed.

Lemma flt_false (a b : R) : flt a b = false <-> b <= a.
Proof.
  unfold flt. destruct (Rlt_dec a b); split; intros; try easy; lra.
Qed.

Lemma truncZ_nonneg (r : R) : 0 <= r -> truncZ r = Zfloor r.
Proof. intros Hr. unfold truncZ. destruct (Rle_dec 0 r); easy. Qed.

Lemma truncZ_IZR (z : Z) : truncZ (IZR z) = z.
Proof.
  unfold truncZ. destruct (Rle_dec 0 (IZR z)).
  - apply ZfloorZ.
  - apply Zceil_eq. lra.
Qed.

Lemma truncZ_eq (r : R) (k : Z) :
  (0 <= k)%Z -> IZR k <= r < IZR k + 1 -> truncZ r = k.
Proof.
  intros Hk Hr. rewrite truncZ_nonneg.
  - now apply Zfloor_eq.
  - apply IZR_le in Hk. lra.
Qed.

Lemma vec_get_Ok {A : Type} (v : list A) (i : Z) (x : A) :
  vec_get v i = Ok x <-> (0 <= i)%Z /\ nth_error v (Z.to_nat i) = Some x.
Proof.
  unfold vec_get. destruct (Z.ltb_spec i 0).
  - split; [discriminate | lia].
  - destruct (nth_error v (Z.to_nat i)) eqn:E; split.
    + intros [= ->]. now split.
    + intros [_ [= ->]]. reflexivity.
    + discriminate.
    + intros [_ [=]].
Qed.

Lemma vec_get_bound {A : Type} (v : list A) (i : Z) (x : A) :
  vec_get v i = Ok x -> (0 <= i < Z.of_nat (List.length v))%Z.
Proof.
  intros Hg. apply vec_get_Ok in Hg as [Hi Hn].
  assert (Z.to_nat i < List.length v)%nat
    by (apply nth_error_Some; congruence).
  lia.
Qed.

Lemma list_update_length {A : Type} (l : list A) (n : nat) (x : A) :
  List.length (list_update l n x) = List.length l.
Proof.
  revert n. induction l as [|h t IH]; intros [|n]; simpl; auto.
Qed.

Lemma list_update_same {A : Type} (l : list A) (n : nat) (x : A) :
  (n < List.length l)%nat -> nth_error (list_update l n x) n = Some x.
Proof.
  revert n. induction l as [|h t IH]; intros [|n] Hn; simpl in *;
    try lia; auto.
  apply IH. lia.
Qed.

Lemma list_update_other {A : Type} (l : list A) (n k : nat) (x : A) :
  n <> k -> nth_error (list_update l n x) k = nth_error l k.
Proof.
  revert n k. induction l as [|h t IH]; intros [|n] [|k] Hnk; simpl;
    try congruence; auto.
Qed.

Lemma vec_set_Ok {A : Type} (v : list A) (i : Z) (x : A) (v' : list A) :
  vec_set v i x = Ok v' <->
  (0 <= i < Z.of_nat (List.length v))%Z /\ v' = list_update v (Z.to_nat i) x.
Proof.
  unfold vec_set. destruct (Z.ltb_spec i 0).
  - split; [discriminate | lia].
  - destruct (Nat.ltb_spec (Z.to_nat i) (List.length v)); split.
    + intros [= <-]. split; [lia | reflexivity].
    + intros [_ ->]. reflexivity.
    + discriminate.
    + lia.
Qed.

End Basics.

(** ** The sampling grid *)

Section GridFacts.

Import PoissonGenerator Spec.

Lemma Grid_get_Ok (gr : Grid) (i j : Z) (P : Point) :
  Grid_get gr i j = Ok P <->
  exists row, vec_get (grid_ gr) i = Ok row /\ vec_get row j = Ok P.
Proof.
  unfold Grid_get, bind. destruct (vec_get (grid_ gr) i) as [row|e]; split.
  - intros Hj. now exists row.
  - intros [row' [[= <-] Hj]]. exact Hj.
  - discriminate.
  - intros [row' [[=] _]].
Qed.

Lemma Grid_get_bound (gr : Grid) (i j : Z) (P : Point) :
  grid_wf gr -> Grid_get gr i j = Ok P ->
  (0 <= i < w_ gr)%Z /\ (0 <= j < h_ gr)%Z.
Proof.
  intros (Hw & Hh & Hlen & Hrows) Hg.
  apply Grid_get_Ok in Hg as (row & Hrow & HP).
  pose proof (vec_get_bound _ _ _ Hrow) as Hi.
  pose proof (vec_get_bound _ _ _ HP) as Hj.
  apply vec_get_Ok in Hrow as [_ Hrow]. apply nth_error_In in Hrow.
  rewrite Forall_forall in Hrows. apply Hrows in Hrow. lia.
Qed.

Lemma Grid_new_Ok (w : Z) (c : R) :
  (0 <= w)%Z ->
  exists gr, Grid_new w w c = Ok gr /\ grid_wf gr /\ cellSize_ gr = c
    /\ w_ gr = w
    /\ forall i j P, Grid_get gr i j = Ok P -> valid_ P = false.
Proof.
  intros Hw. unfold Grid_new.
  replace (w <? 0)%Z with false
    by (destruct (Z.ltb_spec w 0); [lia | reflexivity]).
  rewrite andb_false_r.
  eexists; split; [reflexivity|]. repeat split; simpl; auto.
  - now rewrite repeat_length.
  - apply Forall_forall. intros row Hrow. apply repeat_spec in Hrow.
    subst row. now rewrite repeat_length.
  - intros i j P Hg. apply Grid_get_Ok in Hg as (row & Hrow & HP).
    simpl in Hrow. apply vec_get_Ok in Hrow as [_ Hrow].
    apply nth_error_In, repeat_spec in Hrow. subst row.
    apply vec_get_Ok in HP as [_ HP].
    apply nth_error_In, repeat_spec in HP. now subst P.
Qed.

Lemma Grid_insert_spec (gr gr' : Grid) (p : Point) :
  grid_wf gr -> Grid_insert gr p = Ok gr' ->
  grid_wf gr' /\ cellSize_ gr' = cellSize_ gr
  /\ Grid_get gr' (fst (cell_of (cellSize_ gr) p))
       (snd (cell_of (cellSize_ gr) p)) = Ok p
  /\ forall i j, (i, j) <> cell_of (cellSize_ gr) p ->
       Grid_get gr' i j = Grid_get gr i j.
Proof.
  intros (Hw & Hh & Hlen & Hrows) Hins.
  unfold Grid_insert, bind, cell_of in *.
  remember (g_x (imageToGrid p (cellSize_ gr))) as gi eqn:Egi.
  remember (g_y (imageToGrid p (cellSize_ gr))) as gj eqn:Egj.
  clear Egi Egj. cbn [fst snd].
  destruct (vec_get (grid_ gr) gi) as [row|] eqn:Hrow; [|discriminate].
  destruct (vec_set row gj p) as [row'|] eqn:Hrow'; [|discriminate].
  destruct (vec_set (grid_ gr) gi row') as [rows'|] eqn:Hrows';
    [|discriminate].
  injection Hins as <-.
  apply vec_set_Ok in Hrow' as [Hj ->].
  apply vec_set_Ok in Hrows' as [Hi ->].
  apply vec_get_Ok in Hrow as [_ Hrow].
  repeat split; simpl; auto.
  - now rewrite list_update_length.
  - apply Forall_forall. intros r Hr.
    apply In_nth_error in Hr as [k Hk].
    destruct (Nat.eq_dec (Z.to_nat gi) k) as [<-|Hne].
    + rewrite list_update_same in Hk by lia. injection Hk as <-.
      rewrite list_update_length.
      apply nth_error_In in Hrow. rewrite Forall_forall in Hrows.
      now apply Hrows.
    + rewrite list_update_other in Hk by exact Hne.
      apply nth_error_In in Hk. rewrite Forall_forall in Hrows.
      now apply Hrows.
  - apply Grid_get_Ok. eexists. split.
    + apply vec_get_Ok. split; [lia|]. simpl. apply list_update_same. lia.
    + apply vec_get_Ok. split; [lia|]. apply list_update_same. lia.
  - intros i j Hne. unfold Grid_get, bind, vec_get. simpl.
    destruct (Z.ltb_spec i 0); [reflexivity|].
    destruct (Z.eq_dec i gi) as [->|Hi'].
    + rewrite list_update_same by lia. rewrite Hrow.
      destruct (Z.ltb_spec j 0); [reflexivity|].
      rewrite list_update_other; [reflexivity|].
      intros Heq. apply Hne. f_equal. lia.
    + rewrite list_update_other by lia. reflexivity.
Qed.

Lemma Grid_insert_width (gr gr' : Grid) (p : Point) :
  Grid_insert gr p = Ok gr' -> w_ gr' = w_ gr.
Proof.
  unfold Grid_insert, bind.
  destruct (vec_get (grid_ gr) (g_x (imageToGrid p (cellSize_ gr))))
    as [row|]; [|discriminate].
  destruct (vec_set row (g_y (imageToGrid p (cellSize_ gr))) p)
    as [row'|]; [|discriminate].
  destruct (vec_set (grid_ gr) (g_x (imageToGrid p (cellSize_ gr))) row')
    as [rows'|]; [|discriminate].
  now intros [= <-].
Qed.

(** The scan of one row of cells answers [false] only if every cell of
    the row does. *)
Lemma scan_j_false (gr : Grid) (pt : Point) (md : R) (i j : Z) (n : nat) :
  scan_j gr pt md i j n = Ok false ->
  forall j', (j <= j' < j + Z.of_nat n)%Z ->
    scan_cell gr pt md i j' = Ok false.
Proof.
  revert j. induction n as [|n IH]; intros j Hs j' Hj'; [lia|].
  simpl in Hs. unfold bind in Hs.
  destruct (scan_cell gr pt md i j) as [[|]|] eqn:Hc; try discriminate.
  destruct (Z.eq_dec j' j) as [->|Hne]; [exact Hc|].
  apply (IH (j + 1)%Z Hs). lia.
Qed.

Lemma scan_i_false (gr : Grid) (pt : Point) (md : R) (i j0 : Z) (n m : nat) :
  scan_i gr pt md i j0 n m = Ok false ->
  forall i' j', (i <= i' < i + Z.of_nat n)%Z ->
    (j0 <= j' < j0 + Z.of_nat m)%Z ->
    scan_cell gr pt md i' j' = Ok false.
Proof.
  revert i. induction n as [|n IH]; intros i Hs i' j' Hi' Hj'; [lia|].
  simpl in Hs. unfold bind in Hs.
  destruct (scan_j gr pt md i j0 m) as [[|]|] eqn:Hc; try discriminate.
  destruct (Z.eq_dec i' i) as [->|Hne].
  - now apply (scan_j_false _ _ _ _ _ _ Hc).
  - apply (IH (i + 1)%Z Hs); lia.
Qed.

(** On a well-formed grid no cell of the scan is read outside the grid. *)
Lemma scan_cell_total (gr : Grid) (pt : Point) (md : R) (i j : Z) :
  grid_wf gr -> exists b, scan_cell gr pt md i j = Ok b.
Proof.
  intros (Hw & Hh & Hlen & Hrows). unfold scan_cell.
  destruct ((0 <=? i) && (i <? w_ gr) && (0 <=? j) && (j <? h_ gr))%Z
    eqn:Hb; [|now exists false].
  apply andb_prop in Hb as [Hb Hj2]. apply andb_prop in Hb as [Hb Hj1].
  apply andb_prop in Hb as [Hi1 Hi2].
  apply Z.leb_le in Hi1, Hj1. apply Z.ltb_lt in Hi2, Hj2.
  unfold Grid_get, bind, vec_get.
  destruct (Z.ltb_spec i 0); [lia|].
  destruct (nth_error (grid_ gr) (Z.to_nat i)) as [row|] eqn:Hrow.
  - destruct (Z.ltb_spec j 0); [lia|].
    assert (Hl : List.length row = Z.to_nat (w_ gr)).
    { apply nth_error_In in Hrow. rewrite Forall_forall in Hrows.
      now apply Hrows. }
    destruct (nth_error row (Z.to_nat j)) as [P|] eqn:HP.
    + eexists; reflexivity.
    + apply nth_error_None in HP. lia.
  - apply nth_error_None in Hrow. lia.
Qed.

Lemma scan_j_total (gr : Grid) (pt : Point) (md : R) (i j : Z) (n : nat) :
  grid_wf gr -> exists b, scan_j gr pt md i j n = Ok b.
Proof.
  intros Hwf. revert j. induction n as [|n IH]; intros j; simpl.
  - now exists false.
  - destruct (scan_cell_total gr pt md i j Hwf) as [b ->]. simpl.
    destruct b; [now exists true | apply IH].
Qed.

Lemma scan_i_total (gr : Grid) (pt : Point) (md : R) (i j0 : Z) (n m : nat) :
  grid_wf gr -> exists b, scan_i gr pt md i j0 n m = Ok b.
Proof.
  intros Hwf. revert i. induction n as [|n IH]; intros i; simpl.
  - now exists false.
  - destruct (scan_j_total gr pt md i j0 m Hwf) as [b ->]. simpl.
    destruct b; [now exists true | apply IH].
Qed.

Lemma isInNeighbourhood_total (gr : Grid) (pt : Point) (md c : R) :
  grid_wf gr -> exists b, isInNeighbourhood gr pt md c = Ok b.
Proof. intros Hwf. unfold isInNeighbourhood. now apply scan_i_total. Qed.

(** A negative answer of the scan: no valid point nearer than [minDist] in
    a cell of the window. *)
Lemma isInNeighbourhood_false (gr : Grid) (pt : Point) (md c : R)
  (i j : Z) (P : Point) :
  grid_wf gr ->
  isInNeighbourhood gr pt md c = Ok false ->
  (g_x (imageToGrid pt c) - 5 <= i < g_x (imageToGrid pt c) + 5)%Z ->
  (g_y (imageToGrid pt c) - 5 <= j < g_y (imageToGrid pt c) + 5)%Z ->
  Grid_get gr i j = Ok P -> valid_ P = true ->
  md <= getDistance P pt.
Proof.
  intros Hwf Hs Hi Hj Hg Hv. unfold isInNeighbourhood in Hs.
  pose proof (scan_i_false _ _ _ _ _ _ _ Hs i j) as Hc.
  unfold D in Hc. simpl Z.to_nat in Hc.
  specialize (Hc ltac:(lia) ltac:(lia)).
  destruct (Grid_get_bound _ _ _ _ Hwf Hg) as [Hbi Hbj].
  unfold scan_cell in Hc.
  replace ((0 <=? i) && (i <? w_ gr) && (0 <=? j) && (j <? h_ gr))%Z
    with true in Hc.
  - rewrite Hg in Hc. simpl in Hc. rewrite Hv in Hc. simpl in Hc.
    injection Hc as Hc. now apply flt_false.
  - symmetry. repeat (apply andb_true_intro; split);
      try apply Z.leb_le; try apply Z.ltb_lt; lia.
Qed.

End GridFacts.

(** ** Geometry of the cells *)

Section Geometry.

Import PoissonGenerator Spec.

Lemma sqrt2_pos : 0 < sqrt 2.
Proof. apply sqrt_lt_R0. lra. Qed.

Lemma sqrt2_sq : sqrt 2 * sqrt 2 = 2.
Proof. apply sqrt_sqrt. lra. Qed.

Lemma cellSize_of_pos (md : R) : 0 < md -> 0 < cellSize_of md.
Proof.
  intros Hmd. unfold cellSize_of. apply Rdiv_lt_0_compat; [exact Hmd|].
  exact sqrt2_pos.
Qed.

(** The diagonal of a cell is [minDist]. *)
Lemma cellSize_of_diag (md : R) :
  2 * (cellSize_of md * cellSize_of md) = md * md.
Proof.
  unfold cellSize_of. pose proof sqrt2_pos as Hp. pose proof sqrt2_sq as Hs.
  assert (Hne : sqrt 2 <> 0) by lra.
  replace (md / sqrt 2 * (md / sqrt 2))
    with (md * md / (sqrt 2 * sqrt 2)) by (now field).
  rewrite Hs. field.
Qed.

(** Down to a millionth, [minDist] gives a grid whose width is an [int]. *)
Lemma grid_fits_ge (md : R) : 1 / 1000000 <= md -> grid_fits md.
Proof.
  intros Hmd. unfold grid_fits.
  assert (Hlt : (Zceil (1 / cellSize_of md) < INT_MAX + 1)%Z); [|lia].
  apply lt_IZR. pose proof (Zceil_bound (1 / cellSize_of md)) as [Hlo _].
  pose proof sqrt2_pos as Hp. pose proof sqrt2_sq as Hs.
  assert (H2 : sqrt 2 < 2) by nra.
  assert (Hq : 1 / cellSize_of md <= 2000000).
  { unfold cellSize_of.
    replace (1 / (md / sqrt 2)) with (sqrt 2 * / md) by (field; lra).
    assert (Hi : / md <= 1000000).
    { replace 1000000 with (/ (1 / 1000000)) by lra.
      apply Rinv_le_contravar; lra. }
    assert (0 < / md) by (apply Rinv_0_lt_compat; lra).
    nra. }
  unfold INT_MAX. rewrite plus_IZR. lra.
Qed.

(** Both shapes are symmetric in the two coordinates. *)
Lemma inShape_swap (isCircle : bool) (x y : R) :
  inShape isCircle (Point_xy y x) = inShape isCircle (Point_xy x y).
Proof.
  destruct isCircle; simpl.
  - unfold isInCircle. cbn [p_x p_y Point_xy]. f_equal. ring.
  - unfold isInRectangle. cbn [p_x p_y Point_xy].
    destruct (fle 0 x), (fle 0 y), (fle x 1), (fle y 1); reflexivity.
Qed.

Lemma inShape_unit (isCircle : bool) (p : Point) :
  inShape isCircle p = true ->
  0 <= p_x p <= 1 /\ 0 <= p_y p <= 1.
Proof.
  destruct isCircle; simpl.
  - unfold isInCircle. intros Hc. apply fle_true in Hc.
    replace 0.25 with (/ 4) in Hc by lra.
    replace 0.5 with (/ 2) in Hc by lra.
    pose proof (Rle_0_sqr (p_x p - / 2)) as Hx.
    pose proof (Rle_0_sqr (p_y p - / 2)) as Hy.
    unfold Rsqr in Hx, Hy.
    repeat split.
    + destruct (Rle_dec 0 (p_x p)); [assumption | exfalso; nra].
    + destruct (Rle_dec (p_x p) 1); [assumption | exfalso; nra].
    + destruct (Rle_dec 0 (p_y p)); [assumption | exfalso; nra].
    + destruct (Rle_dec (p_y p) 1); [assumption | exfalso; nra].
  - unfold isInRectangle. intros Hr.
    apply andb_prop in Hr as [Hr H4]. apply andb_prop in Hr as [Hr H3].
    apply andb_prop in Hr as [H1 H2].
    apply fle_true in H1, H2, H3, H4. lra.
Qed.

Lemma sq_dist_nonneg (p q : Point) :
  0 <= (p_x p - p_x q) * (p_x p - p_x q) + (p_y p - p_y q) * (p_y p - p_y q).
Proof.
  apply Rplus_le_le_0_compat.
  - apply (Rle_0_sqr (p_x p - p_x q)).
  - apply (Rle_0_sqr (p_y p - p_y q)).
Qed.

Lemma getDistance_lt (p q : Point) (md : R) :
  0 < md ->
  (getDistance p q < md <->
   (p_x p - p_x q) * (p_x p - p_x q) + (p_y p - p_y q) * (p_y p - p_y q)
   < md * md).
Proof.
  intros Hmd. unfold getDistance.
  pose proof (sq_dist_nonneg p q) as Hn.
  set (S := (p_x p - p_x q) * (p_x p - p_x q)
            + (p_y p - p_y q) * (p_y p - p_y q)) in *.
  pose proof (sqrt_pos S) as Hs. pose proof (sqrt_sqrt S Hn) as Hss.
  split; intros Hlt; [nra|].
  destruct (Rlt_dec (sqrt S) md) as [|Hge]; [assumption|].
  exfalso. nra.
Qed.

Lemma getDistance_sym (p q : Point) : getDistance p q = getDistance q p.
Proof. unfold getDistance. f_equal. ring. Qed.

(** A coordinate and the cell index it is cast to. *)
Lemma cell_index_bound (v c : R) :
  0 < c -> 0 <= v ->
  IZR (truncZ (v / c)) * c <= v < (IZR (truncZ (v / c)) + 1) * c.
Proof.
  intros Hc Hv.
  assert (Hq : 0 <= v / c).
  { unfold Rdiv. apply Rmult_le_pos; [exact Hv|].
    left. now apply Rinv_0_lt_compat. }
  rewrite truncZ_nonneg by exact Hq.
  pose proof (Zfloor_bound (v / c)) as [Hlo Hhi].
  assert (Hvc : v = v / c * c) by (field; lra).
  split.
  - rewrite Hvc at 2. apply Rmult_le_compat_r; lra.
  - rewrite Hvc at 1. apply Rmult_lt_compat_r; lra.
Qed.

Lemma sq_lt_of_abs (d c : R) : - c < d < c -> d * d < c * c.
Proof.
  intros [Hlo Hhi].
  assert (0 < (c - d) * (c + d)) by (apply Rmult_lt_0_compat; lra).
  lra.
Qed.

Lemma abs_lt_of_sq (d c : R) : 0 < c -> d * d < c * c -> - c < d < c.
Proof.
  intros Hc Hsq. split.
  - destruct (Rlt_dec (- c) d) as [|Hn]; [assumption|]. exfalso.
    assert (0 <= (- d - c) * (- d + c)) by (apply Rmult_le_pos; lra).
    lra.
  - destruct (Rlt_dec d c) as [|Hn]; [assumption|]. exfalso.
    assert (0 <= (d - c) * (d + c)) by (apply Rmult_le_pos; lra).
    lra.
Qed.

Lemma IZR_lt_scaled (k k' : Z) (c : R) :
  0 < c -> IZR k * c < IZR k' * c -> (k < k')%Z.
Proof.
  intros Hc Hlt. apply lt_IZR. now apply Rmult_lt_reg_r with c.
Qed.

(** Two points of the unit square cast to the same cell index are less
    than one cell apart in that coordinate. *)
Lemma same_index_close (u v c : R) :
  0 < c -> 0 <= u -> 0 <= v ->
  truncZ (u / c) = truncZ (v / c) -> - c < u - v < c.
Proof.
  intros Hc Hu Hv Heq.
  pose proof (cell_index_bound u c Hc Hu) as Bu.
  pose proof (cell_index_bound v c Hc Hv) as Bv.
  rewrite Heq in Bu. lra.
Qed.

(** Two points in the same cell are nearer than [minDist]. *)
Lemma same_cell_close (md : R) (p q : Point) :
  0 < md ->
  0 <= p_x p -> 0 <= p_y p -> 0 <= p_x q -> 0 <= p_y q ->
  cell_of (cellSize_of md) p = cell_of (cellSize_of md) q ->
  getDistance p q < md.
Proof.
  intros Hmd Hpx Hpy Hqx Hqy Hcell.
  pose proof (cellSize_of_pos md Hmd) as Hc.
  pose proof (cellSize_of_diag md) as Hdiag.
  unfold cell_of, imageToGrid in Hcell. simpl in Hcell.
  injection Hcell as Hx Hy.
  apply same_index_close in Hx; try assumption.
  apply same_index_close in Hy; try assumption.
  apply sq_lt_of_abs in Hx, Hy.
  apply getDistance_lt; [exact Hmd|]. lra.
Qed.

(** Two points nearer than [minDist] are at most two cells apart in each
    coordinate. *)
Lemma close_index (u v c md : R) :
  0 < c -> 0 <= u -> 0 <= v -> md * md = 2 * (c * c) ->
  (u - v) * (u - v) < md * md ->
  (truncZ (v / c) - 2 <= truncZ (u / c) <= truncZ (v / c) + 2)%Z.
Proof.
  intros Hc Hu Hv Hmd Hsq.
  assert (Hd : - (2 * c) < u - v < 2 * c).
  { apply abs_lt_of_sq; [lra|].
    assert (0 < c * c) by (apply Rmult_lt_0_compat; lra). lra. }
  pose proof (cell_index_bound u c Hc Hu) as Bu.
  pose proof (cell_index_bound v c Hc Hv) as Bv.
  split.
  - assert (truncZ (v / c) < truncZ (u / c) + 3)%Z; [|lia].
    apply IZR_lt_scaled with c; [exact Hc|]. rewrite plus_IZR. lra.
  - assert (truncZ (u / c) < truncZ (v / c) + 3)%Z; [|lia].
    apply IZR_lt_scaled with c; [exact Hc|]. rewrite plus_IZR. lra.
Qed.

Lemma close_in_window (md : R) (p q : Point) :
  0 < md ->
  0 <= p_x p -> 0 <= p_y p -> 0 <= p_x q -> 0 <= p_y q ->
  getDistance p q < md ->
  let c := cellSize_of md in
  (g_x (imageToGrid q c) - 5 <= fst (cell_of c p) < g_x (imageToGrid q c) + 5)%Z
  /\ (g_y (imageToGrid q c) - 5 <= snd (cell_of c p)
      < g_y (imageToGrid q c) + 5)%Z.
Proof.
  intros Hmd Hpx Hpy Hqx Hqy Hd c.
  pose proof (cellSize_of_pos md Hmd) as Hc.
  pose proof (cellSize_of_diag md) as Hdiag. fold c in Hc, Hdiag.
  apply getDistance_lt in Hd; [|exact Hmd].
  pose proof (Rle_0_sqr (p_x p - p_x q)) as Sx.
  pose proof (Rle_0_sqr (p_y p - p_y q)) as Sy. unfold Rsqr in Sx, Sy.
  unfold cell_of, imageToGrid. simpl.
  assert (Hx : (truncZ (p_x q / c) - 2 <= truncZ (p_x p / c)
                <= truncZ (p_x q / c) + 2)%Z).
  { apply close_index with md; try assumption; lra. }
  assert (Hy : (truncZ (p_y q / c) - 2 <= truncZ (p_y p / c)
                <= truncZ (p_y q / c) + 2)%Z).
  { apply close_index with md; try assumption; lra. }
  lia.
Qed.

End Geometry.

(** ** The invariant of the sampler *)

Section SamplerFacts.

Import PoissonGenerator Spec.

Context {G : Type} `{PRNG G} {order : ArgOrder}.

Lemma pairwise_apart_snoc (md : R) (l : list Point) (q : Point) :
  pairwise_apart md l ->
  (forall p, In p l -> md <= getDistance p q) ->
  pairwise_apart md (l ++ [q]).
Proof.
  intros Hl Hq i j p p' Hij Hi Hj.
  destruct (Nat.lt_ge_cases i (List.length l)) as [Li|Li];
    destruct (Nat.lt_ge_cases j (List.length l)) as [Lj|Lj].
  - rewrite nth_error_app1 in Hi, Hj by assumption. eauto.
  - rewrite nth_error_app1 in Hi by assumption.
    rewrite nth_error_app2 in Hj by assumption.
    destruct (j - List.length l)%nat as [|k] eqn:Ek; simpl in Hj.
    + injection Hj as <-. apply Hq. eapply nth_error_In; eauto.
    + destruct k; discriminate.
  - rewrite nth_error_app2 in Hi by assumption.
    rewrite nth_error_app1 in Hj by assumption.
    destruct (i - List.length l)%nat as [|k] eqn:Ek; simpl in Hi.
    + injection Hi as <-. rewrite getDistance_sym. apply Hq.
      eapply nth_error_In; eauto.
    + destruct k; discriminate.
  - rewrite nth_error_app2 in Hi, Hj by assumption.
    destruct (i - List.length l)%nat as [|k] eqn:Ei; simpl in Hi;
      [|destruct k; discriminate].
    destruct (j - List.length l)%nat as [|k] eqn:Ej; simpl in Hj;
      [|destruct k; discriminate].
    lia.
Qed.

Lemma erase_incl {A : Type} (l : list A) (n : nat) : incl (erase l n) l.
Proof.
  revert n. induction l as [|h t IH]; intros [|n]; simpl.
  - apply incl_refl.
  - apply incl_refl.
  - apply incl_tl, incl_refl.
  - intros x [->|Hx]; [now left | right; now apply (IH n)].
Qed.

Lemma erase_length {A : Type} (l : list A) (n : nat) :
  (n < List.length l)%nat -> List.length (erase l n) = pred (List.length l).
Proof.
  revert n. induction l as [|h t IH]; intros [|n] Hn; simpl in *;
    try lia.
  rewrite IH by lia. lia.
Qed.

Variable isCircle : bool.
Variable md : R.
Hypothesis md_pos : 0 < md.

(** An accepted candidate is at least [minDist] away from every point
    accepted before it. *)
Lemma accepted_is_apart (st : State (G:=G)) (q : Point) :
  Inv isCircle md st ->
  inShape isCircle q = true ->
  isInNeighbourhood (grid st) q md (cellSize_of md) = Ok false ->
  forall p, In p (samplePoints st) -> md <= getDistance p q.
Proof.
  intros HI Hq Hscan p Hp.
  destruct (Rle_dec md (getDistance p q)) as [|Hn]; [assumption|].
  apply Rnot_le_lt in Hn.
  pose proof (inv_shape _ _ _ HI) as Hsh. rewrite Forall_forall in Hsh.
  pose proof (inv_valid _ _ _ HI) as Hva. rewrite Forall_forall in Hva.
  destruct (inShape_unit _ _ (Hsh p Hp)) as [[Hpx _] [Hpy _]].
  destruct (inShape_unit _ _ Hq) as [[Hqx _] [Hqy _]].
  destruct (close_in_window md p q md_pos Hpx Hpy Hqx Hqy Hn) as [Wi Wj].
  eapply isInNeighbourhood_false; eauto using inv_wf, inv_stored.
Qed.

(** No point accepted before shares its cell with an accepted candidate. *)
Lemma accepted_cell_fresh (st : State (G:=G)) (q : Point) :
  Inv isCircle md st ->
  inShape isCircle q = true ->
  isInNeighbourhood (grid st) q md (cellSize_of md) = Ok false ->
  forall p, In p (samplePoints st) ->
    cell_of (cellSize_of md) p <> cell_of (cellSize_of md) q.
Proof.
  intros HI Hq Hscan p Hp Hcell.
  pose proof (accepted_is_apart st q HI Hq Hscan p Hp) as Hfar.
  pose proof (inv_shape _ _ _ HI) as Hsh. rewrite Forall_forall in Hsh.
  destruct (inShape_unit _ _ (Hsh p Hp)) as [[Hpx _] [Hpy _]].
  destruct (inShape_unit _ _ Hq) as [[Hqx _] [Hqy _]].
  pose proof (same_cell_close md p q md_pos Hpx Hpy Hqx Hqy Hcell). lra.
Qed.

(** The cell an accepted candidate is written to holds no valid point. *)
Lemma accepted_cell_empty (st : State (G:=G)) (q P : Point) :
  Inv isCircle md st ->
  inShape isCircle q = true ->
  isInNeighbourhood (grid st) q md (cellSize_of md) = Ok false ->
  Grid_get (grid st) (fst (cell_of (cellSize_of md) q))
    (snd (cell_of (cellSize_of md) q)) = Ok P ->
  valid_ P = false.
Proof.
  intros HI Hq Hscan Hget.
  destruct (valid_ P) eqn:Hv; [|reflexivity]. exfalso.
  destruct (inv_only _ _ _ HI _ _ _ Hget Hv) as [Hin Hcell].
  apply (accepted_cell_fresh st q HI Hq Hscan P Hin).
  rewrite Hcell. now destruct (cell_of (cellSize_of md) q).
Qed.

(** Storing an accepted candidate keeps the invariant. *)
Lemma Inv_accept (st : State (G:=G)) (q : Point) (gr' : Grid) (g' : G) :
  Inv isCircle md st ->
  inShape isCircle q = true -> valid_ q = true ->
  isInNeighbourhood (grid st) q md (cellSize_of md) = Ok false ->
  Grid_insert (grid st) q = Ok gr' ->
  Inv isCircle md
    (mkState (samplePoints st ++ [q]) (processList st ++ [q]) gr' g').
Proof.
  intros HI Hq Hv Hscan Hins.
  pose proof (accepted_is_apart st q HI Hq Hscan) as Hfar.
  pose proof (accepted_cell_fresh st q HI Hq Hscan) as Hfresh.
  destruct (Grid_insert_spec _ _ _ (inv_wf _ _ _ HI) Hins)
    as (Hwf' & Hcs' & Hnew & Hold).
  rewrite (inv_cs _ _ _ HI) in Hnew, Hold, Hcs'.
  constructor; cbn [samplePoints processList grid generator].
  - exact Hwf'.
  - exact Hcs'.
  - rewrite (Grid_insert_width _ _ _ Hins). apply (inv_width _ _ _ HI).
  - apply Forall_app. split; [apply (inv_shape _ _ _ HI)|].
    constructor; [exact Hq | constructor].
  - apply Forall_app. split; [apply (inv_valid _ _ _ HI)|].
    constructor; [exact Hv | constructor].
  - intros p Hp. apply in_app_or in Hp as [Hp|[<-|[]]]; [|exact Hnew].
    rewrite Hold.
    + now apply (inv_stored _ _ _ HI).
    + rewrite <- surjective_pairing. now apply Hfresh.
  - intros i j P Hget HvP.
    destruct (Z.eq_dec i (fst (cell_of (cellSize_of md) q))) as [Ei|Ei];
      [destruct (Z.eq_dec j (snd (cell_of (cellSize_of md) q)))
         as [Ej|Ej]|].
    + subst i j. rewrite Hnew in Hget. injection Hget as <-.
      split; [apply in_or_app; right; now left|].
      now destruct (cell_of (cellSize_of md) q).
    + rewrite Hold in Hget.
      * destruct (inv_only _ _ _ HI _ _ _ Hget HvP) as [Hin Hc].
        split; [apply in_or_app; now left | exact Hc].
      * intros Heq. apply Ej. rewrite <- Heq. reflexivity.
    + rewrite Hold in Hget.
      * destruct (inv_only _ _ _ HI _ _ _ Hget HvP) as [Hin Hc].
        split; [apply in_or_app; now left | exact Hc].
      * intros Heq. apply Ei. rewrite <- Heq. reflexivity.
  - apply pairwise_apart_snoc; [apply (inv_apart _ _ _ HI) | exact Hfar].
  - apply incl_app.
    + apply incl_appl, (inv_sub _ _ _ HI).
    + apply incl_appr, incl_refl.
  - intros Hnil. now apply app_eq_nil in Hnil as [_ [=]].
Qed.

(** The invariant does not look at the generator, and bears a smaller
    active list. *)
Lemma Inv_shrink (st : State (G:=G)) (pl : list Point) (g' : G) :
  Inv isCircle md st -> incl pl (processList st) ->
  Inv isCircle md (mkState (samplePoints st) pl (grid st) g').
Proof.
  intros HI Hpl. destruct HI. constructor; simpl; auto.
  eapply incl_tran; eauto.
Qed.

(** What one candidate does to the accepted points. *)
Lemma candidate_spec (point : Point) (st st' : State (G:=G)) :
  Inv isCircle md st ->
  candidate isCircle md (cellSize_of md) point st = Ok st' ->
  Inv isCircle md st'
  /\ (samplePoints st' = samplePoints st
      /\ processList st' = processList st
      \/ exists q, samplePoints st' = samplePoints st ++ [q]
           /\ processList st' = processList st ++ [q]).
Proof.
  intros HI Hc. unfold candidate in Hc.
  destruct (generateRandomPointAround point md (generator st))
    as [q g'] eqn:Hgen.
  assert (Hv : valid_ q = true).
  { unfold generateRandomPointAround in Hgen.
    destruct (randomFloat (generator st)) as [R1 g1].
    destruct (randomFloat g1) as [R2 g2]. now injection Hgen as <- _. }
  destruct (inShape isCircle q) eqn:Hq; simpl in Hc.
  - destruct (isInNeighbourhood (grid st) q md (cellSize_of md))
      as [[|]|] eqn:Hscan; simpl in Hc; try discriminate.
    + injection Hc as <-. split; [|left; now split].
      apply Inv_shrink; [exact HI | apply incl_refl].
    + destruct (Grid_insert (grid st) q) as [gr'|] eqn:Hins;
        simpl in Hc; [|discriminate].
      injection Hc as <-. split; [|right; exists q; now split].
      now apply Inv_accept.
  - injection Hc as <-. split; [|left; now split].
    apply Inv_shrink; [exact HI | apply incl_refl].
Qed.

Lemma candidates_spec (n : nat) (point : Point) (st st' : State (G:=G)) :
  Inv isCircle md st ->
  candidates n isCircle md (cellSize_of md) point st = Ok st' ->
  Inv isCircle md st'
  /\ exists added, samplePoints st' = samplePoints st ++ added
       /\ processList st' = processList st ++ added
       /\ (List.length added <= n)%nat.
Proof.
  revert st. induction n as [|n IH]; intros st HI Hc; simpl in Hc.
  - injection Hc as <-. split; [exact HI|]. exists [].
    rewrite !app_nil_r. auto.
  - unfold bind in Hc.
    destruct (candidate isCircle md (cellSize_of md) point st)
      as [st1|] eqn:H1; [|discriminate].
    destruct (candidate_spec _ _ _ HI H1) as [HI1 Hshape].
    destruct (IH _ HI1 Hc) as [HI' (added & Hs & Hp & Hlen)].
    split; [exact HI'|].
    destruct Hshape as [[Es Ep]|(q & Es & Ep)].
    + exists added. rewrite Hs, Hp, Es, Ep. repeat split; auto.
    + exists (q :: added). rewrite Hs, Hp, Es, Ep, <- !app_assoc.
      repeat split; simpl; auto. lia.
Qed.

Lemma popRandom_spec (points rest : list Point) (g g' : G) (p : Point) :
  popRandom points g = Ok (p, rest, g') ->
  incl rest points /\ In p points
  /\ List.length rest = pred (List.length points).
Proof.
  unfold popRandom.
  destruct (randomInt g (Z.of_nat (List.length points) - 1)) as [idx g1].
  unfold bind. destruct (vec_get points idx) as [p0|] eqn:Hg; [|discriminate].
  intros [= <- <- <-].
  pose proof (vec_get_bound _ _ _ Hg) as Hb.
  apply vec_get_Ok in Hg as [_ Hn].
  repeat split.
  - apply erase_incl.
  - eapply nth_error_In; eauto.
  - apply erase_length. lia.
Qed.

Lemma main_loop_Inv (fuel numPoints : nat) (k : Z) (st st' : State (G:=G)) :
  Inv isCircle md st ->
  main_loop fuel numPoints k isCircle md (cellSize_of md) st = Ok st' ->
  Inv isCircle md st'.
Proof.
  revert st. induction fuel as [|fuel IH]; intros st HI Hm; simpl in Hm.
  - destruct (loop_cond numPoints st); [discriminate|].
    now injection Hm as <-.
  - destruct (loop_cond numPoints st); [|now injection Hm as <-].
    unfold bind in Hm.
    destruct (popRandom (processList st) (generator st))
      as [[[point rest] g']|] eqn:Hpop; [|discriminate].
    destruct (popRandom_spec _ _ _ _ _ Hpop) as (Hincl & _ & _).
    destruct (candidates (Z.to_nat k) isCircle md (cellSize_of md) point
                (mkState (samplePoints st) rest (grid st) g'))
      as [st1|] eqn:Hc; [|discriminate].
    apply (IH st1); [|exact Hm].
    eapply candidates_spec; [|exact Hc].
    now apply Inv_shrink.
Qed.

End SamplerFacts.

(** ** The head of the loop and the whole run *)

Section SamplerRuns.

Import PoissonGenerator Spec.

Context {G : Type} `{PRNG G} {order : ArgOrder}.

(** The point built from two draws, whatever the order of evaluation. *)
Lemma draw_point_eq (g : G) :
  exists d1 g1 d2 g2,
    randomFloat g = (d1, g1) /\ randomFloat g1 = (d2, g2)
    /\ draw_point g
       = (if right_to_left then Point_xy d2 d1 else Point_xy d1 d2, g2).
Proof.
  unfold draw_point.
  destruct (randomFloat g) as [d1 g1] eqn:H1.
  destruct (randomFloat g1) as [d2 g2] eqn:H2.
  now exists d1, g1, d2, g2.
Qed.

Lemma draw_point_valid (g : G) : valid_ (fst (draw_point g)) = true.
Proof.
  destruct (draw_point_eq g) as (d1 & g1 & d2 & g2 & _ & _ & ->).
  simpl. now destruct right_to_left.
Qed.


Lemma firstPoint_loop_spec (fuel : nat) (isCircle : bool) (g g' : G)
  (p : Point) :
  firstPoint_loop fuel isCircle g = Ok (p, g') ->
  inShape isCircle p = true /\ valid_ p = true.
Proof.
  revert g. induction fuel as [|fuel IH]; intros g Hf; simpl in Hf;
    [discriminate|].
  pose proof (draw_point_valid g) as Hv.
  destruct (draw_point g) as [q g2].
  destruct (inShape isCircle q) eqn:Hs.
  - injection Hf as <- <-. now split.
  - now apply (IH g2).
Qed.



(** The width of the grid, and the cells of the points with coordinates
    below 1. *)
Lemma gridW_spec (md : R) :
  0 < md ->
  let w := truncZ (IZR (Zceil (1 / cellSize_of md))) in
  (1 <= w)%Z
  /\ forall v, 0 <= v < 1 -> (0 <= truncZ (v / cellSize_of md) < w)%Z.
Proof.
  intros Hmd w. pose proof (cellSize_of_pos md Hmd) as Hc.
  unfold w. rewrite truncZ_IZR.
  pose proof (Zceil_bound (1 / cellSize_of md)) as [_ Hhi].
  assert (Hinv : 0 < 1 / cellSize_of md).
  { unfold Rdiv. rewrite Rmult_1_l. now apply Rinv_0_lt_compat. }
  split.
  - assert (0 < Zceil (1 / cellSize_of md))%Z; [|lia].
    apply lt_IZR. lra.
  - intros v [Hv0 Hv1].
    pose proof (cell_index_bound v _ Hc Hv0) as [Hlo _].
    split.
    + rewrite truncZ_nonneg.
      * apply Zfloor_lub. unfold Rdiv. apply Rmult_le_pos; [exact Hv0|].
        left. now apply Rinv_0_lt_compat.
      * unfold Rdiv. apply Rmult_le_pos; [exact Hv0|].
        left. now apply Rinv_0_lt_compat.
    + apply IZR_lt_scaled with (cellSize_of md); [exact Hc|].
      assert (1 <= IZR (Zceil (1 / cellSize_of md)) * cellSize_of md).
      { replace 1 with (1 / cellSize_of md * cellSize_of md) at 1
          by (field; lra).
        apply Rmult_le_compat_r; lra. }
      lra.
Qed.

Lemma Grid_insert_total (gr : Grid) (p : Point) :
  grid_wf gr ->
  (0 <= fst (cell_of (cellSize_ gr) p) < w_ gr)%Z ->
  (0 <= snd (cell_of (cellSize_ gr) p) < w_ gr)%Z ->
  exists gr', Grid_insert gr p = Ok gr'.
Proof.
  intros (Hw & Hh & Hlen & Hrows) Hi Hj.
  unfold cell_of in Hi, Hj. cbn [fst snd] in Hi, Hj.
  unfold Grid_insert.
  remember (g_x (imageToGrid p (cellSize_ gr))) as gi eqn:Egi.
  remember (g_y (imageToGrid p (cellSize_ gr))) as gj eqn:Egj.
  clear Egi Egj.
  destruct (nth_error (grid_ gr) (Z.to_nat gi)) as [row|] eqn:Hrow.
  - assert (Hl : List.length row = Z.to_nat (w_ gr)).
    { apply nth_error_In in Hrow. rewrite Forall_forall in Hrows.
      now apply Hrows. }
    assert (Hg : vec_get (grid_ gr) gi = Ok row)
      by (apply vec_get_Ok; split; [lia | exact Hrow]).
    rewrite Hg. cbn [bind].
    assert (Hs : vec_set row gj p = Ok (list_update row (Z.to_nat gj) p))
      by (apply vec_set_Ok; split; [lia | reflexivity]).
    rewrite Hs. cbn [bind].
    assert (Hs' : vec_set (grid_ gr) gi (list_update row (Z.to_nat gj) p)
                  = Ok (list_update (grid_ gr) (Z.to_nat gi)
                          (list_update row (Z.to_nat gj) p)))
      by (apply vec_set_Ok; split; [lia | reflexivity]).
    rewrite Hs'. cbn [bind]. eexists. reflexivity.
  - apply nth_error_None in Hrow. lia.
Qed.

(** The size of the grid is the value of the cast, when the cast is
    defined. *)
Lemma grid_size_cases (c : R) :
  grid_size c = Err UndefinedCast
  \/ grid_size c = Ok (truncZ (IZR (Zceil (1 / c)))).
Proof.
  unfold grid_size, int_of_float.
  destruct (fle c 0 && fle 0 c); [now left|].
  destruct ((INT_MIN <=? _) && (_ <=? INT_MAX))%Z; [now right | now left].
Qed.

Lemma grid_size_Ok (c : R) (w : Z) :
  grid_size c = Ok w ->
  w = truncZ (IZR (Zceil (1 / c))) /\ c <> 0 /\ (INT_MIN <= w <= INT_MAX)%Z.
Proof.
  unfold grid_size, int_of_float.
  destruct (fle c 0 && fle 0 c) eqn:Hz; [discriminate|].
  destruct ((INT_MIN <=? _) && (_ <=? INT_MAX))%Z eqn:Hb; [|discriminate].
  intros Hw. injection Hw as <-. split; [reflexivity|]. split.
  - intros ->. apply andb_false_iff in Hz.
    destruct Hz as [Hz|Hz]; apply fle_false in Hz; lra.
  - apply andb_true_iff in Hb. destruct Hb as [Hlo Hhi].
    apply Z.leb_le in Hlo, Hhi. lia.
Qed.

Lemma grid_size_fits (md : R) :
  0 < md -> grid_fits md ->
  grid_size (cellSize_of md)
  = Ok (truncZ (IZR (Zceil (1 / cellSize_of md)))).
Proof.
  intros Hmd Hfit. pose proof (cellSize_of_pos md Hmd) as Hc.
  unfold grid_size, int_of_float.
  replace (fle (cellSize_of md) 0) with false
    by (symmetry; apply fle_false; exact Hc).
  cbn [andb]. rewrite truncZ_IZR.
  assert (H0 : (0 < Zceil (1 / cellSize_of md))%Z).
  { apply lt_IZR. pose proof (Zceil_bound (1 / cellSize_of md)) as [_ Hhi].
    assert (0 < 1 / cellSize_of md)
      by (unfold Rdiv; rewrite Rmult_1_l; now apply Rinv_0_lt_compat).
    lra. }
  unfold grid_fits in Hfit.
  replace (INT_MIN <=? _)%Z with true
    by (symmetry; apply Z.leb_le; unfold INT_MIN; lia).
  replace (_ <=? INT_MAX)%Z with true by (symmetry; now apply Z.leb_le).
  reflexivity.
Qed.

(** [gridW] and [gridH] are the same value. *)
Lemma seed_state_eq (fuel : nat) (g : G) (isCircle : bool) (md : R) :
  seed_state fuel g isCircle md
  = (w <- grid_size (cellSize_of md) ;;
     grid0 <- Grid_new w w (cellSize_of md) ;;
     '(firstPoint, g1) <- firstPoint_loop fuel isCircle g ;;
     grid1 <- Grid_insert grid0 firstPoint ;;
     Ok (mkState [firstPoint] [firstPoint] grid1 g1)).
Proof.
  unfold seed_state.
  destruct (grid_size (cellSize_of md)) as [w|e]; reflexivity.
Qed.

(** The state at the head of the loop satisfies the invariant. *)
Lemma seed_state_spec (fuel : nat) (g : G) (isCircle : bool) (md : R)
  (st : State (G:=G)) :
  0 < md ->
  seed_state fuel g isCircle md = Ok st ->
  Inv isCircle md st
  /\ exists p, samplePoints st = [p] /\ processList st = [p]
       /\ firstPoint_loop fuel isCircle g = Ok (p, generator st).
Proof.
  intros Hmd Hs. rewrite seed_state_eq in Hs.
  destruct (grid_size (cellSize_of md)) as [w0|] eqn:Hgs; cbn [bind] in Hs;
    [|discriminate].
  apply grid_size_Ok in Hgs. destruct Hgs as (-> & _ & _).
  destruct (gridW_spec md Hmd) as [Hw _].
  set (w := truncZ (IZR (Zceil (1 / cellSize_of md)))) in *.
  destruct (Grid_new_Ok w (cellSize_of md) ltac:(lia))
    as (gr0 & Hnew & Hwf0 & Hcs0 & Hw0 & Hempty).
  rewrite Hnew in Hs. cbn [bind] in Hs.
  destruct (firstPoint_loop fuel isCircle g) as [[p g1]|] eqn:Hfp;
    cbn [bind] in Hs; [|discriminate].
  destruct (Grid_insert gr0 p) as [gr1|] eqn:Hins; cbn [bind] in Hs;
    [|discriminate].
  injection Hs as <-.
  destruct (firstPoint_loop_spec _ _ _ _ _ Hfp) as [Hshape Hvalid].
  destruct (Grid_insert_spec _ _ _ Hwf0 Hins) as (Hwf1 & Hcs1 & Hst & Hold).
  rewrite Hcs0 in Hcs1, Hst, Hold.
  split; [|exists p; cbn; auto].
  constructor; cbn [samplePoints processList grid generator].
  - exact Hwf1.
  - exact Hcs1.
  - rewrite (Grid_insert_width _ _ _ Hins). exact Hw0.
  - now repeat constructor.
  - now repeat constructor.
  - intros p' [<-|[]]. exact Hst.
  - intros i j P Hget Hv.
    destruct (Z.eq_dec i (fst (cell_of (cellSize_of md) p))) as [Ei|Ei];
      [destruct (Z.eq_dec j (snd (cell_of (cellSize_of md) p)))
         as [Ej|Ej]|].
    + subst i j. rewrite Hst in Hget. injection Hget as <-.
      split; [now left | apply surjective_pairing].
    + rewrite Hold in Hget.
      * apply Hempty in Hget. congruence.
      * intros Heq. apply Ej. now rewrite <- Heq.
    + rewrite Hold in Hget.
      * apply Hempty in Hget. congruence.
      * intros Heq. apply Ei. now rewrite <- Heq.
  - intros i j p1 p2 Hij Hi Hj.
    destruct i as [|i]; destruct j as [|j]; simpl in Hi, Hj;
      try lia; try (destruct i; discriminate); destruct j; discriminate.
  - apply incl_refl.
  - discriminate.
Qed.

(** The head of the loop is reached as soon as the first point is found
    and has coordinates below 1. *)
Lemma seed_state_Ok (fuel : nat) (g g' : G) (isCircle : bool) (md : R)
  (p : Point) :
  0 < md -> grid_fits md ->
  firstPoint_loop fuel isCircle g = Ok (p, g') ->
  p_x p < 1 -> p_y p < 1 ->
  exists gr, seed_state fuel g isCircle md = Ok (mkState [p] [p] gr g').
Proof.
  intros Hmd Hfit Hfp Hx Hy. rewrite seed_state_eq.
  rewrite (grid_size_fits md Hmd Hfit). cbn [bind].
  destruct (gridW_spec md Hmd) as [Hw Hcells].
  set (w := truncZ (IZR (Zceil (1 / cellSize_of md)))) in *.
  destruct (Grid_new_Ok w (cellSize_of md) ltac:(lia))
    as (gr0 & Hnew & Hwf0 & Hcs0 & Hw0 & Hempty).
  rewrite Hnew. cbn [bind]. rewrite Hfp. cbn [bind].
  destruct (firstPoint_loop_spec _ _ _ _ _ Hfp) as [Hshape Hvalid].
  destruct (inShape_unit _ _ Hshape) as [[Hx0 _] [Hy0 _]].
  destruct (Grid_insert_total gr0 p Hwf0) as [gr1 Hins].
  - rewrite Hcs0, Hw0. apply Hcells. lra.
  - rewrite Hcs0, Hw0. apply Hcells. lra.
  - rewrite Hins. cbn [bind]. now exists gr1.
Qed.

(** With at most one point asked for, the loop is not entered. *)
Lemma main_loop_skipped (fuel numPoints : nat) (k : Z) (isCircle : bool)
  (md c : R) (st : State (G:=G)) :
  (numPoints <= List.length (samplePoints st))%nat ->
  main_loop fuel numPoints k isCircle md c st = Ok st.
Proof.
  intros Hn.
  assert (Hc : loop_cond numPoints st = false).
  { unfold loop_cond. apply andb_false_intro2. apply Nat.ltb_ge. exact Hn. }
  destruct fuel; simpl; now rewrite Hc.
Qed.

(** Every run that returns ends in a state that satisfies the invariant. *)
Lemma generatePoissonPoints_state_Inv (fuel numPoints : nat) (g : G) (k : Z)
  (isCircle : bool) (minDist : R) (st : State (G:=G)) :
  0 < effective_minDist numPoints minDist ->
  generatePoissonPoints_state fuel numPoints g k isCircle minDist = Ok st ->
  Inv isCircle (effective_minDist numPoints minDist) st.
Proof.
  intros Hmd Hrun. unfold generatePoissonPoints_state in Hrun.
  destruct (seed_state fuel g isCircle (effective_minDist numPoints minDist))
    as [st0|] eqn:Hseed; cbn [bind] in Hrun; [|discriminate].
  destruct (seed_state_spec _ _ _ _ _ Hmd Hseed) as [HI0 _].
  eapply main_loop_Inv; eauto.
Qed.

Lemma effective_minDist_pos (numPoints : nat) (minDist : R) :
  0 < minDist -> effective_minDist numPoints minDist = minDist.
Proof.
  intros Hmd. unfold effective_minDist.
  replace (flt minDist 0) with false; [reflexivity|].
  symmetry. apply flt_false. lra.
Qed.

Lemma generatePoissonPoints_Ok (fuel numPoints : nat) (g g' : G) (k : Z)
  (isCircle : bool) (minDist : R) (pts : list Point) :
  generatePoissonPoints fuel numPoints g k isCircle minDist = Ok (pts, g') ->
  exists st,
    generatePoissonPoints_state fuel numPoints g k isCircle minDist = Ok st
    /\ samplePoints st = pts /\ generator st = g'.
Proof.
  unfold generatePoissonPoints.
  destruct (generatePoissonPoints_state fuel numPoints g k isCircle minDist)
    as [st|]; cbn [bind]; [|discriminate].
  intros [= <- <-]. now exists st.
Qed.

End SamplerRuns.

(** ** When a candidate is accepted *)

Section Acceptance.

Import PoissonGenerator Spec.

Context {G : Type} `{PRNG G} {order : ArgOrder}.

Lemma scan_cell_true (gr : Grid) (pt : Point) (md : R) (i j : Z) :
  scan_cell gr pt md i j = Ok true ->
  exists P, Grid_get gr i j = Ok P /\ valid_ P = true
            /\ getDistance P pt < md.
Proof.
  unfold scan_cell.
  destruct ((0 <=? i) && (i <? w_ gr) && (0 <=? j) && (j <? h_ gr))%Z;
    [|discriminate].
  destruct (Grid_get gr i j) as [P|]; cbn [bind]; [|discriminate].
  intros [= Hb]. apply andb_prop in Hb as [Hv Hd].
  exists P. repeat split; auto. now apply flt_true.
Qed.

Lemma scan_j_true (gr : Grid) (pt : Point) (md : R) (i j : Z) (n : nat) :
  scan_j gr pt md i j n = Ok true ->
  exists j', scan_cell gr pt md i j' = Ok true.
Proof.
  revert j. induction n as [|n IH]; intros j Hs; simpl in Hs;
    [discriminate|].
  destruct (scan_cell gr pt md i j) as [[|]|] eqn:Hc; cbn [bind] in Hs;
    try discriminate.
  - now exists j.
  - now apply (IH (j + 1)%Z).
Qed.

Lemma scan_i_true (gr : Grid) (pt : Point) (md : R) (i j0 : Z) (n m : nat) :
  scan_i gr pt md i j0 n m = Ok true ->
  exists i' j', scan_cell gr pt md i' j' = Ok true.
Proof.
  revert i. induction n as [|n IH]; intros i Hs; simpl in Hs;
    [discriminate|].
  destruct (scan_j gr pt md i j0 m) as [[|]|] eqn:Hc; cbn [bind] in Hs;
    try discriminate.
  - exists i. now apply scan_j_true in Hc.
  - now apply (IH (i + 1)%Z).
Qed.

(** A positive answer of the scan comes from a valid point of the grid
    nearer than [minDist]. *)
Lemma isInNeighbourhood_true (gr : Grid) (pt : Point) (md c : R) :
  isInNeighbourhood gr pt md c = Ok true ->
  exists i j P, Grid_get gr i j = Ok P /\ valid_ P = true
                /\ getDistance P pt < md.
Proof.
  unfold isInNeighbourhood. intros Hs.
  apply scan_i_true in Hs as (i & j & Hc).
  apply scan_cell_true in Hc as (P & HP). now exists i, j, P.
Qed.

(** A candidate of the shape, with coordinates below 1 and far enough from
    every accepted point, is accepted. *)
Lemma candidate_accept (isCircle : bool) (md : R) (point q : Point)
  (st : State (G:=G)) (g' : G) :
  0 < md ->
  Inv isCircle md st ->
  generateRandomPointAround point md (generator st) = (q, g') ->
  inShape isCircle q = true ->
  p_x q < 1 -> p_y q < 1 ->
  (forall p, In p (samplePoints st) -> md <= getDistance p q) ->
  exists gr',
    candidate isCircle md (cellSize_of md) point st
    = Ok (mkState (samplePoints st ++ [q]) (processList st ++ [q]) gr' g').
Proof.
  intros Hmd HI Hgen Hq Hx Hy Hfar. unfold candidate. rewrite Hgen, Hq.
  destruct (isInNeighbourhood_total (grid st) q md (cellSize_of md)
              (inv_wf _ _ _ HI)) as [near Hnear].
  rewrite Hnear. cbn [bind].
  destruct near.
  - exfalso. apply isInNeighbourhood_true in Hnear as (i & j & P & Hg & Hv & Hd).
    destruct (inv_only _ _ _ HI _ _ _ Hg Hv) as [Hin _].
    specialize (Hfar P Hin). lra.
  - cbn [andb negb].
    destruct (inShape_unit _ _ Hq) as [[Hx0 _] [Hy0 _]].
    destruct (gridW_spec md Hmd) as [_ Hcells].
    destruct (Grid_insert_total (grid st) q (inv_wf _ _ _ HI)) as [gr' Hins].
    + rewrite (inv_cs _ _ _ HI), (inv_width _ _ _ HI). apply Hcells. lra.
    + rewrite (inv_cs _ _ _ HI), (inv_width _ _ _ HI). apply Hcells. lra.
    + rewrite Hins. cbn [bind]. now exists gr'.
Qed.

End Acceptance.

(** ** Runs with at most one point asked for *)

Section FewPoints.

Import PoissonGenerator Spec.

Context {G : Type} `{PRNG G} {order : ArgOrder}.

Lemma few_points_run (fuel numPoints : nat) (g g' : G)
  (k : Z) (isCircle : bool) (minDist : R) (p : Point) :
  (numPoints <= 1)%nat ->
  0 < effective_minDist numPoints minDist ->
  grid_fits (effective_minDist numPoints minDist) ->
  firstPoint_loop fuel isCircle g = Ok (p, g') ->
  p_x p < 1 -> p_y p < 1 ->
  exists gr,
    seed_state fuel g isCircle (effective_minDist numPoints minDist)
    = Ok (mkState [p] [p] gr g')
    /\ generatePoissonPoints_state fuel numPoints g k isCircle minDist
       = Ok (mkState [p] [p] gr g').
Proof.
  intros Hn Hmd Hfit Hfp Hx Hy.
  destruct (seed_state_Ok fuel g g' isCircle _ p Hmd Hfit Hfp Hx Hy)
    as [gr Hseed].
  exists gr. split; [exact Hseed|].
  unfold generatePoissonPoints_state. rewrite Hseed. cbn [bind].
  apply main_loop_skipped. simpl. exact Hn.
Qed.

End FewPoints.

(** ** First points that do not depend on the order of evaluation *)

Section SymmetricDraws.

Import PoissonGenerator Spec Runs.

Context {order : ArgOrder}.

#[export] Instance half_prng_range : PRNG_range unit.
Proof.
  constructor.
  - intros g. simpl. lra.
  - intros g m Hm. simpl. lia.
Qed.

#[export] Instance turn_prng_range : PRNG_range bool.
Proof.
  constructor.
  - intros [|]; simpl; lra.
  - intros g m Hm. simpl. lia.
Qed.

#[export] Instance last_prng_range : PRNG_range nat.
Proof.
  constructor.
  - intros g. simpl. lra.
  - intros g m Hm. simpl. lia.
Qed.

Lemma centre_in_shape (isCircle : bool) :
  inShape isCircle (Point_xy (1 / 2) (1 / 2)) = true.
Proof.
  destruct isCircle; simpl.
  - unfold isInCircle. simpl. apply fle_true. lra.
  - unfold isInRectangle. simpl.
    repeat (apply andb_true_intro; split); apply fle_true; lra.
Qed.

(** Two equal draws give the same point in both orders. *)
Lemma draw_point_same (d : R) (script : list R) :
  draw_point (G:=list R) (d :: d :: script) = (Point_xy d d, script).
Proof. unfold draw_point. simpl. now destruct right_to_left. Qed.

Lemma firstPoint_same (fuel : nat) (isCircle : bool) (d : R)
  (script : list R) :
  inShape isCircle (Point_xy d d) = true ->
  firstPoint_loop (G:=list R) (S fuel) isCircle (d :: d :: script)
  = Ok (Point_xy d d, script).
Proof.
  intros Hs. cbn [firstPoint_loop]. rewrite draw_point_same. now rewrite Hs.
Qed.

Lemma half_first_point (fuel : nat) (isCircle : bool) :
  firstPoint_loop (G:=unit) (S fuel) isCircle tt
  = Ok (Point_xy (1 / 2) (1 / 2), tt).
Proof.
  cbn [firstPoint_loop].
  replace (draw_point (G:=unit) tt) with (Point_xy (1 / 2) (1 / 2), tt)
    by (unfold draw_point; simpl; now destruct right_to_left).
  now rewrite centre_in_shape.
Qed.

(** With the generator that always draws 1/2, asking for no point or for
    one point gives the centre of the domain. *)
Lemma half_run (fuel numPoints : nat) (k : Z) (isCircle : bool)
  (minDist : R) :
  (numPoints <= 1)%nat ->
  0 < effective_minDist numPoints minDist ->
  grid_fits (effective_minDist numPoints minDist) ->
  generatePoissonPoints (G:=unit) (S fuel) numPoints tt k isCircle minDist
  = Ok ([Point_xy (1 / 2) (1 / 2)], tt).
Proof.
  intros Hn Hmd Hfit.
  destruct (few_points_run (S fuel) numPoints tt tt k isCircle minDist _ Hn
              Hmd Hfit (half_first_point fuel isCircle)) as (gr & _ & Hrun);
    [simpl; lra | simpl; lra |].
  unfold generatePoissonPoints. now rewrite Hrun.
Qed.

Lemma effective_minDist_one : effective_minDist 1 (-1) = 1.
Proof.
  unfold effective_minDist.
  replace (flt (-1) 0) with true by (symmetry; apply flt_true; lra).
  simpl INR. rewrite sqrt_1. field.
Qed.

(** The point drawn around [p] when the second draw, the angle, is 0. *)
Lemma around_angle_zero (p : Point) (md R1 : R) (script : list R) :
  generateRandomPointAround (G:=list R) p md (R1 :: 0 :: script)
  = (Point_xy (p_x p + md * (R1 + 1)) (p_y p), script).
Proof.
  unfold generateRandomPointAround. simpl.
  rewrite Rmult_0_r, cos_0, sin_0. f_equal. f_equal; ring.
Qed.

(** The point drawn around [p] when both draws are 0. *)
Lemma around_zero_angle (p : Point) (md : R) (script : list R) :
  generateRandomPointAround (G:=list R) p md (0 :: 0 :: script)
  = (Point_xy (p_x p + md) (p_y p), script).
Proof. rewrite around_angle_zero. f_equal. f_equal. ring. Qed.

End SymmetricDraws.

(** ** Two runs of the sampler *)

Section ConcreteRuns.

Import PoissonGenerator Spec Runs.

(** A run that accepts one candidate: two points, exactly [minDist]
    apart. *)
Lemma two_point_run :
  exists gr,
    generatePoissonPoints_state (G:=list R) 1 2 two_point_script 1 true
      (1 / 2)
    = Ok (mkState [Point_xy (1 / 4) (1 / 2); Point_xy (3 / 4) (1 / 2)]
            [Point_xy (3 / 4) (1 / 2)] gr []).
Proof.
  assert (Hmd : 0 < 1 / 2) by lra.
  assert (Heff : effective_minDist 2 (1 / 2) = 1 / 2)
    by (apply effective_minDist_pos; lra).
  set (p := Point_xy (1 / 4) (1 / 2)).
  set (q := Point_xy (3 / 4) (1 / 2)).
  assert (Hp : inShape true p = true).
  { simpl. unfold isInCircle. simpl. apply fle_true. lra. }
  assert (Hq : inShape true q = true).
  { simpl. unfold isInCircle. simpl. apply fle_true. lra. }
  assert (Hfp : firstPoint_loop (G:=list R) 1 true two_point_script
                = Ok (p, [0; 0])).
  { simpl. fold p. simpl in Hp. now rewrite Hp. }
  destruct (seed_state_Ok 1 two_point_script [0; 0] true (1 / 2) p Hmd
              ltac:(apply grid_fits_ge; lra) Hfp)
    as [gr0 Hseed]; [simpl; lra | simpl; lra |].
  destruct (seed_state_spec _ _ _ _ _ Hmd Hseed) as [HI0 _].
  pose (st1 := mkState (G:=list R) [p] [] gr0 [0; 0]).
  assert (HI1 : Inv true (1 / 2) st1).
  { apply (Inv_shrink true (1 / 2) _ [] [0; 0] HI0). intros x []. }
  assert (Hgen : generateRandomPointAround p (1 / 2) (generator st1) = (q, [])).
  { simpl. rewrite around_zero_angle. unfold q. simpl. f_equal. f_equal; lra. }
  destruct (candidate_accept true (1 / 2) p q st1 [] Hmd HI1 Hgen Hq)
    as [gr1 Hcand]; [simpl; lra | simpl; lra | |].
  { intros p' [<-|[]].
    apply Rnot_lt_le. intros Hlt.
    apply getDistance_lt in Hlt; [|exact Hmd]. simpl in Hlt. lra. }
  exists gr1. unfold generatePoissonPoints_state.
  rewrite Heff, Hseed. cbn [bind]. simpl main_loop.
  cbn [loop_cond samplePoints processList List.length negb andb Nat.ltb
       Nat.leb].
  unfold popRandom. simpl.
  fold st1. rewrite Hcand. simpl. reflexivity.
Qed.

Lemma two_point_points :
  generatePoissonPoints (G:=list R) 1 2 two_point_script 1 true (1 / 2)
  = Ok ([Point_xy (1 / 4) (1 / 2); Point_xy (3 / 4) (1 / 2)], []).
Proof.
  destruct two_point_run as [gr Hrun].
  unfold generatePoissonPoints. now rewrite Hrun.
Qed.

End ConcreteRuns.

(** ** How the accepted points grow *)

Section Growth.

Import PoissonGenerator Spec.

Context {G : Type} `{PRNG G} {order : ArgOrder}.

Variable isCircle : bool.
Variables md c : R.

(** A candidate leaves the accepted points alone or appends itself, after
    the shape test, a negative scan and a write into the grid. *)
Lemma candidate_cases (point : Point) (st st' : State (G:=G)) :
  candidate isCircle md c point st = Ok st' ->
  (samplePoints st' = samplePoints st /\ processList st' = processList st
   /\ grid st' = grid st)
  \/ exists q, samplePoints st' = samplePoints st ++ [q]
       /\ processList st' = processList st ++ [q]
       /\ inShape isCircle q = true /\ valid_ q = true
       /\ isInNeighbourhood (grid st) q md c = Ok false
       /\ Grid_insert (grid st) q = Ok (grid st').
Proof.
  unfold candidate.
  destruct (generateRandomPointAround point md (generator st))
    as [q g'] eqn:Hgen.
  assert (Hv : valid_ q = true).
  { unfold generateRandomPointAround in Hgen.
    destruct (randomFloat (generator st)) as [R1 g1].
    destruct (randomFloat g1) as [R2 g2]. now injection Hgen as <- _. }
  destruct (inShape isCircle q) eqn:Hq; cbn [bind andb].
  - destruct (isInNeighbourhood (grid st) q md c) as [[|]|] eqn:Hscan;
      cbn [bind negb]; try discriminate.
    + intros [= <-]. left. now repeat split.
    + destruct (Grid_insert (grid st) q) as [gr'|] eqn:Hins; cbn [bind];
        [|discriminate].
      intros [= <-]. right. exists q. now repeat split.
  - intros [= <-]. left. now repeat split.
Qed.

Lemma candidates_grows (n : nat) (point : Point) (st st' : State (G:=G)) :
  candidates n isCircle md c point st = Ok st' ->
  exists added, samplePoints st' = samplePoints st ++ added
    /\ processList st' = processList st ++ added
    /\ (List.length added <= n)%nat
    /\ Forall (fun q => inShape isCircle q = true) added.
Proof.
  revert st. induction n as [|n IH]; intros st Hc; simpl in Hc.
  - injection Hc as <-. exists []. rewrite !app_nil_r. auto.
  - destruct (candidate isCircle md c point st) as [st1|] eqn:H1;
      cbn [bind] in Hc; [|discriminate].
    destruct (IH _ Hc) as (added & Hs & Hp & Hlen & Hsh).
    destruct (candidate_cases _ _ _ H1)
      as [(Es & Ep & _)|(q & Es & Ep & Hq & _)].
    + exists added. rewrite Hs, Hp, Es, Ep. repeat split; auto.
    + exists (q :: added). rewrite Hs, Hp, Es, Ep, <- !app_assoc.
      repeat split; simpl; auto. lia.
Qed.

Lemma main_loop_grows (fuel numPoints : nat) (k : Z) (st st' : State (G:=G)) :
  main_loop fuel numPoints k isCircle md c st = Ok st' ->
  exists added, samplePoints st' = samplePoints st ++ added
    /\ Forall (fun q => inShape isCircle q = true) added.
Proof.
  revert st. induction fuel as [|fuel IH]; intros st Hm; simpl in Hm.
  - destruct (loop_cond numPoints st); [discriminate|].
    injection Hm as <-. exists []. now rewrite app_nil_r.
  - destruct (loop_cond numPoints st);
      [|injection Hm as <-; exists []; now rewrite app_nil_r].
    destruct (popRandom (processList st) (generator st))
      as [[[point rest] g']|]; cbn [bind] in Hm; [|discriminate].
    destruct (candidates (Z.to_nat k) isCircle md c point
                (mkState (samplePoints st) rest (grid st) g'))
      as [st1|] eqn:Hc; cbn [bind] in Hm; [|discriminate].
    destruct (candidates_grows _ _ _ _ Hc) as (a1 & Hs1 & _ & _ & Hsh1).
    destruct (IH _ Hm) as (a2 & Hs2 & Hsh2).
    exists (a1 ++ a2). rewrite Hs2, Hs1. cbn [samplePoints].
    rewrite app_assoc. split; [reflexivity|]. apply Forall_app. now split.
Qed.

(** The test of the [while] loop is made between two active points only:
    one turn may add up to [newPointsCount] points. *)
Lemma main_loop_bound (fuel numPoints : nat) (k : Z) (st st' : State (G:=G)) :
  main_loop fuel numPoints k isCircle md c st = Ok st' ->
  (List.length (samplePoints st')
   <= Nat.max (List.length (samplePoints st))
        (numPoints - 1 + Z.to_nat k))%nat.
Proof.
  revert st. induction fuel as [|fuel IH]; intros st Hm; simpl in Hm.
  - destruct (loop_cond numPoints st); [discriminate|].
    injection Hm as <-. lia.
  - destruct (loop_cond numPoints st) eqn:Hcond;
      [|injection Hm as <-; lia].
    destruct (popRandom (processList st) (generator st))
      as [[[point rest] g']|]; cbn [bind] in Hm; [|discriminate].
    destruct (candidates (Z.to_nat k) isCircle md c point
                (mkState (samplePoints st) rest (grid st) g'))
      as [st1|] eqn:Hc; cbn [bind] in Hm; [|discriminate].
    destruct (candidates_grows _ _ _ _ Hc) as (a1 & Hs1 & _ & Hlen & _).
    specialize (IH _ Hm). rewrite Hs1 in IH. cbn [samplePoints] in IH.
    rewrite length_app in IH.
    unfold loop_cond in Hcond. apply andb_prop in Hcond as [_ Hlt].
    apply Nat.ltb_lt in Hlt. lia.
Qed.

(** The states of a run are among the [Reached] ones. *)
Lemma candidates_Reached (n : nat) (point : Point)
  (st0 st st' : State (G:=G)) :
  c = cellSize_of md ->
  Reached isCircle md st0 st ->
  candidates n isCircle md c point st = Ok st' ->
  Reached isCircle md st0 st'.
Proof.
  intros ->. revert st. induction n as [|n IH]; intros st HR Hc; simpl in Hc.
  - now injection Hc as <-.
  - destruct (candidate isCircle md (cellSize_of md) point st) as [st1|] eqn:H1;
      cbn [bind] in Hc; [|discriminate].
    apply (IH st1); [|exact Hc]. eapply Reached_candidate; eauto.
Qed.

Lemma main_loop_Reached (fuel numPoints : nat) (k : Z)
  (st0 st st' : State (G:=G)) :
  c = cellSize_of md ->
  Reached isCircle md st0 st ->
  main_loop fuel numPoints k isCircle md c st = Ok st' ->
  Reached isCircle md st0 st'.
Proof.
  intros Hcs. revert st.
  induction fuel as [|fuel IH]; intros st HR Hm; simpl in Hm.
  - destruct (loop_cond numPoints st); [discriminate|].
    now injection Hm as <-.
  - destruct (loop_cond numPoints st); [|now injection Hm as <-].
    destruct (popRandom (processList st) (generator st))
      as [[[point rest] g']|] eqn:Hpop; cbn [bind] in Hm; [|discriminate].
    destruct (candidates (Z.to_nat k) isCircle md c point
                (mkState (samplePoints st) rest (grid st) g'))
      as [st1|] eqn:Hc; cbn [bind] in Hm; [|discriminate].
    apply (IH st1); [|exact Hm].
    eapply candidates_Reached; [exact Hcs | | exact Hc].
    eapply Reached_pop; eauto.
Qed.

(** The invariant holds in every state of a run. *)
Lemma Reached_Inv (st0 st : State (G:=G)) :
  0 < md ->
  Inv isCircle md st0 -> Reached isCircle md st0 st -> Inv isCircle md st.
Proof.
  intros Hmd HI0 HR. induction HR as [|st point rest g' HR IH Hpop
                                      |st point st' HR IH Hc].
  - exact HI0.
  - apply Inv_shrink; [exact IH|].
    now destruct (popRandom_spec _ _ _ _ _ Hpop) as [Hincl _].
  - now destruct (candidate_spec isCircle md Hmd point st st' IH Hc).
Qed.

End Growth.

(** ** Rejected candidates, and the end of the loop *)

Section Rejection.

Import PoissonGenerator Spec.

Context {G : Type} `{PRNG G} {order : ArgOrder}.

(** A candidate outside the shape leaves the state alone, but for the
    generator. *)
Lemma candidate_reject_shape (isCircle : bool) (md c : R) (point q : Point)
  (st : State (G:=G)) (g' : G) :
  generateRandomPointAround point md (generator st) = (q, g') ->
  inShape isCircle q = false ->
  candidate isCircle md c point st
  = Ok (mkState (samplePoints st) (processList st) (grid st) g').
Proof.
  intros Hgen Hq. unfold candidate. rewrite Hgen, Hq. reflexivity.
Qed.

(** A candidate nearer than [minDist] to an accepted point leaves the
    state alone, but for the generator. *)
Lemma candidate_reject_near (isCircle : bool) (md : R) (point q p : Point)
  (st : State (G:=G)) (g' : G) :
  0 < md ->
  Inv isCircle md st ->
  generateRandomPointAround point md (generator st) = (q, g') ->
  inShape isCircle q = true ->
  In p (samplePoints st) -> getDistance p q < md ->
  candidate isCircle md (cellSize_of md) point st
  = Ok (mkState (samplePoints st) (processList st) (grid st) g').
Proof.
  intros Hmd HI Hgen Hq Hp Hnear. unfold candidate. rewrite Hgen, Hq.
  destruct (isInNeighbourhood_total (grid st) q md (cellSize_of md)
              (inv_wf _ _ _ HI)) as [[|] Hb]; rewrite Hb; [reflexivity|].
  pose proof (accepted_is_apart isCircle md Hmd st q HI Hq Hb p Hp). lra.
Qed.

(** A candidate that leaves the state as it is does so at every turn. *)
Lemma candidates_idle (n : nat) (isCircle : bool) (md c : R) (point : Point)
  (st : State (G:=G)) :
  candidate isCircle md c point st = Ok st ->
  candidates n isCircle md c point st = Ok st.
Proof.
  intros Hc. induction n as [|n IH]; simpl; [reflexivity|].
  rewrite Hc. exact IH.
Qed.

(** The code that may fail in a turn of the loop fails on an index. *)
Lemma vec_get_Err {A : Type} (v : list A) (i : Z) (e : error) :
  vec_get v i = Err e -> e = OutOfBounds.
Proof.
  unfold vec_get. destruct (i <? 0)%Z; [congruence|].
  destruct (nth_error v (Z.to_nat i)); congruence.
Qed.

Lemma vec_set_Err {A : Type} (v : list A) (i : Z) (x : A) (e : error) :
  vec_set v i x = Err e -> e = OutOfBounds.
Proof.
  unfold vec_set. destruct (i <? 0)%Z; [congruence|].
  destruct (Z.to_nat i <? List.length v)%nat; congruence.
Qed.

Lemma Grid_insert_Err (gr : Grid) (p : Point) (e : error) :
  Grid_insert gr p = Err e -> e = OutOfBounds.
Proof.
  unfold Grid_insert.
  destruct (vec_get (grid_ gr) (g_x (imageToGrid p (cellSize_ gr))))
    as [row|e1] eqn:H1; cbn [bind];
    [|intros [= <-]; eapply vec_get_Err; eauto].
  destruct (vec_set row (g_y (imageToGrid p (cellSize_ gr))) p)
    as [row'|e2] eqn:H2; cbn [bind];
    [|intros [= <-]; eapply vec_set_Err; eauto].
  destruct (vec_set (grid_ gr) (g_x (imageToGrid p (cellSize_ gr))) row')
    as [rows'|e3] eqn:H3; cbn [bind];
    [discriminate | intros [= <-]; eapply vec_set_Err; eauto].
Qed.

Lemma scan_cell_Err (gr : Grid) (pt : Point) (md : R) (i j : Z) (e : error) :
  scan_cell gr pt md i j = Err e -> e = OutOfBounds.
Proof.
  unfold scan_cell, Grid_get.
  destruct ((0 <=? i) && (i <? w_ gr) && (0 <=? j) && (j <? h_ gr))%Z;
    [|discriminate].
  destruct (vec_get (grid_ gr) i) as [row|e1] eqn:H1; cbn [bind];
    [|intros [= <-]; eapply vec_get_Err; eauto].
  destruct (vec_get row j) as [P|e2] eqn:H2; cbn [bind];
    [discriminate | intros [= <-]; eapply vec_get_Err; eauto].
Qed.

Lemma scan_j_Err (gr : Grid) (pt : Point) (md : R) (i j : Z) (n : nat)
  (e : error) :
  scan_j gr pt md i j n = Err e -> e = OutOfBounds.
Proof.
  revert j. induction n as [|n IH]; intros j; simpl; [discriminate|].
  destruct (scan_cell gr pt md i j) as [[|]|e1] eqn:H1; cbn [bind].
  - discriminate.
  - apply IH.
  - intros [= <-]. eapply scan_cell_Err; eauto.
Qed.

Lemma scan_i_Err (gr : Grid) (pt : Point) (md : R) (i j0 : Z) (n m : nat)
  (e : error) :
  scan_i gr pt md i j0 n m = Err e -> e = OutOfBounds.
Proof.
  revert i. induction n as [|n IH]; intros i; simpl; [discriminate|].
  destruct (scan_j gr pt md i j0 m) as [[|]|e1] eqn:H1; cbn [bind].
  - discriminate.
  - apply IH.
  - intros [= <-]. eapply scan_j_Err; eauto.
Qed.

Lemma candidate_Err (isCircle : bool) (md c : R) (point : Point)
  (st : State (G:=G)) (e : error) :
  candidate isCircle md c point st = Err e -> e = OutOfBounds.
Proof.
  unfold candidate.
  destruct (generateRandomPointAround point md (generator st)) as [q g'].
  destruct (inShape isCircle q); cbn [bind andb]; [|discriminate].
  destruct (isInNeighbourhood (grid st) q md c) as [[|]|e1] eqn:H1;
    cbn [bind negb].
  - discriminate.
  - destruct (Grid_insert (grid st) q) as [gr'|e2] eqn:H2; cbn [bind];
      [discriminate | intros [= <-]; eapply Grid_insert_Err; eauto].
  - intros [= <-]. unfold isInNeighbourhood in H1.
    eapply scan_i_Err; eauto.
Qed.

Lemma candidates_Err (n : nat) (isCircle : bool) (md c : R) (point : Point)
  (st : State (G:=G)) (e : error) :
  candidates n isCircle md c point st = Err e -> e = OutOfBounds.
Proof.
  revert st. induction n as [|n IH]; intros st; simpl; [discriminate|].
  destruct (candidate isCircle md c point st) as [st1|e1] eqn:H1;
    cbn [bind]; [apply IH | intros [= <-]; eapply candidate_Err; eauto].
Qed.

Lemma popRandom_Err (points : list Point) (g : G) (e : error) :
  popRandom points g = Err e -> e = OutOfBounds.
Proof.
  unfold popRandom.
  destruct (randomInt g (Z.of_nat (List.length points) - 1)) as [idx g1].
  destruct (vec_get points idx) as [p|e1] eqn:H1; cbn [bind];
    [discriminate | intros [= <-]; eapply vec_get_Err; eauto].
Qed.

(** The [while] loop ends: a turn that accepts no point shortens the active
    list, and a turn that accepts [j] points lengthens it by less than
    [j] while the points still to be found go down by [j]. *)
Lemma main_loop_ends (fuel numPoints : nat) (k : Z) (isCircle : bool)
  (md c : R) (st : State (G:=G)) (e : error) :
  (loop_cond numPoints st = false
   \/ 2 * (numPoints - List.length (samplePoints st))
      + List.length (processList st) <= fuel)%nat ->
  main_loop fuel numPoints k isCircle md c st = Err e -> e = OutOfBounds.
Proof.
  revert st. induction fuel as [|fuel IH]; intros st Hfuel; simpl.
  - destruct (loop_cond numPoints st) eqn:Hcond; [|discriminate].
    exfalso. destruct Hfuel as [|Hfuel]; [discriminate|].
    unfold loop_cond in Hcond. apply andb_prop in Hcond as [Hne _].
    destruct (processList st); [discriminate | simpl in Hfuel; lia].
  - destruct (loop_cond numPoints st) eqn:Hcond; [|discriminate].
    destruct Hfuel as [|Hfuel]; [discriminate|].
    destruct (popRandom (processList st) (generator st))
      as [[[point rest] g']|e1] eqn:Hpop; cbn [bind];
      [|intros [= <-]; eapply popRandom_Err; eauto].
    destruct (popRandom_spec _ _ _ _ _ Hpop) as (_ & Hin & Hlen).
    destruct (candidates (Z.to_nat k) isCircle md c point
                (mkState (samplePoints st) rest (grid st) g'))
      as [st1|e1] eqn:Hc; cbn [bind];
      [|intros [= <-]; eapply candidates_Err; eauto].
    apply IH.
    destruct (candidates_grows _ _ _ _ _ _ _ Hc)
      as (added & Hs & Hp & _ & _).
    cbn [samplePoints processList] in Hs, Hp.
    destruct (loop_cond numPoints st1) eqn:Hcond1; [right | now left].
    unfold loop_cond in Hcond, Hcond1.
    apply andb_prop in Hcond as [_ Hlt]. apply Nat.ltb_lt in Hlt.
    apply andb_prop in Hcond1 as [_ Hlt1]. apply Nat.ltb_lt in Hlt1.
    rewrite Hs, Hp in *. rewrite !length_app in *.
    destruct (processList st); [destruct Hin | simpl in *; lia].
Qed.

(** Once the first point is found, [2 * numPoints] turns are enough: the
    sampler does not run out of fuel. *)
Lemma generatePoissonPoints_ends (fuel numPoints : nat) (g g1 : G) (k : Z)
  (isCircle : bool) (minDist : R) (p : Point) :
  firstPoint_loop fuel isCircle g = Ok (p, g1) ->
  (2 * numPoints <= fuel)%nat ->
  generatePoissonPoints fuel numPoints g k isCircle minDist
  <> Err OutOfFuel.
Proof.
  intros Hfp Hfuel Hrun. unfold generatePoissonPoints in Hrun.
  destruct (generatePoissonPoints_state fuel numPoints g k isCircle minDist)
    as [st|e] eqn:Hst; cbn [bind] in Hrun; [discriminate|].
  injection Hrun as ->. unfold generatePoissonPoints_state in Hst.
  destruct (seed_state fuel g isCircle (effective_minDist numPoints minDist))
    as [st0|e0] eqn:Hseed; cbn [bind] in Hst.
  - apply main_loop_ends in Hst; [discriminate|].
    rewrite seed_state_eq in Hseed.
    destruct (grid_size _) as [w|]; cbn [bind] in Hseed; [|discriminate].
    destruct (Grid_new _ _ _) as [gr0|]; cbn [bind] in Hseed;
      [|discriminate].
    rewrite Hfp in Hseed. cbn [bind] in Hseed.
    destruct (Grid_insert gr0 p) as [gr1|]; cbn [bind] in Hseed;
      [|discriminate].
    injection Hseed as <-.
    destruct numPoints as [|n]; [now left | right; simpl; lia].
  - injection Hst as ->. rewrite seed_state_eq in Hseed.
    destruct (grid_size_cases
                (cellSize_of (effective_minDist numPoints minDist)))
      as [Hgs|Hgs]; rewrite Hgs in Hseed; cbn [bind] in Hseed;
      [discriminate|].
    destruct (Grid_new _ _ _) as [gr0|e0] eqn:Hnew; cbn [bind] in Hseed.
    + rewrite Hfp in Hseed. cbn [bind] in Hseed.
      destruct (Grid_insert gr0 p) as [gr1|e1] eqn:Hins; cbn [bind] in Hseed;
        [discriminate|].
      injection Hseed as ->. apply Grid_insert_Err in Hins. discriminate.
    + injection Hseed as ->. unfold Grid_new in Hnew.
      destruct (_ <? 0)%Z; [discriminate|].
      destruct (_ && _)%bool; discriminate.
Qed.

End Rejection.

(** ** Properties of [generatePoissonPoints] *)

Section SamplerTheorems.

Import PoissonGenerator Spec Runs.

Context {G : Type} `{PRNG G} {order : ArgOrder}.

Lemma seed_state_points (fuel : nat) (g : G) (isCircle : bool) (md : R)
  (st : State (G:=G)) :
  seed_state fuel g isCircle md = Ok st ->
  exists p, samplePoints st = [p] /\ inShape isCircle p = true.
Proof.
  rewrite seed_state_eq.
  destruct (grid_size _) as [w|]; cbn [bind]; [|discriminate].
  destruct (Grid_new _ _ _) as [gr0|]; cbn [bind]; [|discriminate].
  destruct (firstPoint_loop fuel isCircle g) as [[p g1]|] eqn:Hfp;
    cbn [bind]; [|discriminate].
  destruct (Grid_insert gr0 p) as [gr1|]; cbn [bind]; [|discriminate].
  intros [= <-]. exists p. split; [reflexivity|].
  now destruct (firstPoint_loop_spec _ _ _ _ _ Hfp).
Qed.

(** The final state of a run is reached from the head of its loop. *)
Lemma run_Reached (fuel numPoints : nat) (g : G) (k : Z) (isCircle : bool)
  (minDist : R) (st : State (G:=G)) :
  generatePoissonPoints_state fuel numPoints g k isCircle minDist = Ok st ->
  exists st0,
    seed_state fuel g isCircle (effective_minDist numPoints minDist) = Ok st0
    /\ Reached isCircle (effective_minDist numPoints minDist) st0 st.
Proof.
  unfold generatePoissonPoints_state.
  destruct (seed_state fuel g isCircle (effective_minDist numPoints minDist))
    as [st0|]; cbn [bind]; [|discriminate].
  intros Hm. exists st0. split; [reflexivity|].
  eapply main_loop_Reached; [reflexivity | apply Reached_head | exact Hm].
Qed.

Lemma Grid_insert_get (gr gr' : Grid) (p : Point) :
  Grid_insert gr p = Ok gr' ->
  exists P, Grid_get gr (fst (cell_of (cellSize_ gr) p))
              (snd (cell_of (cellSize_ gr) p)) = Ok P.
Proof.
  unfold Grid_insert, Grid_get, cell_of. cbn [fst snd].
  destruct (vec_get (grid_ gr) (g_x (imageToGrid p (cellSize_ gr))))
    as [row|]; cbn [bind]; [|discriminate].
  destruct (vec_set row (g_y (imageToGrid p (cellSize_ gr))) p)
    as [row'|] eqn:Hset; cbn [bind]; [|discriminate].
  intros _. apply vec_set_Ok in Hset as [Hj _].
  unfold vec_get. destruct (Z.ltb_spec (g_y (imageToGrid p (cellSize_ gr))) 0);
    [lia|].
  destruct (nth_error row (Z.to_nat (g_y (imageToGrid p (cellSize_ gr)))))
    as [P|] eqn:Hn; [now exists P|].
  apply nth_error_None in Hn. lia.
Qed.

(** Every point of a returned sequence passed the test of the shape. *)
Lemma run_points_in_shape (fuel numPoints : nat) (g g' : G) (k : Z)
  (isCircle : bool) (minDist : R) (pts : list Point) :
  generatePoissonPoints fuel numPoints g k isCircle minDist = Ok (pts, g') ->
  Forall (fun p => inShape isCircle p = true) pts.
Proof.
  intros Hrun.
  apply generatePoissonPoints_Ok in Hrun as (st & Hst & <- & _).
  unfold generatePoissonPoints_state in Hst.
  destruct (seed_state fuel g isCircle (effective_minDist numPoints minDist))
    as [st0|] eqn:Hseed; cbn [bind] in Hst; [|discriminate].
  destruct (seed_state_points _ _ _ _ _ Hseed) as (p0 & Hp0 & Hsh0).
  destruct (main_loop_grows _ _ _ _ _ _ _ _ Hst) as (added & Hs & Hadd).
  rewrite Hs, Hp0. constructor; assumption.
Qed.

(** The algorithm keeps the minimum distance as long as no operation
    rounds: over the reals, with a positive [minDist], any two points at
    different places of the returned sequence are at distance at least
    [minDist] from each other.  The binary32 run of [PoissonBinary32]
    shows that the compiled code, whose operations round, does not. *)
Lemma generatePoissonPoints_min_distance (fuel numPoints : nat) (g g' : G)
  (k : Z) (isCircle : bool) (minDist : R) (pts : list Point) :
  0 < minDist ->
  generatePoissonPoints fuel numPoints g k isCircle minDist = Ok (pts, g') ->
  forall i j p q,
    i <> j -> nth_error pts i = Some p -> nth_error pts j = Some q ->
    minDist <= getDistance p q.
Proof.
  intros Hmd Hrun.
  apply generatePoissonPoints_Ok in Hrun as (st & Hst & <- & _).
  apply generatePoissonPoints_state_Inv in Hst;
    rewrite (effective_minDist_pos numPoints minDist Hmd) in *;
    [|exact Hmd].
  exact (inv_apart _ _ _ Hst).
Qed.

(** C6. Domain containment: every point of the sequence returned by
    [generatePoissonPoints] passes the test of the chosen shape: it is at
    distance at most 0.5 from (0.5, 0.5) when [isCircle] is true and has
    both coordinates in [0, 1] otherwise; the first point and the accepted
    candidates alike. *)
Theorem generatePoissonPoints_in_shape (fuel numPoints : nat) (g g' : G)
  (k : Z) (isCircle : bool) (minDist : R) (pts : list Point) :
  generatePoissonPoints fuel numPoints g k isCircle minDist = Ok (pts, g') ->
  Forall (fun p =>
            (if isCircle then isInCircle p else isInRectangle p) = true
            /\ if isCircle
               then getDistance p (Point_xy 0.5 0.5) <= 0.5
               else 0 <= p_x p <= 1 /\ 0 <= p_y p <= 1) pts.
Proof.
  intros Hrun.
  eapply Forall_impl; [|exact (run_points_in_shape _ _ _ _ _ _ _ _ Hrun)].
  intros p Hp. split; [exact Hp|].
  destruct isCircle.
  - simpl in Hp. unfold isInCircle in Hp. apply fle_true in Hp.
    unfold getDistance. simpl p_x. simpl p_y.
    replace 0.5 with (sqrt (0.5 * 0.5)) at 5
      by (apply sqrt_square; lra).
    apply sqrt_le_1_alt. lra.
  - apply (inShape_unit false). exact Hp.
Qed.

(** Likewise over the reals only: with [cellSize = minDist / sqrt 2], in
    every state a run goes through, two accepted points never share a
    cell, every accepted point is still in the cell it was written to,
    and the cell an accepted candidate is written to holds no valid point
    before the write. *)
Lemma grid_one_point_per_cell (fuel numPoints : nat) (g : G)
  (isCircle : bool) (minDist : R) (st0 st : State (G:=G)) :
  let md := effective_minDist numPoints minDist in
  let c := cellSize_of md in
  0 < md ->
  seed_state fuel g isCircle md = Ok st0 ->
  Reached isCircle md st0 st ->
  (forall i j p q,
      nth_error (samplePoints st) i = Some p ->
      nth_error (samplePoints st) j = Some q ->
      cell_of c p = cell_of c q -> i = j)
  /\ (forall p, In p (samplePoints st) ->
        Grid_get (grid st) (fst (cell_of c p)) (snd (cell_of c p)) = Ok p)
  /\ (forall point st' q,
        candidate isCircle md c point st = Ok st' ->
        samplePoints st' = samplePoints st ++ [q] ->
        exists P,
          Grid_get (grid st) (fst (cell_of c q)) (snd (cell_of c q)) = Ok P
          /\ valid_ P = false).
Proof.
  intros md c Hmd Hseed HR.
  destruct (seed_state_spec _ _ _ _ _ Hmd Hseed) as [HI0 _].
  pose proof (Reached_Inv isCircle md st0 st Hmd HI0 HR) as HI.
  split; [|split].
  - intros i j p q Hi Hj Hcell.
    destruct (Nat.eq_dec i j) as [|Hne]; [assumption|]. exfalso.
    pose proof (inv_apart _ _ _ HI i j p q Hne Hi Hj) as Hfar.
    pose proof (inv_shape _ _ _ HI) as Hsh. rewrite Forall_forall in Hsh.
    destruct (inShape_unit _ _ (Hsh p (nth_error_In _ _ Hi)))
      as [[Hpx _] [Hpy _]].
    destruct (inShape_unit _ _ (Hsh q (nth_error_In _ _ Hj)))
      as [[Hqx _] [Hqy _]].
    pose proof (same_cell_close md p q Hmd Hpx Hpy Hqx Hqy Hcell). lra.
  - exact (inv_stored _ _ _ HI).
  - intros point st' q Hc Hs.
    destruct (candidate_cases _ _ _ _ _ _ Hc)
      as [(Es & _)|(q' & Es & _ & Hq & _ & Hscan & Hins)].
    + rewrite Es in Hs. apply (f_equal (@List.length Point)) in Hs.
      rewrite length_app in Hs. simpl in Hs. lia.
    + rewrite Es in Hs. apply app_inj_tail in Hs as [_ ->].
      destruct (Grid_insert_get _ _ _ Hins) as [P HP].
      rewrite (inv_cs _ _ _ HI) in HP. exists P. split; [exact HP|].
      eapply accepted_cell_empty; eauto.
Qed.


End SamplerTheorems.

(** ** The properties at work on the concrete runs *)

Section SamplerWitnesses.

Import PoissonGenerator Spec Runs.

Lemma generatePoissonPoints_in_shape_witness :
  generatePoissonPoints (G:=list R) 1 2 two_point_script 1 true (1 / 2)
  = Ok ([Point_xy (1 / 4) (1 / 2); Point_xy (3 / 4) (1 / 2)], [])
  /\ Forall (fun p => isInCircle p = true
                      /\ getDistance p (Point_xy 0.5 0.5) <= 0.5)
       [Point_xy (1 / 4) (1 / 2); Point_xy (3 / 4) (1 / 2)].
Proof.
  split; [exact two_point_points|].
  exact (generatePoissonPoints_in_shape 1 2 two_point_script [] 1 true
           (1 / 2) _ two_point_points).
Defined.



End SamplerWitnesses.

(** ** The binary32 run *)

Section Binary32Run.

Import Binary32 PoissonBinary32 Runs32.
Import PoissonGenerator(ArgOrder, right_to_left).

Context {libm : Libm} {order : ArgOrder}.

(** The equations of the loops. *)
Lemma main_loop32_turn (fuel numPoints : nat) (k : Z) (isCircle : bool)
  (md c : float) (st st1 : State (G:=list float)) (point : Point)
  (rest : list Point) (g' : list float) :
  loop_cond numPoints st = true ->
  popRandom (processList st) (generator st) = Ok (point, rest, g') ->
  candidates (Z.to_nat k) isCircle md c point
    (mkState (samplePoints st) rest (grid st) g') = Ok st1 ->
  main_loop (S fuel) numPoints k isCircle md c st
  = main_loop fuel numPoints k isCircle md c st1.
Proof.
  intros Hcond Hpop Hc. cbn [main_loop]. rewrite Hcond, Hpop. cbn [bind].
  rewrite Hc. reflexivity.
Qed.

Lemma main_loop32_exit (fuel numPoints : nat) (k : Z) (isCircle : bool)
  (md c : float) (st : State (G:=list float)) :
  loop_cond numPoints st = false ->
  main_loop fuel numPoints k isCircle md c st = Ok st.
Proof. intros Hcond. destruct fuel; cbn [main_loop]; now rewrite Hcond. Qed.

(** The candidate is made of two draws and of the cosine and the sine of
    the angle. *)
Lemma generateRandomPointAround32_eq (p : Point) (md R1 R2 : float)
  (script : list float) :
  generateRandomPointAround p md (R1 :: R2 :: script)
  = (Point_xy
       (fadd (p_x p)
          (fmul (fmul md (fadd R1 lit_1))
             (cosf (fmul (fmul (of_int 2) lit_pi) R2))))
       (fadd (p_y p)
          (fmul (fmul md (fadd R1 lit_1))
             (sinf (fmul (fmul (of_int 2) lit_pi) R2)))),
     script).
Proof. reflexivity. Qed.

(** The head of the loop: the first point is in the cell (0, 5). *)
Lemma overwrite_seed :
  seed_state 3 (overwrite_script order) false minDist15
  = Ok (mkState [first_p] [first_p] (grid_with first_p)
          [lit_0; lit_0_125; lit_0_125; lit_0_75]).
Proof.
  unfold overwrite_script, first_draws, right_to_left.
  destruct order; vm_compute; reflexivity.
Qed.

(** The candidate around the first point. *)
Lemma overwrite_second :
  cosf angle_q = cos_q -> sinf angle_q = sin_q ->
  generateRandomPointAround first_p minDist15
    [lit_0; lit_0_125; lit_0_125; lit_0_75]
  = (second_q, [lit_0_125; lit_0_75]).
Proof.
  intros Hc Hs. rewrite generateRandomPointAround32_eq.
  fold angle_q. rewrite Hc, Hs. vm_compute. reflexivity.
Qed.

(** It is accepted, and written to the cell (0, 5). *)
Lemma overwrite_candidate :
  cosf angle_q = cos_q -> sinf angle_q = sin_q ->
  candidate false minDist15 (cellSize_of minDist15) first_p
    (mkState [first_p] [] (grid_with first_p)
       [lit_0; lit_0_125; lit_0_125; lit_0_75])
  = Ok (mkState [first_p; second_q] [second_q] (grid_with second_q)
          [lit_0_125; lit_0_75]).
Proof.
  intros Hc Hs. unfold candidate. cbn [generator].
  rewrite (overwrite_second Hc Hs). vm_compute. reflexivity.
Qed.

(** The candidate around the second point. *)
Lemma overwrite_third :
  cosf angle_c = cos_c -> sinf angle_c = sin_c ->
  generateRandomPointAround second_q minDist15 [lit_0_125; lit_0_75]
  = (third_c, []).
Proof.
  intros Hc Hs. rewrite generateRandomPointAround32_eq.
  fold angle_c. rewrite Hc, Hs. vm_compute. reflexivity.
Qed.

(** It is accepted too: the scan does not find the first point. *)
Lemma third_candidate :
  cosf angle_c = cos_c -> sinf angle_c = sin_c ->
  candidate false minDist15 (cellSize_of minDist15) second_q
    (mkState [first_p; second_q] [] (grid_with second_q)
       [lit_0_125; lit_0_75])
  = Ok (mkState [first_p; second_q; third_c] [third_c]
          (grid_with2 second_q third_c) []).
Proof.
  intros Hc Hs. unfold candidate. cbn [generator].
  rewrite (overwrite_third Hc Hs). vm_compute. reflexivity.
Qed.

(** C1 at a failing input.  Three points are asked for in the square, with
    [minDist = 1.0f / 15] and one candidate per active point.  The first
    point is (0, 0.23570228).  The second point is drawn around it at the
    distance [minDist] under the angle [2 * pi / 8]; the third point is
    drawn around the second at the distance [minDist * 1.125] under the
    angle [2 * pi * 3 / 4].  The three points are returned, and the third
    is nearer to the first than [minDist]: the distance the code computes
    for them is less than [minDist], and their exact distance is less
    than 83 hundredths of it. *)
Theorem generatePoissonPoints_binary32_too_close :
  cosf angle_q = cos_q -> sinf angle_q = sin_q ->
  cosf angle_c = cos_c -> sinf angle_c = sin_c ->
  fltb lit_0 minDist15 = true
  /\ generatePoissonPoints 3 3 (overwrite_script order) 1 false minDist15
     = Ok ([first_p; second_q; third_c], [])
  /\ fltb (getDistance first_p third_c) minDist15 = true
  /\ (let dx := value (p_x third_c) - value (p_x first_p) in
      let dy := value (p_y third_c) - value (p_y first_p) in
      dx * dx + dy * dy
      < (83 # 100) * (83 # 100) * (value minDist15 * value minDist15))%Q.
Proof.
  intros Hcq Hsq Hcc Hsc.
  split; [vm_compute; reflexivity|]. split.
  - unfold generatePoissonPoints, generatePoissonPoints_state.
    replace (effective_minDist 3 minDist15) with minDist15
      by (vm_compute; reflexivity).
    rewrite overwrite_seed. cbn [bind].
    rewrite (main_loop32_turn 2 3 1 false _ _ _
               (mkState [first_p; second_q] [second_q] (grid_with second_q)
                  [lit_0_125; lit_0_75])
               first_p [] [lit_0; lit_0_125; lit_0_125; lit_0_75]);
      [ | reflexivity | reflexivity | ].
    + rewrite (main_loop32_turn 1 3 1 false _ _ _
                 (mkState [first_p; second_q; third_c] [third_c]
                    (grid_with2 second_q third_c) [])
                 second_q [] [lit_0_125; lit_0_75]);
        [ | reflexivity | reflexivity | ].
      * now rewrite main_loop32_exit by reflexivity.
      * change (Z.to_nat 1) with 1%nat. cbn [samplePoints grid candidates].
        rewrite (third_candidate Hcc Hsc). reflexivity.
    + change (Z.to_nat 1) with 1%nat. cbn [samplePoints grid candidates].
      rewrite (overwrite_candidate Hcq Hsq). reflexivity.
  - split; [vm_compute; reflexivity|]. vm_compute. reflexivity.
Qed.

(** C9 at the same input.  The first point lies just below the edge
    between the cells (0, 4) and (0, 5); the quotient [P.y / cellSize]
    rounds to 5, and the point is stored in the cell (0, 5).  The
    candidate drawn around it is in the cell (0, 5) too; the distance the
    code computes for the two is [minDist], which is not less than
    [minDist], so that the candidate is accepted, and [insert] writes it
    over the first point: after the write the grid holds one valid point
    for two accepted points. *)
Theorem Grid_insert_binary32_overwrites :
  cosf angle_q = cos_q -> sinf angle_q = sin_q ->
  let cellSize := cellSize_of minDist15 in
  let script := [lit_0; lit_0_125; lit_0_125; lit_0_75] in
  seed_state 3 (overwrite_script order) false minDist15
  = Ok (mkState [first_p] [first_p] (grid_with first_p) script)
  /\ (value (p_y first_p) < 5 * value cellSize)%Q
  /\ fdiv (p_y first_p) cellSize = of_int 5
  /\ imageToGrid first_p cellSize = Ok (mkGridPoint 0 5)
  /\ Grid_get (grid_with first_p) 0 5 = Ok first_p
  /\ valid_ first_p = true
  /\ generateRandomPointAround first_p minDist15 script
     = (second_q, [lit_0_125; lit_0_75])
  /\ imageToGrid second_q cellSize = Ok (mkGridPoint 0 5)
  /\ getDistance first_p second_q = minDist15
  /\ candidate false minDist15 cellSize first_p
       (mkState [first_p] [] (grid_with first_p) script)
     = Ok (mkState [first_p; second_q] [second_q] (grid_with second_q)
             [lit_0_125; lit_0_75])
  /\ Grid_insert (grid_with first_p) second_q = Ok (grid_with second_q)
  /\ Grid_get (grid_with second_q) 0 5 = Ok second_q
  /\ valid_points (grid_with second_q) = 1%nat.
Proof.
  intros Hcq Hsq cellSize script.
  split; [exact overwrite_seed|].
  split; [vm_compute; reflexivity|].
  split; [vm_compute; reflexivity|].
  split; [vm_compute; reflexivity|].
  split; [vm_compute; reflexivity|].
  split; [reflexivity|].
  split; [exact (overwrite_second Hcq Hsq)|].
  split; [vm_compute; reflexivity|].
  split; [vm_compute; reflexivity|].
  split; [exact (overwrite_candidate Hcq Hsq)|].
  split; [vm_compute; reflexivity|].
  split; vm_compute; reflexivity.
Qed.

End Binary32Run.

Section Binary32Witnesses.

Import Binary32 PoissonBinary32 Runs32.

Lemma generatePoissonPoints_binary32_too_close_witness :
  cosf (Libm:=table_libm) angle_q = cos_q
  /\ sinf (Libm:=table_libm) angle_q = sin_q
  /\ cosf (Libm:=table_libm) angle_c = cos_c
  /\ sinf (Libm:=table_libm) angle_c = sin_c
  /\ generatePoissonPoints (libm:=table_libm) (order:=Runs.second_first) 3 3
       (overwrite_script Runs.second_first) 1 false minDist15
     = Ok ([first_p; second_q; third_c], []).
Proof.
  assert (Hcq : cosf (Libm:=table_libm) angle_q = cos_q)
    by (vm_compute; reflexivity).
  assert (Hsq : sinf (Libm:=table_libm) angle_q = sin_q)
    by (vm_compute; reflexivity).
  assert (Hcc : cosf (Libm:=table_libm) angle_c = cos_c)
    by (vm_compute; reflexivity).
  assert (Hsc : sinf (Libm:=table_libm) angle_c = sin_c)
    by (vm_compute; reflexivity).
  split; [exact Hcq|]. split; [exact Hsq|]. split; [exact Hcc|].
  split; [exact Hsc|].
  exact (proj1 (proj2 (generatePoissonPoints_binary32_too_close
                         (libm:=table_libm) (order:=Runs.second_first)
                         Hcq Hsq Hcc Hsc))).
Defined.

Lemma Grid_insert_binary32_overwrites_witness :
  cosf (Libm:=table_libm) angle_q = cos_q
  /\ sinf (Libm:=table_libm) angle_q = sin_q
  /\ Grid_insert (grid_with first_p) second_q = Ok (grid_with second_q).
Proof.
  assert (Hcq : cosf (Libm:=table_libm) angle_q = cos_q)
    by (vm_compute; reflexivity).
  assert (Hsq : sinf (Libm:=table_libm) angle_q = sin_q)
    by (vm_compute; reflexivity).
  split; [exact Hcq|]. split; [exact Hsq|].
  pose proof (Grid_insert_binary32_overwrites (libm:=table_libm)
                (order:=Runs.as_written) Hcq Hsq) as Hrun.
  cbv zeta in Hrun. tauto.
Defined.

End Binary32Witnesses.

(** ** The placement grid *)

Section PlacementGrid.

Import PoissonGenerator MapGenerator.

Context {G : Type} `{PRNG G} {order : ArgOrder} {RS : Type} `{CRand RS}.

Variable normalize : vec2 -> vec2.
Variable orientedAngle : vec2 -> vec2 -> R.

Lemma vec_at_Ok {A : Type} (v : list A) (i : Z) (x : A) :
  vec_at v i = Ok x <-> (0 <= i)%Z /\ nth_error v (Z.to_nat i) = Some x.
Proof.
  unfold vec_at. destruct (Z.ltb_spec i 0).
  - split; [discriminate | lia].
  - destruct (nth_error v (Z.to_nat i)) eqn:E; split.
    + intros [= ->]. now split.
    + intros [_ [= ->]]. reflexivity.
    + discriminate.
    + intros [_ [=]].
Qed.

Lemma cell_at_Ok (g : list (list (list Object))) (x y : Z)
  (cell : list Object) :
  cell_at g x y = Ok cell <->
  exists col, vec_at g x = Ok col /\ vec_at col y = Ok cell.
Proof.
  unfold cell_at, bind. destruct (vec_at g x) as [col|]; split.
  - intros Hy. now exists col.
  - intros [col' [[= <-] Hy]]. exact Hy.
  - discriminate.
  - intros [col' [[=] _]].
Qed.

(** [push_back] appends to one cell and leaves the others alone. *)
Lemma cell_push_back_frame (g g' : list (list (list Object))) (x y : Z)
  (o : Object) :
  cell_push_back g x y o = Ok g' ->
  forall x' y' cell, cell_at g x' y' = Ok cell ->
    exists added, cell_at g' x' y' = Ok (cell ++ added)
                  /\ (added = [] \/ added = [o]).
Proof.
  unfold cell_push_back.
  destruct (vec_at g x) as [col|] eqn:Hcol; cbn [bind]; [|discriminate].
  destruct (vec_at col y) as [c0|] eqn:Hc0; cbn [bind]; [|discriminate].
  intros [= <-] x' y' cell Hcell.
  apply cell_at_Ok in Hcell as (col' & Hcol' & Hcell).
  apply vec_at_Ok in Hcol as [Hx Hcol]. apply vec_at_Ok in Hc0 as [Hy Hc0].
  apply vec_at_Ok in Hcol' as [Hx' Hcol'].
  apply vec_at_Ok in Hcell as [Hy' Hcell].
  assert (Lx : (Z.to_nat x < List.length g)%nat)
    by (apply nth_error_Some; congruence).
  assert (Ly : (Z.to_nat y < List.length col)%nat)
    by (apply nth_error_Some; congruence).
  destruct (Z.eq_dec x' x) as [->|Hnx].
  - assert (col' = col) by congruence. subst col'.
    destruct (Z.eq_dec y' y) as [->|Hny].
    + assert (cell = c0) by congruence. subst cell.
      exists [o]. split; [|now right].
      apply cell_at_Ok. eexists. split; apply vec_at_Ok; split; try lia.
      * now apply list_update_same.
      * now apply list_update_same.
    + exists []. rewrite app_nil_r. split; [|now left].
      apply cell_at_Ok. eexists. split; apply vec_at_Ok; split; try lia.
      * now apply list_update_same.
      * rewrite list_update_other by lia. exact Hcell.
  - exists []. rewrite app_nil_r. split; [|now left].
    apply cell_at_Ok. exists col'. split; apply vec_at_Ok; split; try lia.
    + rewrite list_update_other by lia. exact Hcol'.
    + exact Hcell.
Qed.

(** What is appended for one point of the cluster. *)
Lemma place_member_frame (m : MapGenerator (G:=G)) (origin : Object)
  (radius : R) (isBarn : bool) (p : Point)
  (g g' : list (list (list Object))) (rs rs' : RS) :
  place_member normalize orientedAngle m origin radius isBarn p (g, rs)
  = Ok (g', rs') ->
  forall x y cell, cell_at g x y = Ok cell ->
    exists added, cell_at g' x y = Ok (cell ++ added)
      /\ Forall (fun o => pos o = member_pos origin radius p) added.
Proof.
  unfold place_member.
  set (position := member_pos origin radius p).
  set (pa := Zfloor (fst position / IZR (cellSize m))).
  set (pb := Zfloor (snd position / IZR (cellSize m))).
  destruct ((pa >? gridWidth m - 1) || (pa <? 0)
            || (pb >? gridHeight m - 1) || (pb <? 0))%Z.
  - intros [= <- <-] x y cell Hcell. exists []. rewrite app_nil_r. auto.
  - set (point := mkObject position pa pb EmptyString 0).
    destruct (if isBarn
              then let (r, rs1) := rand rs in
                   (match Z.rem r 3 with
                    | 0%Z => set_rotation (set_type point "barn") 0
                    | 1%Z => set_rotation (set_type point "barn") 90
                    | 2%Z => set_rotation (set_type point "barn")
                               (orientedAngle (normalize (pos origin))
                                  (normalize
                                     (fst position - fst (pos origin),
                                      snd position - snd (pos origin))))
                    | _ => set_type point "barn"
                    end, rs1)
              else (set_type point "tree", rs)) as [point' rs1] eqn:Hpt.
    assert (Hpos : pos point' = position).
    { destruct isBarn.
      - destruct (rand rs) as [r rs2]. injection Hpt as <- _.
        destruct (Z.rem r 3) as [|[[q|q|]|[q|q|]|]|q]; reflexivity.
      - now injection Hpt as <- _. }
    destruct (cell_push_back g pa pb point') as [g1|] eqn:Hpush;
      cbn [bind]; [|discriminate].
    intros [= <- <-] x y cell Hcell.
    destruct (cell_push_back_frame _ _ _ _ _ Hpush _ _ _ Hcell)
      as (added & Hadded & [->| ->]).
    + exists []. auto.
    + exists [point']. split; [exact Hadded|]. now repeat constructor.
Qed.

Lemma place_members_frame (m : MapGenerator (G:=G)) (origin : Object)
  (radius : R) (isBarn : bool) (Points : list Point)
  (g g' : list (list (list Object))) (rs rs' : RS) :
  place_members normalize orientedAngle m origin radius isBarn Points (g, rs)
  = Ok (g', rs') ->
  forall x y cell, cell_at g x y = Ok cell ->
    exists added, cell_at g' x y = Ok (cell ++ added)
      /\ Forall (fun o => exists p, In p Points
                            /\ pos o = member_pos origin radius p) added.
Proof.
  revert g rs. induction Points as [|p rest IH]; intros g rs Hpl;
    cbn [place_members] in Hpl.
  - injection Hpl as <- <-. intros x y cell Hcell.
    exists []. rewrite app_nil_r. auto.
  - destruct (place_member normalize orientedAngle m origin radius isBarn p
                (g, rs)) as [[g1 rs1]|] eqn:H1; cbn [bind] in Hpl;
      [|discriminate].
    intros x y cell Hcell.
    destruct (place_member_frame _ _ _ _ _ _ _ _ _ H1 _ _ _ Hcell)
      as (a1 & Hc1 & Hp1).
    destruct (IH _ _ Hpl _ _ _ Hc1) as (a2 & Hc2 & Hp2).
    exists (a1 ++ a2). rewrite app_assoc. split; [exact Hc2|].
    apply Forall_app. split.
    + eapply Forall_impl; [|exact Hp1]. intros o Ho. exists p.
      split; [now left | exact Ho].
    + eapply Forall_impl; [|exact Hp2]. intros o (p' & Hin & Ho).
      exists p'. split; [now right | exact Ho].
Qed.

(** [GenerateCluster], step by step: the kind, the radius and the count
    are drawn, the sampler is run, and the placement grid gets, at the end
    of some of its cells, members placed by [member_pos]. *)
Lemma GenerateCluster_spec (fuel : nat) (origin : Object)
  (m m' : MapGenerator (G:=G)) (rs rs' : RS) :
  GenerateCluster normalize orientedAngle fuel origin m rs = Ok (m', rs') ->
  let isBarn := (Z.rem (fst (rand rs)) 100 <? 20)%Z in
  let radius := fst (cluster_radius m isBarn (snd (rand rs))) in
  let n := fst (cluster_count isBarn
                  (snd (cluster_radius m isBarn (snd (rand rs))))) in
  exists Points g',
    generatePoissonPoints fuel (Z.to_nat n) (PRNG_ m) 70 true (-1)
    = Ok (Points, g')
    /\ forall x y cell, cell_at (grid m) x y = Ok cell ->
         exists added, cell_at (grid m') x y = Ok (cell ++ added)
           /\ Forall (fun o => exists p, In p Points
                                 /\ pos o = member_pos origin radius p) added.
Proof.
  unfold GenerateCluster. destruct (rand rs) as [r0 rs1]. cbn [fst snd].
  destruct (cluster_radius m (Z.rem r0 100 <? 20)%Z rs1) as [radius rs2].
  cbn [fst snd].
  destruct (clearing_scan m origin radius) as [copies|]; cbn [bind];
    [|discriminate].
  destruct (cluster_count (Z.rem r0 100 <? 20)%Z rs2) as [n rs3].
  cbn [fst snd].
  destruct (generatePoissonPoints fuel (Z.to_nat n) (PRNG_ m) 70 true (-1))
    as [[Points g']|]; cbn [bind]; [|discriminate].
  destruct (place_members normalize orientedAngle m origin radius
              (Z.rem r0 100 <? 20)%Z Points (grid m, rs3))
    as [[g1 rs4]|] eqn:Hpl; cbn [bind]; [|discriminate].
  intros [= <- <-]. exists Points, g'. split; [reflexivity|].
  intros x y cell Hcell. cbn [grid with_grid].
  exact (place_members_frame _ _ _ _ _ _ _ _ _ Hpl _ _ _ Hcell).
Qed.

End PlacementGrid.

(** ** A run whose candidate falls on the edge of the square *)

Section EdgeRun.

Import PoissonGenerator Spec Runs.

Context {order : ArgOrder}.

Lemma sqrt2_bounds : 1 < sqrt 2 < 2.
Proof.
  pose proof sqrt2_pos as Hp. pose proof sqrt2_sq as Hs. split.
  - destruct (Rlt_dec 1 (sqrt 2)) as [|Hn]; [assumption|]. exfalso.
    assert (sqrt 2 * sqrt 2 <= 1 * 1)
      by (apply Rmult_le_compat; lra).
    lra.
  - destruct (Rlt_dec (sqrt 2) 2) as [|Hn]; [assumption|]. exfalso.
    assert (2 * 2 <= sqrt 2 * sqrt 2)
      by (apply Rmult_le_compat; lra).
    lra.
Qed.

Lemma edge_cellSize : cellSize_of (sqrt 2 / 2) = 1 / 2.
Proof. unfold cellSize_of. pose proof sqrt2_pos. field. lra. Qed.

(** A point whose first cell index is past the last row is written
    outside the vector of rows. *)
Lemma Grid_insert_outside (gr : Grid) (p : Point) :
  grid_wf gr ->
  (w_ gr <= fst (cell_of (cellSize_ gr) p))%Z ->
  Grid_insert gr p = Err OutOfBounds.
Proof.
  intros (Hw & Hh & Hlen & _) Hout. unfold cell_of in Hout.
  cbn [fst] in Hout. unfold Grid_insert.
  remember (g_x (imageToGrid p (cellSize_ gr))) as gi eqn:Egi. clear Egi.
  unfold vec_get. destruct (Z.ltb_spec gi 0); [reflexivity|].
  destruct (nth_error (grid_ gr) (Z.to_nat gi)) as [row|] eqn:Hrow;
    [|reflexivity].
  assert (Z.to_nat gi < List.length (grid_ gr))%nat
    by (apply nth_error_Some; congruence).
  lia.
Qed.

(** With [minDist = sqrt 2 / 2] the grid has 2 x 2 cells of size 1/2.  The
    first point is (1 - sqrt 2 / 2, 1 - sqrt 2 / 2); the candidate drawn
    around it with both draws at 0 is (1, 1 - sqrt 2 / 2): it is in the
    rectangle, no point is nearer than [minDist], and [insert] writes it
    to row 2 of a vector of 2 rows. *)
Lemma edge_run :
  generatePoissonPoints (G:=list R) 1 2 edge_script 1 false (sqrt 2 / 2)
  = Err OutOfBounds.
Proof.
  pose proof sqrt2_bounds as [Hlo Hhi].
  assert (Hmd : 0 < sqrt 2 / 2) by lra.
  assert (Heff : effective_minDist 2 (sqrt 2 / 2) = sqrt 2 / 2)
    by (apply effective_minDist_pos; lra).
  set (p := Point_xy (1 - sqrt 2 / 2) (1 - sqrt 2 / 2)).
  set (q := Point_xy 1 (1 - sqrt 2 / 2)).
  assert (Hp : isInRectangle p = true).
  { unfold isInRectangle. simpl.
    repeat (apply andb_true_intro; split); apply fle_true; lra. }
  assert (Hq : isInRectangle q = true).
  { unfold isInRectangle. simpl.
    repeat (apply andb_true_intro; split); apply fle_true; lra. }
  assert (Hfp : firstPoint_loop (G:=list R) 1 false edge_script
                = Ok (p, [0; 0])).
  { apply firstPoint_same. exact Hp. }
  destruct (seed_state_Ok 1 edge_script [0; 0] false (sqrt 2 / 2) p Hmd
              ltac:(apply grid_fits_ge; lra) Hfp)
    as [gr0 Hseed]; [simpl; lra | simpl; lra |].
  destruct (seed_state_spec _ _ _ _ _ Hmd Hseed) as [HI0 _].
  pose (st1 := mkState (G:=list R) [p] [] gr0 [0; 0]).
  assert (HI1 : Inv false (sqrt 2 / 2) st1).
  { apply (Inv_shrink false (sqrt 2 / 2) _ [] [0; 0] HI0). intros x []. }
  assert (Hgen : generateRandomPointAround p (sqrt 2 / 2) (generator st1)
                 = (q, [])).
  { simpl. rewrite around_zero_angle. unfold q. simpl. f_equal. f_equal; lra. }
  assert (Hscan : isInNeighbourhood gr0 q (sqrt 2 / 2)
                    (cellSize_of (sqrt 2 / 2)) = Ok false).
  { destruct (isInNeighbourhood_total gr0 q (sqrt 2 / 2)
                (cellSize_of (sqrt 2 / 2)) (inv_wf _ _ _ HI1)) as [[|] Hb];
      [|exact Hb].
    exfalso. apply isInNeighbourhood_true in Hb as (i & j & P & Hg & Hv & Hd).
    destruct (inv_only _ _ _ HI1 _ _ _ Hg Hv) as [[<-|[]] _].
    apply getDistance_lt in Hd; [|exact Hmd]. simpl in Hd.
    pose proof sqrt2_sq. lra. }
  assert (Hins : Grid_insert gr0 q = Err OutOfBounds).
  { apply Grid_insert_outside; [exact (inv_wf _ _ _ HI1)|].
    change gr0 with (grid st1).
    rewrite (inv_cs _ _ _ HI1), (inv_width _ _ _ HI1), edge_cellSize.
    unfold cell_of, imageToGrid. cbn [fst g_x p_x q Point_xy].
    replace (1 / (1 / 2)) with (IZR 2) by field.
    rewrite (Zceil_eq 2) by lra. rewrite !truncZ_IZR. lia. }
  unfold generatePoissonPoints, generatePoissonPoints_state.
  rewrite Heff, Hseed. cbn [bind]. simpl main_loop.
  cbn [loop_cond samplePoints processList List.length negb andb Nat.ltb
       Nat.leb].
  unfold popRandom. simpl.
  fold st1. unfold candidate. rewrite Hgen.
  cbn [inShape]. rewrite Hq. cbn [grid st1].
  rewrite Hscan. cbn [bind andb negb]. rewrite Hins. reflexivity.
Qed.

End EdgeRun.

(** ** The cluster pass on two small maps *)

Section ConcreteMaps.

Import PoissonGenerator MapGenerator Runs.

Context {order : ArgOrder}.

#[export] Instance zero_rand_range : CRand_range unit.
Proof. constructor. intros rs. simpl. lia. Qed.

Lemma distance_lt (p q : vec2) (r : R) :
  0 < r ->
  (fst p - fst q) * (fst p - fst q) + (snd p - snd q) * (snd p - snd q)
  < r * r ->
  distance p q < r.
Proof.
  intros Hr Hsq. unfold distance.
  replace r with (sqrt (r * r)) by (apply sqrt_square; lra).
  apply sqrt_lt_1_alt. split; [|exact Hsq].
  apply Rplus_le_le_0_compat.
  - apply (Rle_0_sqr (fst p - fst q)).
  - apply (Rle_0_sqr (snd p - snd q)).
Qed.

Lemma distance_le (p q : vec2) (r : R) :
  0 <= r ->
  (fst p - fst q) * (fst p - fst q) + (snd p - snd q) * (snd p - snd q)
  <= r * r ->
  distance p q <= r.
Proof.
  intros Hr Hsq. unfold distance.
  replace r with (sqrt (r * r)) by (apply sqrt_square; lra).
  apply sqrt_le_1_alt. exact Hsq.
Qed.

(** Whatever the map and the origin, the scan looks into cells at the
    offsets -1 and 0 only. *)
Lemma scanned_cells_range {G : Type} (m : MapGenerator (G:=G))
  (origin : Object) (cx cy : Z) :
  In (cx, cy) (scanned_cells m origin) ->
  (a origin - 1 <= cx <= a origin)%Z /\ (b origin - 1 <= cy <= b origin)%Z.
Proof.
  unfold scanned_cells. change (for_range (-1) 1) with [(-1)%Z; 0%Z].
  cbn [flat_map app].
  repeat match goal with
         | |- context [outside_map ?m ?x ?y] => destruct (outside_map m x y)
         end;
    cbn [app In]; intros Hin;
    repeat match goal with
           | H : _ \/ _ |- _ => destruct H as [H|H]
           | H : (_, _) = (_, _) |- _ => injection H as <- <-
           | H : False |- _ => destruct H
           end; lia.
Qed.

Lemma scanned_cells_map0 : scanned_cells map0 origin0 = [(0, 0)%Z].
Proof. reflexivity. Qed.

Lemma scanned_cells_map1 :
  scanned_cells map1 origin1 = [(0, 0); (0, 1); (1, 0); (1, 1)]%Z.
Proof. reflexivity. Qed.

Lemma hay0_near : distance (pos origin0) (pos hay0) < 20.
Proof. apply distance_lt; simpl; lra. Qed.

Lemma hay1_near : distance (pos origin1) (pos hay1) < 20.
Proof. apply distance_lt; simpl; lra. Qed.

(** The clearing scan around [origin0] works on a copy of the origin and
    on a copy of the hay, and marks both copies. *)
Lemma clearing_scan_map0 :
  clearing_scan map0 origin0 20
  = Ok [set_type origin0 "default"; set_type hay0 "default"].
Proof.
  unfold clearing_scan. rewrite scanned_cells_map0.
  cbn [clearing_scan_cells].
  change (cell_at (grid map0) 0 0) with (Ok [origin0; hay0]).
  cbn [bind map app]. unfold clearing_body.
  replace (flt (distance (pos origin0) (pos origin0)) 20) with true
    by (symmetry; apply flt_true, distance_lt; simpl; lra).
  replace (flt (distance (pos origin0) (pos hay0)) 20) with true
    by (symmetry; apply flt_true, hay0_near).
  reflexivity.
Qed.

(** The clearing scan around [origin1] works on a copy of the origin
    only. *)
Lemma clearing_scan_map1 :
  clearing_scan map1 origin1 20 = Ok [set_type origin1 "default"].
Proof.
  unfold clearing_scan. rewrite scanned_cells_map1.
  cbn [clearing_scan_cells].
  change (cell_at (grid map1) 0 0) with (Ok (@nil Object)).
  change (cell_at (grid map1) 0 1) with (Ok (@nil Object)).
  change (cell_at (grid map1) 1 0) with (Ok (@nil Object)).
  change (cell_at (grid map1) 1 1) with (Ok [origin1]).
  cbn [bind map app]. unfold clearing_body.
  replace (flt (distance (pos origin1) (pos origin1)) 20) with true
    by (symmetry; apply flt_true, distance_lt; simpl; lra).
  reflexivity.
Qed.

Lemma member_cell0 :
  Zfloor (fst (member_pos origin0 20 (Point_xy (1 / 2) (1 / 2))) / 20) = 0%Z
  /\ Zfloor (snd (member_pos origin0 20 (Point_xy (1 / 2) (1 / 2))) / 20)
     = 0%Z.
Proof.
  unfold member_pos, origin0. cbn [fst snd pos p_x p_y Point_xy].
  split; apply Zfloor_eq; lra.
Qed.

(** The cluster pass around [origin0]: a barn cluster of radius 20 with
    one member, appended to cell (0, 0). *)
Lemma cluster_run0 (fuel : nat) :
  GenerateCluster (G:=unit) (RS:=unit) (fun v => v) (fun _ _ => 0) (S fuel)
    origin0 map0 tt
  = Ok (with_grid map0
          (([origin0; hay0; barn0] :: repeat [] 4)
           :: repeat (repeat [] 5) 4), tt).
Proof.
  unfold GenerateCluster. cbn [rand zero_rand].
  change (Z.rem 0 100 <? 20)%Z with true.
  cbn [cluster_radius cluster_count rand zero_rand].
  change (IZR (cellSize map0)) with 20.
  rewrite clearing_scan_map0. cbn [bind].
  change (Z.to_nat (Z.rem 0 6 + 1)) with 1%nat.
  change (PRNG_ map0) with tt.
  rewrite (half_run fuel 1 70 true (-1) (le_n 1))
    by (rewrite effective_minDist_one; first [lra | apply grid_fits_ge; lra]).
  cbn [bind place_members]. unfold place_member.
  change (IZR (cellSize map0)) with 20.
  destruct member_cell0 as [-> ->].
  reflexivity.
Qed.

End ConcreteMaps.

(** ** A run past the number of points asked for, and a run of
    [GenerateMap] that ends on an exception *)

Section MoreRuns.

Import PoissonGenerator Spec Runs.

Context {order : ArgOrder}.

(** The angle drawn with [R2 = 1/2] is in the second or third quadrant. *)
Lemma cos_script_angle : -1 <= cos (2 * 3.141592653589 * (1 / 2)) <= 0.
Proof.
  split; [apply COS_bound|].
  pose proof PI_4. pose proof PI2_3_2.
  apply cos_le_0; lra.
Qed.

(** Two points asked for, two candidates per active point: the first
    point and both its candidates are returned, three points. *)
Lemma overshoot_run :
  generatePoissonPoints (G:=list R) 1 2 overshoot_script 2 false (1 / 4)
  = Ok ([Point_xy (1 / 2) (1 / 2); Point_xy (3 / 4) (1 / 2);
         overshoot_third], []).
Proof.
  assert (Hmd : 0 < 1 / 4) by lra.
  assert (Heff : effective_minDist 2 (1 / 4) = 1 / 4)
    by (apply effective_minDist_pos; lra).
  pose proof cos_script_angle as [Hc1 Hc0].
  pose proof (SIN_bound (2 * 3.141592653589 * (1 / 2))) as [Hs1 Hs0].
  pose proof (sin2_cos2 (2 * 3.141592653589 * (1 / 2))) as Hsc.
  unfold Rsqr in Hsc.
  set (p0 := Point_xy (1 / 2) (1 / 2)).
  set (q1 := Point_xy (3 / 4) (1 / 2)).
  assert (Hq1 : inShape false q1 = true).
  { simpl. unfold isInRectangle. simpl.
    repeat (apply andb_true_intro; split); apply fle_true; lra. }
  assert (Hq2 : inShape false overshoot_third = true).
  { simpl. unfold isInRectangle, overshoot_third. simpl.
    repeat (apply andb_true_intro; split); apply fle_true; lra. }
  assert (Hfp : firstPoint_loop (G:=list R) 1 false overshoot_script
                = Ok (p0, [0; 0; 0; 1 / 2])).
  { apply firstPoint_same. exact (centre_in_shape false). }
  destruct (seed_state_Ok 1 overshoot_script _ false (1 / 4) p0 Hmd
              ltac:(apply grid_fits_ge; lra) Hfp)
    as [gr0 Hseed]; [simpl; lra | simpl; lra |].
  destruct (seed_state_spec _ _ _ _ _ Hmd Hseed) as [HI0 _].
  pose (st1 := mkState (G:=list R) [p0] [] gr0 [0; 0; 0; 1 / 2]).
  assert (HI1 : Inv false (1 / 4) st1).
  { apply (Inv_shrink false (1 / 4) _ [] _ HI0). intros x []. }
  assert (Hgen1 : generateRandomPointAround p0 (1 / 4) (generator st1)
                  = (q1, [0; 1 / 2])).
  { simpl. rewrite around_zero_angle. unfold q1. simpl. f_equal. f_equal; lra. }
  destruct (candidate_accept false (1 / 4) p0 q1 st1 _ Hmd HI1 Hgen1 Hq1)
    as [gr1 Hcand1]; [simpl; lra | simpl; lra | |].
  { intros p' [<-|[]]. apply Rnot_lt_le. intros Hlt.
    apply getDistance_lt in Hlt; [|exact Hmd]. simpl in Hlt. lra. }
  cbn [samplePoints processList st1 app] in Hcand1.
  set (st2 := mkState (G:=list R) [p0; q1] [q1] gr1 [0; 1 / 2]) in *.
  destruct (candidate_spec false (1 / 4) Hmd p0 st1 st2 HI1 Hcand1)
    as [HI2 _].
  assert (Hgen2 : generateRandomPointAround p0 (1 / 4) (generator st2)
                  = (overshoot_third, [])) by reflexivity.
  destruct (candidate_accept false (1 / 4) p0 overshoot_third st2 _ Hmd HI2
              Hgen2 Hq2) as [gr2 Hcand2].
  { unfold overshoot_third. simpl. lra. }
  { unfold overshoot_third. simpl. lra. }
  { intros p' [<-|[<-|[]]]; apply Rnot_lt_le; intros Hlt;
      apply getDistance_lt in Hlt; try exact Hmd;
      unfold overshoot_third in Hlt; simpl in Hlt; nra. }
  cbn [samplePoints processList st2 app] in Hcand2.
  unfold generatePoissonPoints, generatePoissonPoints_state.
  rewrite Heff, Hseed. cbn [bind]. simpl main_loop.
  cbn [loop_cond samplePoints processList List.length negb andb Nat.ltb
       Nat.leb].
  unfold popRandom. simpl vec_get. cbn [bind erase]. simpl Z.to_nat.
  change (Pos.to_nat 2) with 2%nat. cbn [candidates].
  fold st1. rewrite Hcand1. cbn [bind]. rewrite Hcand2. reflexivity.
Qed.

(** The equations of the loops. *)
Lemma main_loop_turn {G : Type} `{PRNG G} (fuel numPoints : nat) (k : Z)
  (isCircle : bool) (md c : R) (st st1 : State (G:=G)) (point : Point)
  (rest : list Point) (g' : G) :
  loop_cond numPoints st = true ->
  popRandom (processList st) (generator st) = Ok (point, rest, g') ->
  candidates (Z.to_nat k) isCircle md c point
    (mkState (samplePoints st) rest (grid st) g') = Ok st1 ->
  main_loop (S fuel) numPoints k isCircle md c st
  = main_loop fuel numPoints k isCircle md c st1.
Proof.
  intros Hcond Hpop Hc. cbn [main_loop]. rewrite Hcond, Hpop. cbn [bind].
  rewrite Hc. reflexivity.
Qed.

Lemma main_loop_exit {G : Type} `{PRNG G} (fuel numPoints : nat) (k : Z)
  (isCircle : bool) (md c : R) (st : State (G:=G)) :
  loop_cond numPoints st = false ->
  main_loop fuel numPoints k isCircle md c st = Ok st.
Proof. intros Hcond. destruct fuel; cbn [main_loop]; now rewrite Hcond. Qed.

Lemma candidates_first {G : Type} `{PRNG G} (n : nat) (isCircle : bool)
  (md c : R) (point : Point) (st st1 : State (G:=G)) :
  candidate isCircle md c point st = Ok st1 ->
  candidates (S n) isCircle md c point st
  = candidates n isCircle md c point st1.
Proof. intros Hc. cbn [candidates]. now rewrite Hc. Qed.

(** With [minDist = 1/5] the grid has 8 x 8 cells, x = 1 is in row 7 and
    y = 3/4 in column 5. *)
Lemma map_edge_cells :
  truncZ (IZR (Zceil (1 / cellSize_of (1 / 5)))) = 8%Z
  /\ truncZ (1 / cellSize_of (1 / 5)) = 7%Z
  /\ truncZ (3 / 4 / cellSize_of (1 / 5)) = 5%Z.
Proof.
  pose proof sqrt2_pos as Hp. pose proof sqrt2_sq as Hs.
  assert (Hlo : 7 / 5 < sqrt 2).
  { destruct (Rlt_dec (7 / 5) (sqrt 2)) as [|Hn]; [assumption|]. exfalso.
    assert (sqrt 2 * sqrt 2 <= 7 / 5 * (7 / 5))
      by (apply Rmult_le_compat; lra).
    lra. }
  assert (Hhi : sqrt 2 < 8 / 5).
  { destruct (Rlt_dec (sqrt 2) (8 / 5)) as [|Hn]; [assumption|]. exfalso.
    assert (8 / 5 * (8 / 5) <= sqrt 2 * sqrt 2)
      by (apply Rmult_le_compat; lra).
    lra. }
  assert (Hc : 1 / cellSize_of (1 / 5) = 5 * sqrt 2)
    by (unfold cellSize_of; field; lra).
  assert (Hc' : 3 / 4 / cellSize_of (1 / 5) = 15 / 4 * sqrt 2)
    by (unfold cellSize_of; field; lra).
  rewrite Hc, Hc'. repeat split.
  - rewrite (Zceil_eq 8) by lra. apply truncZ_IZR.
  - apply truncZ_eq; [lia | lra].
  - apply truncZ_eq; [lia | lra].
Qed.

Lemma around_empty_script (p : Point) (md : R) :
  generateRandomPointAround (G:=list R) p md []
  = (Point_xy (p_x p + md) (p_y p), []).
Proof.
  unfold generateRandomPointAround. simpl.
  rewrite Rmult_0_r, cos_0, sin_0. f_equal. f_equal; ring.
Qed.

(** The sampler run of [GenerateMap] on a map of 5 x 5 cells: the first
    point is (3/4, 3/4); its first candidate (1, 3/4), at distance 1/4 from
    it, is accepted; the later candidates around the first point,
    (19/20, 3/4), are too near to (1, 3/4), and the candidates around
    (1, 3/4), (6/5, 3/4), are outside the rectangle. *)
Lemma map_edge_points :
  generatePoissonPoints (G:=list R) 2 36 map_edge_script 50 false (1 / 5)
  = Ok ([Point_xy (3 / 4) (3 / 4); Point_xy 1 (3 / 4)], []).
Proof.
  assert (Hmd : 0 < 1 / 5) by lra.
  assert (Heff : effective_minDist 36 (1 / 5) = 1 / 5)
    by (apply effective_minDist_pos; lra).
  set (p0 := Point_xy (3 / 4) (3 / 4)).
  set (q := Point_xy 1 (3 / 4)).
  assert (Hp0 : isInRectangle p0 = true).
  { unfold isInRectangle. simpl.
    repeat (apply andb_true_intro; split); apply fle_true; lra. }
  assert (Hq : inShape false q = true).
  { simpl. unfold isInRectangle. simpl.
    repeat (apply andb_true_intro; split); apply fle_true; lra. }
  assert (Hfp : firstPoint_loop (G:=list R) 2 false map_edge_script
                = Ok (p0, [1 / 4; 0])).
  { apply firstPoint_same. exact Hp0. }
  destruct (seed_state_Ok 2 map_edge_script _ false (1 / 5) p0 Hmd
              ltac:(apply grid_fits_ge; lra) Hfp)
    as [gr0 Hseed]; [simpl; lra | simpl; lra |].
  destruct (seed_state_spec _ _ _ _ _ Hmd Hseed) as [HI0 _].
  pose (st1 := mkState (G:=list R) [p0] [] gr0 [1 / 4; 0]).
  assert (HI1 : Inv false (1 / 5) st1).
  { apply (Inv_shrink false (1 / 5) _ [] _ HI0). intros x []. }
  assert (Hgen1 : generateRandomPointAround p0 (1 / 5) (generator st1)
                  = (q, [])).
  { simpl. rewrite around_angle_zero. unfold q. simpl. f_equal. f_equal; lra. }
  assert (Hacc : exists gr1,
             candidate false (1 / 5) (cellSize_of (1 / 5)) p0 st1
             = Ok (mkState [p0; q] [q] gr1 [])).
  { (* the candidate (1, 3/4) is accepted: its cell (7, 5) is in the grid *)
    unfold candidate. rewrite Hgen1, Hq.
    destruct (isInNeighbourhood_total (grid st1) q (1 / 5)
                (cellSize_of (1 / 5)) (inv_wf _ _ _ HI1)) as [[|] Hb].
    - exfalso.
      apply isInNeighbourhood_true in Hb as (i & j & P & Hg & Hv & Hd).
      destruct (inv_only _ _ _ HI1 _ _ _ Hg Hv) as [[<-|[]] _].
      apply getDistance_lt in Hd; [|exact Hmd]. simpl in Hd. lra.
    - rewrite Hb. cbn [bind andb negb].
      destruct (Grid_insert_total (grid st1) q (inv_wf _ _ _ HI1))
        as [gr1 Hins].
      + rewrite (inv_cs _ _ _ HI1), (inv_width _ _ _ HI1).
        unfold cell_of, imageToGrid. cbn [fst g_x p_x q Point_xy].
        destruct map_edge_cells as (-> & -> & _). lia.
      + rewrite (inv_cs _ _ _ HI1), (inv_width _ _ _ HI1).
        unfold cell_of, imageToGrid. cbn [snd g_y p_y q Point_xy].
        destruct map_edge_cells as (-> & _ & ->). lia.
      + rewrite Hins. cbn [bind]. now exists gr1. }
  destruct Hacc as [gr1 Hcand1].
  set (st2 := mkState (G:=list R) [p0; q] [q] gr1 []) in *.
  destruct (candidate_spec false (1 / 5) Hmd p0 st1 st2 HI1 Hcand1)
    as [HI2 _].
  assert (Hcand2 : candidate false (1 / 5) (cellSize_of (1 / 5)) p0 st2
                   = Ok st2).
  { apply (candidate_reject_near false (1 / 5) p0
             (Point_xy (3 / 4 + 1 / 5) (3 / 4)) q st2 [] Hmd HI2).
    - simpl. now rewrite around_empty_script.
    - simpl. unfold isInRectangle. simpl.
      repeat (apply andb_true_intro; split); apply fle_true; lra.
    - right. now left.
    - apply getDistance_lt; [exact Hmd|]. simpl. lra. }
  pose (st3 := mkState (G:=list R) [p0; q] [] gr1 []).
  assert (Hcand3 : candidate false (1 / 5) (cellSize_of (1 / 5)) q st3
                   = Ok st3).
  { apply (candidate_reject_shape false (1 / 5) _ q
             (Point_xy (1 + 1 / 5) (3 / 4)) st3 []).
    - simpl. now rewrite around_empty_script.
    - simpl. unfold isInRectangle. simpl.
      replace (fle (1 + 1 / 5) 1) with false
        by (symmetry; apply fle_false; lra).
      now rewrite !andb_false_r. }
  unfold generatePoissonPoints, generatePoissonPoints_state.
  rewrite Heff, Hseed. cbn [bind].
  rewrite (main_loop_turn 1 36 50 false _ _ _ st2 p0 [] [1 / 4; 0]);
    [ | reflexivity | reflexivity | ].
  - rewrite (main_loop_turn 0 36 50 false _ _ st2 st3 q [] []);
      [ | reflexivity | reflexivity | ].
    + now rewrite main_loop_exit by reflexivity.
    + change (candidates 50 false (1 / 5) (cellSize_of (1 / 5)) q st3
              = Ok st3).
      apply candidates_idle. exact Hcand3.
  - change (candidates (S 49) false (1 / 5) (cellSize_of (1 / 5)) p0 st1
            = Ok st2).
    rewrite (candidates_first 49 _ _ _ _ _ _ Hcand1).
    apply candidates_idle. exact Hcand2.
Qed.

(** The binning loop then asks for [grid.at(5)] in a grid of 5 columns. *)
Lemma GenerateMap_edge_throws (normalize : MapGenerator.vec2 -> MapGenerator.vec2)
  (orientedAngle : MapGenerator.vec2 -> MapGenerator.vec2 -> R) :
  MapGenerator.GenerateMap (G:=list R) (RS:=unit) normalize orientedAngle 2
    (MapGenerator.MapGenerator_new map_edge_script 1 1) tt
  = Err OutOfRange.
Proof.
  unfold MapGenerator.GenerateMap.
  set (m := MapGenerator.MapGenerator_new map_edge_script 1 1).
  change (MapGenerator.gridWidth m) with 5%Z.
  change (MapGenerator.gridHeight m) with 5%Z.
  change (MapGenerator.density m) with 1.
  change (MapGenerator.PRNG_ m) with map_edge_script.
  change ((5 + 1) * (5 + 1))%Z with 36%Z. change (Z.min 5 5) with 5%Z.
  replace (IZR 36 * 1) with (IZR 36) by ring.
  rewrite truncZ_IZR. change (Z.to_nat 36) with 36%nat.
  replace (1 / (1 * 5)) with (1 / 5) by field.
  rewrite map_edge_points. cbn [bind MapGenerator.bin_points].
  unfold MapGenerator.bin_point.
  cbn [p_x p_y Point_xy fst snd MapGenerator.with_PRNG MapGenerator.width
       MapGenerator.height MapGenerator.cellSize m
       MapGenerator.MapGenerator_new MapGenerator.grid].
  change (IZR (1 * 100)) with 100.
  replace (Zfloor (3 / 4 * 100 / 20)) with 3%Z
    by (symmetry; apply Zfloor_eq; lra).
  replace (Zfloor (1 * 100 / 20)) with 5%Z
    by (symmetry; apply Zfloor_eq; lra).
  reflexivity.
Qed.

End MoreRuns.

(** ** Properties of [GenerateCluster] *)

Section ClusterTheorems.

Import PoissonGenerator MapGenerator Runs.

Context {G : Type} `{PRNG G} {order : ArgOrder} {RS : Type} `{CRand RS}.

Variable normalize : vec2 -> vec2.
Variable orientedAngle : vec2 -> vec2 -> R.

Lemma cluster_radius_nonneg `{!CRand_range RS} (m : MapGenerator (G:=G))
  (isBarn : bool) (rs : RS) :
  (0 < cellSize m)%Z -> 0 <= fst (cluster_radius m isBarn rs).
Proof.
  intros Hcs. apply IZR_lt in Hcs. unfold cluster_radius.
  destruct isBarn; cbn [fst]; [lra|].
  pose proof (rand_nonneg rs) as Hr. destruct (rand rs) as [r rs1].
  cbn [fst] in *.
  assert (Hrem : (0 <= Z.rem r 5)%Z) by (apply Z.rem_nonneg; lia).
  apply IZR_le in Hrem.
  apply Rmult_le_pos; [|lra].
  assert (0 <= IZR (Z.rem r 5) / 5); [|lra].
  unfold Rdiv. apply Rmult_le_pos; lra.
Qed.

(** A point of the disk is moved to within half the radius of the
    origin. *)
Lemma member_pos_near (origin : Object) (radius : R) (p : Point) :
  0 <= radius -> isInCircle p = true ->
  distance (pos origin) (member_pos origin radius p) <= radius / 2.
Proof.
  intros Hr Hc. unfold isInCircle in Hc. apply fle_true in Hc.
  replace 0.25 with (/ 4) in Hc by lra.
  replace 0.5 with (/ 2) in Hc by lra.
  apply distance_le; [lra|]. unfold member_pos. cbn [fst snd].
  set (A := (p_x p - / 2) * (p_x p - / 2) + (p_y p - / 2) * (p_y p - / 2))
    in *.
  replace ((fst (pos origin) - (fst (pos origin) + p_x p * radius - radius / 2))
           * (fst (pos origin)
              - (fst (pos origin) + p_x p * radius - radius / 2))
           + (snd (pos origin)
              - (snd (pos origin) + p_y p * radius - radius / 2))
             * (snd (pos origin)
                - (snd (pos origin) + p_y p * radius - radius / 2)))
    with (radius * radius * A) by (unfold A; field).
  replace (radius / 2 * (radius / 2)) with (radius * radius * / 4) by field.
  apply Rmult_le_compat_l; [|exact Hc].
  apply Rmult_le_pos; exact Hr.
Qed.

(** C10. Frame of [GenerateCluster]: every cell of the placement grid is,
    after the call, the cell it was before the call followed by the
    elements the call appended; every element stored before the call is
    still at its place, with the same position, type, cell coordinates and
    rotation. *)
Theorem GenerateCluster_frame (fuel : nat) (origin : Object)
  (m m' : MapGenerator (G:=G)) (rs rs' : RS) :
  GenerateCluster normalize orientedAngle fuel origin m rs = Ok (m', rs') ->
  forall x y cell, cell_at (grid m) x y = Ok cell ->
    exists added,
      cell_at (grid m') x y = Ok (cell ++ added)
      /\ forall i o, nth_error cell i = Some o ->
           nth_error (cell ++ added) i = Some o.
Proof.
  intros Hrun x y cell Hcell.
  destruct (GenerateCluster_spec _ _ _ _ _ _ _ _ Hrun)
    as (Points & g' & _ & Hframe).
  destruct (Hframe x y cell Hcell) as (added & Hadded & _).
  exists added. split; [exact Hadded|].
  intros i o Hi. rewrite nth_error_app1; [exact Hi|].
  apply nth_error_Some. congruence.
Qed.

(** C8. Cluster containment.  [GenerateCluster] asks the local sampler for
    points of the unit disk.  For every point [p] the sampler returns, the
    position the placement loop computes before it clips,
    [origin.pos + (p.x * radius, p.y * radius) - radius / 2], is within half
    the clearing radius, hence within the clearing radius, of the position
    of the origin.  Every element the call appends to the placement grid
    has the position given by that formula for one of the points, and is
    therefore within the clearing radius of the origin. *)
Theorem cluster_members_within_radius `{!CRand_range RS} (fuel : nat)
  (origin : Object) (m m' : MapGenerator (G:=G)) (rs rs' : RS) :
  (0 < cellSize m)%Z ->
  GenerateCluster normalize orientedAngle fuel origin m rs = Ok (m', rs') ->
  let isBarn := (Z.rem (fst (rand rs)) 100 <? 20)%Z in
  let radius := fst (cluster_radius m isBarn (snd (rand rs))) in
  let n := fst (cluster_count isBarn
                  (snd (cluster_radius m isBarn (snd (rand rs))))) in
  let offset (p : Point) : vec2 :=
    (fst (pos origin) + p_x p * radius - radius / 2,
     snd (pos origin) + p_y p * radius - radius / 2) in
  exists Points g',
    generatePoissonPoints fuel (Z.to_nat n) (PRNG_ m) 70 true (-1)
    = Ok (Points, g')
    /\ (forall p, In p Points ->
          member_pos origin radius p = offset p
          /\ distance (pos origin) (offset p) <= radius / 2
          /\ radius / 2 <= radius)
    /\ (forall x y cell, cell_at (grid m) x y = Ok cell ->
          exists added, cell_at (grid m') x y = Ok (cell ++ added)
            /\ Forall (fun o =>
                         (exists p, In p Points /\ pos o = offset p)
                         /\ distance (pos origin) (pos o) <= radius / 2
                         /\ distance (pos origin) (pos o) <= radius)
                 added).
Proof.
  intros Hcs Hrun isBarn radius n offset.
  destruct (GenerateCluster_spec _ _ _ _ _ _ _ _ Hrun)
    as (Points & g' & Hpts & Hframe).
  fold isBarn radius n in Hpts, Hframe.
  assert (Hr : 0 <= radius) by (apply cluster_radius_nonneg; exact Hcs).
  assert (Hnear : forall p, In p Points ->
            distance (pos origin) (offset p) <= radius / 2).
  { intros p Hp.
    pose proof (run_points_in_shape _ _ _ _ _ _ _ _ Hpts) as Hsh.
    rewrite Forall_forall in Hsh.
    apply (member_pos_near origin radius p Hr). exact (Hsh p Hp). }
  exists Points, g'. split; [exact Hpts|]. split.
  - intros p Hp. split; [reflexivity|]. split; [now apply Hnear | lra].
  - intros x y cell Hcell.
    destruct (Hframe x y cell Hcell) as (added & Hadded & Hall).
    exists added. split; [exact Hadded|].
    eapply Forall_impl; [|exact Hall].
    intros o (p & Hp & Hpos). specialize (Hnear p Hp).
    split; [exists p; split; [exact Hp | exact Hpos]|].
    change (member_pos origin radius p) with (offset p) in Hpos.
    rewrite Hpos. split; [exact Hnear | lra].
Qed.

End ClusterTheorems.

(** ** The cluster pass and the binning pass at work *)

Section MapWitnesses.

Import PoissonGenerator MapGenerator Runs.

Lemma GenerateCluster_frame_witness :
  exists m' : MapGenerator (G:=unit),
    GenerateCluster (RS:=unit) (fun v => v) (fun _ _ => 0) 1 origin0 map0 tt
    = Ok (m', tt)
    /\ cell_at (grid map0) 0 0 = Ok [origin0; hay0]
    /\ exists added, cell_at (grid m') 0 0 = Ok ([origin0; hay0] ++ added)
         /\ nth_error ([origin0; hay0] ++ added) 1 = Some hay0.
Proof.
  eexists. split; [exact (cluster_run0 0)|]. split; [reflexivity|].
  destruct (GenerateCluster_frame (fun v => v) (fun _ _ => 0) 1 origin0
              map0 _ tt tt (cluster_run0 0) 0%Z 0%Z [origin0; hay0] eq_refl)
    as (added & Hadded & Hkept).
  exists added. split; [exact Hadded|].
  exact (Hkept 1%nat hay0 eq_refl).
Defined.

(** C2 at a failing input.  The hay is in the cell of the origin and
    nearer to it than the clearing radius; the clearing scan marks a copy
    of it; after [GenerateCluster] the hay in the grid still has the type
    "hay", and the last loop of [GenerateMap] creates an instance for
    it.  The order of evaluation of the draws plays no part. *)
Theorem GenerateCluster_does_not_supersede {order : ArgOrder} :
  distance (pos origin0) (pos hay0) < 20
  /\ clearing_scan map0 origin0 20
     = Ok [set_type origin0 "default"; set_type hay0 "default"]
  /\ exists m' : MapGenerator (G:=unit),
       GenerateCluster (RS:=unit) (fun v => v) (fun _ _ => 0) 1 origin0 map0
         tt = Ok (m', tt)
       /\ cell_at (grid m') 0 0 = Ok [origin0; hay0; barn0]
       /\ type hay0 = "hay"%string
       /\ exists created,
            final_pass (RS:=unit) (grid m') (all_cells m') tt
            = Ok (created, tt)
            /\ In hay0_instance created.
Proof.
  split; [exact hay0_near|]. split; [exact clearing_scan_map0|].
  eexists. split; [exact (cluster_run0 0)|]. split; [reflexivity|].
  split; [reflexivity|].
  eexists. split; [reflexivity|]. left. reflexivity.
Qed.

(** C5 at a failing input.  The origin is in cell (1, 1); the scan looks
    into the cells (0, 0), (0, 1), (1, 0) and (1, 1); the hay in the next
    cell (2, 1), two units away from the origin, is not visited. *)
Theorem clearing_scan_skips_next_cells :
  scanned_cells map1 origin1 = [(0, 0); (0, 1); (1, 0); (1, 1)]%Z
  /\ ~ In (2, 1)%Z (scanned_cells map1 origin1)
  /\ cell_at (grid map1) 2 1 = Ok [hay1]
  /\ distance (pos origin1) (pos hay1) < 20
  /\ clearing_scan map1 origin1 20 = Ok [set_type origin1 "default"].
Proof.
  split; [exact scanned_cells_map1|]. split.
  - rewrite scanned_cells_map1. simpl. intros [E|[E|[E|[E|[]]]]]; discriminate.
  - split; [reflexivity|]. split; [exact hay1_near|].
    exact clearing_scan_map1.
Qed.

(** C4 at two failing inputs, in both orders of evaluation of the draws.
    In the sampler the candidate (1, 1 - sqrt 2 / 2) is in the rectangle,
    and [insert] writes it outside the grid.  In [GenerateMap] the sampler
    returns the point (1, 3/4), the binning loop scales it to x = 100, its
    cell index is 5 = [gridWidth], and [grid.at(5)] throws. *)
Theorem boundary_point_written_outside {order : ArgOrder} :
  generatePoissonPoints (G:=list R) 1 2 edge_script 1 false (sqrt 2 / 2)
  = Err OutOfBounds
  /\ generatePoissonPoints (G:=list R) 2 36 map_edge_script 50 false (1 / 5)
     = Ok ([Point_xy (3 / 4) (3 / 4); Point_xy 1 (3 / 4)], [])
  /\ forall normalize orientedAngle,
       GenerateMap (G:=list R) (RS:=unit) normalize orientedAngle 2
         (MapGenerator_new map_edge_script 1 1) tt
       = Err OutOfRange.
Proof.
  split; [exact edge_run|]. split; [exact map_edge_points|].
  exact GenerateMap_edge_throws.
Qed.

End MapWitnesses.

(** ** More on the sampling grid *)

Section GridProperties.

Import PoissonGenerator Spec Runs.


Lemma Grid_insert_not_in_grid (gr : Grid) (p : Point) (e : error) :
  Grid_insert gr p = Err e -> e = OutOfBounds.
Proof. apply Grid_insert_Err. Qed.







End GridProperties.

(** ** More on the steps of the sampler *)

Section StepProperties.

Import PoissonGenerator Spec Runs.

Context {G : Type} `{PRNG G} {order : ArgOrder}.

Lemma erase_Permutation {A : Type} (l : list A) (n : nat) (x : A) :
  nth_error l n = Some x -> Permutation l (x :: erase l n).
Proof.
  revert n. induction l as [|h t IH]; intros [|n] Hn; simpl in *;
    try discriminate.
  - injection Hn as ->. apply Permutation_refl.
  - apply perm_trans with (h :: x :: erase t n).
    + apply perm_skip. now apply IH.
    + apply perm_swap.
Qed.

Lemma erase_firstn_skipn {A : Type} (l : list A) (n : nat) :
  (n < List.length l)%nat -> erase l n = firstn n l ++ skipn (S n) l.
Proof.
  revert n. induction l as [|h t IH]; intros [|n] Hn; simpl in *;
    try lia; [reflexivity|].
  f_equal. apply IH. lia.
Qed.

(** X4. Popping an active point. From an empty list the read is outside the
    vector. From a list that is not empty, with a generator that keeps its
    draws between 0 and [maxValue], the index drawn by
    [randomInt(points.size() - 1)] is inside the list; the element at that
    index is returned, and the list that is left is made of the elements
    before that index followed by the elements after it, in their order; the
    generator has made that one draw. *)
Theorem popRandom_takes_one `{!PRNG_range G} (points : list Point)
  (generator : G) :
  (points = [] -> popRandom points generator = Err OutOfBounds)
  /\ (points <> [] ->
      let drawn := randomInt generator (Z.of_nat (List.length points) - 1) in
      let idx := Z.to_nat (fst drawn) in
      (0 <= fst drawn)%Z /\ (idx < List.length points)%nat
      /\ exists p,
           nth_error points idx = Some p
           /\ popRandom points generator
              = Ok (p, firstn idx points ++ skipn (S idx) points, snd drawn)
           /\ Permutation points
                (p :: firstn idx points ++ skipn (S idx) points)).
Proof.
  split.
  - intros ->. unfold popRandom.
    destruct (randomInt generator (Z.of_nat (List.length []) - 1))
      as [idx g1].
    unfold vec_get. destruct (idx <? 0)%Z; [reflexivity|].
    now destruct (Z.to_nat idx).
  - intros Hne drawn idx. unfold popRandom.
    assert (Hlen : (0 <= Z.of_nat (List.length points) - 1)%Z).
    { destruct points; [contradiction | simpl List.length; lia]. }
    pose proof (randomInt_range generator _ Hlen) as Hidx.
    fold drawn in Hidx. unfold idx. fold drawn.
    destruct drawn as [i g1]. cbn [fst snd] in *.
    split; [lia|]. split; [lia|].
    destruct (nth_error points (Z.to_nat i)) as [p|] eqn:Hn.
    + exists p. split; [reflexivity|].
      assert (Hg : vec_get points i = Ok p)
        by (apply vec_get_Ok; split; [lia | exact Hn]).
      rewrite Hg. cbn [bind].
      rewrite <- erase_firstn_skipn by lia.
      split; [reflexivity|]. now apply erase_Permutation.
    + apply nth_error_None in Hn. lia.
Qed.

(** X5. The candidate is drawn in a ring. With a generator that keeps its
    draws in [0, 1) and a [minDist] that is not negative, the point drawn
    around [p] is valid and its distance to [p] is [minDist * (R1 + 1)]: at
    least [minDist] and at most twice [minDist]. *)
Theorem generateRandomPointAround_ring `{!PRNG_range G} (p : Point)
  (minDist : R) (generator : G) :
  0 <= minDist ->
  let q := fst (generateRandomPointAround p minDist generator) in
  valid_ q = true
  /\ getDistance p q = minDist * (fst (randomFloat generator) + 1)
  /\ minDist <= getDistance p q <= 2 * minDist.
Proof.
  intros Hmd. unfold generateRandomPointAround.
  pose proof (randomFloat_range generator) as HR1.
  destruct (randomFloat generator) as [R1 g1].
  destruct (randomFloat g1) as [R2 g2]. cbn [fst snd] in *.
  set (r := minDist * (R1 + 1)). set (t := 2 * 3.141592653589 * R2).
  assert (Hr : 0 <= r) by (apply Rmult_le_pos; lra).
  assert (Hd : getDistance p (Point_xy (p_x p + r * cos t) (p_y p + r * sin t))
               = r).
  { unfold getDistance. cbn [p_x p_y Point_xy].
    pose proof (sin2_cos2 t) as Hsc. unfold Rsqr in Hsc.
    replace ((p_x p - (p_x p + r * cos t)) * (p_x p - (p_x p + r * cos t))
             + (p_y p - (p_y p + r * sin t)) * (p_y p - (p_y p + r * sin t)))
      with (r * r * (sin t * sin t + cos t * cos t)) by ring.
    rewrite Hsc, Rmult_1_r. now apply sqrt_square. }
  split; [reflexivity|]. split; [exact Hd|]. rewrite Hd. unfold r.
  split.
  - replace minDist with (minDist * 1) at 1 by ring.
    apply Rmult_le_compat_l; lra.
  - rewrite (Rmult_comm 2). apply Rmult_le_compat_l; lra.
Qed.

End StepProperties.

(** ** More on whole runs of the sampler *)

Section RunProperties.

Import PoissonGenerator Spec Runs.

Context {G : Type} `{PRNG G} {order : ArgOrder}.

Lemma candidates_grows_valid (n : nat) (isCircle : bool) (md c : R)
  (point : Point) (st st' : State (G:=G)) :
  candidates n isCircle md c point st = Ok st' ->
  exists added, samplePoints st' = samplePoints st ++ added
    /\ processList st' = processList st ++ added
    /\ Forall (fun q => valid_ q = true) added.
Proof.
  revert st. induction n as [|n IH]; intros st Hc; simpl in Hc.
  - injection Hc as <-. exists []. rewrite !app_nil_r. auto.
  - destruct (candidate isCircle md c point st) as [st1|] eqn:H1;
      cbn [bind] in Hc; [|discriminate].
    destruct (IH _ Hc) as (added & Hs & Hp & Hv).
    destruct (candidate_cases _ _ _ _ _ _ H1)
      as [(Es & Ep & _)|(q & Es & Ep & _ & Hq & _)].
    + exists added. rewrite Hs, Hp, Es, Ep. auto.
    + exists (q :: added). rewrite Hs, Hp, Es, Ep, <- !app_assoc.
      repeat split; auto.
Qed.

(** Accepted points are never dropped nor reordered by the loop, they are
    valid, and the active list holds accepted points only. *)
Lemma main_loop_extends (fuel numPoints : nat) (k : Z) (isCircle : bool)
  (md c : R) (st st' : State (G:=G)) :
  main_loop fuel numPoints k isCircle md c st = Ok st' ->
  incl (processList st) (samplePoints st) ->
  (exists added, samplePoints st' = samplePoints st ++ added
     /\ Forall (fun q => valid_ q = true) added)
  /\ incl (processList st') (samplePoints st').
Proof.
  revert st. induction fuel as [|fuel IH]; intros st Hm Hincl; simpl in Hm.
  - destruct (loop_cond numPoints st); [discriminate|].
    injection Hm as <-. split; [|exact Hincl].
    exists []. now rewrite app_nil_r.
  - destruct (loop_cond numPoints st).
    2:{ injection Hm as <-. split; [|exact Hincl].
        exists []. now rewrite app_nil_r. }
    destruct (popRandom (processList st) (generator st))
      as [[[point rest] g']|] eqn:Hpop; cbn [bind] in Hm; [|discriminate].
    destruct (popRandom_spec _ _ _ _ _ Hpop) as (Hrest & _ & _).
    destruct (candidates (Z.to_nat k) isCircle md c point
                (mkState (samplePoints st) rest (grid st) g'))
      as [st1|] eqn:Hc; cbn [bind] in Hm; [|discriminate].
    destruct (candidates_grows_valid _ _ _ _ _ _ _ Hc)
      as (a1 & Hs1 & Hp1 & Hv1).
    cbn [samplePoints processList] in Hs1, Hp1.
    destruct (IH _ Hm) as [(a2 & Hs2 & Hv2) Hincl'].
    + rewrite Hs1, Hp1. apply incl_app.
      * apply incl_appl. eapply incl_tran; eauto.
      * apply incl_appr, incl_refl.
    + split; [|exact Hincl'].
      exists (a1 ++ a2). rewrite Hs2, Hs1, app_assoc.
      split; [reflexivity|]. apply Forall_app. now split.
Qed.

(** X10. The sequence returned. Every run that returns gives the first point
    of the [do ... while] loop first, followed by the accepted candidates; all
    the points are valid; there is at least one point and at most [numPoints -
    1 + newPointsCount] (or one, if that is less). *)
Theorem generatePoissonPoints_sequence (fuel numPoints : nat) (g g' : G)
  (k : Z) (isCircle : bool) (minDist : R) (pts : list Point) :
  generatePoissonPoints fuel numPoints g k isCircle minDist = Ok (pts, g') ->
  (exists p g1 rest,
      firstPoint_loop fuel isCircle g = Ok (p, g1) /\ pts = p :: rest)
  /\ Forall (fun p => valid_ p = true) pts
  /\ (1 <= List.length pts
      <= Nat.max 1 (numPoints - 1 + Z.to_nat k))%nat.
Proof.
  intros Hrun.
  apply generatePoissonPoints_Ok in Hrun as (st & Hst & <- & _).
  unfold generatePoissonPoints_state in Hst.
  destruct (seed_state fuel g isCircle (effective_minDist numPoints minDist))
    as [st0|] eqn:Hseed; cbn [bind] in Hst; [|discriminate].
  pose proof (main_loop_bound _ _ _ _ _ _ _ _ Hst) as Hbound.
  rewrite seed_state_eq in Hseed.
  destruct (grid_size _) as [w|]; cbn [bind] in Hseed; [|discriminate].
  destruct (Grid_new _ _ _) as [gr0|]; cbn [bind] in Hseed; [|discriminate].
  destruct (firstPoint_loop fuel isCircle g) as [[p g1]|] eqn:Hfp;
    cbn [bind] in Hseed; [|discriminate].
  destruct (Grid_insert gr0 p) as [gr1|]; cbn [bind] in Hseed;
    [|discriminate].
  injection Hseed as <-.
  destruct (main_loop_extends _ _ _ _ _ _ _ _ Hst (incl_refl _))
    as [(added & Hs & Hv) _].
  cbn [samplePoints] in Hs, Hbound. rewrite Hs.
  destruct (firstPoint_loop_spec _ _ _ _ _ Hfp) as [_ Hvp].
  split; [|split].
  - exists p, g1, added. now split.
  - constructor; assumption.
  - rewrite Hs in Hbound. simpl in *. lia.
Qed.

(** X11. The loop ends. With a positive [minDist] whose grid has a width
    that is an [int], once the first point is found, [2 * numPoints] turns
    of fuel are enough: the run returns its points, or it stops on a write
    or a read outside a vector; it never runs out of fuel. *)
Theorem generatePoissonPoints_returns (fuel numPoints : nat) (g g1 : G)
  (k : Z) (isCircle : bool) (minDist : R) (p : Point) :
  0 < effective_minDist numPoints minDist ->
  grid_fits (effective_minDist numPoints minDist) ->
  firstPoint_loop fuel isCircle g = Ok (p, g1) ->
  (2 * numPoints <= fuel)%nat ->
  (exists pts g', generatePoissonPoints fuel numPoints g k isCircle minDist
                  = Ok (pts, g'))
  \/ generatePoissonPoints fuel numPoints g k isCircle minDist
     = Err OutOfBounds.
Proof.
  intros Hmd Hfit Hfp Hfuel.
  pose proof (generatePoissonPoints_ends fuel numPoints g g1 k isCircle
                minDist p Hfp Hfuel) as Hends.
  unfold generatePoissonPoints in *.
  destruct (generatePoissonPoints_state fuel numPoints g k isCircle minDist)
    as [st|e] eqn:Hst; cbn [bind] in *; [left; eauto|right].
  unfold generatePoissonPoints_state in Hst.
  destruct (seed_state fuel g isCircle (effective_minDist numPoints minDist))
    as [st0|e0] eqn:Hseed; cbn [bind] in Hst.
  - rewrite seed_state_eq in Hseed.
    destruct (grid_size _) as [w|]; cbn [bind] in Hseed; [|discriminate].
    destruct (Grid_new _ _ _) as [gr0|]; cbn [bind] in Hseed;
      [|discriminate].
    rewrite Hfp in Hseed. cbn [bind] in Hseed.
    destruct (Grid_insert gr0 p) as [gr1|]; cbn [bind] in Hseed;
      [|discriminate].
    injection Hseed as <-.
    apply main_loop_ends in Hst; [now subst e|].
    destruct numPoints as [|n]; [now left | right; simpl; lia].
  - injection Hst as ->. rewrite seed_state_eq in Hseed.
    rewrite (grid_size_fits _ Hmd Hfit) in Hseed. cbn [bind] in Hseed.
    destruct (gridW_spec _ Hmd) as [Hw _].
    destruct (Grid_new_Ok (truncZ (IZR (Zceil (1 / cellSize_of
                (effective_minDist numPoints minDist)))))
                (cellSize_of (effective_minDist numPoints minDist))
                ltac:(lia)) as (gr0 & Hnew & _).
    rewrite Hnew, Hfp in Hseed. cbn [bind] in Hseed.
    destruct (Grid_insert gr0 p) as [gr1|e1] eqn:Hins; cbn [bind] in Hseed;
      [discriminate|].
    injection Hseed as ->. now rewrite (Grid_insert_Err _ _ _ Hins).
Qed.


(** X7. The search for the first point has no bound of its own. If the
    generator stays in a set of states from which the two draws always give a
    point outside the shape, the [do ... while] loop does not end: it runs out
    of any fuel. *)
Theorem first_point_may_not_end (isCircle : bool) (stuck : G -> Prop) :
  (forall g, stuck g ->
     inShape isCircle
       (Point_xy (fst (randomFloat g))
          (fst (randomFloat (snd (randomFloat g))))) = false
     /\ stuck (snd (randomFloat (snd (randomFloat g))))) ->
  forall fuel g, stuck g ->
    firstPoint_loop fuel isCircle g = Err OutOfFuel.
Proof.
  intros Hstuck fuel. induction fuel as [|fuel IH]; intros g Hg;
    [reflexivity|].
  cbn [firstPoint_loop]. destruct (Hstuck g Hg) as [Hout Hnext].
  unfold draw_point.
  destruct (randomFloat g) as [x g1]. cbn [fst snd] in *.
  destruct (randomFloat g1) as [y g2]. cbn [fst snd] in *.
  replace (inShape isCircle
             (if right_to_left then Point_xy y x else Point_xy x y))
    with false; [now apply IH|].
  destruct right_to_left; [|now rewrite Hout].
  now rewrite <- Hout, inShape_swap.
Qed.

(** The failures of the sampler: an index outside a vector, a vector that
    cannot be built, or a loop that has not ended. *)
Lemma firstPoint_loop_Err (fuel : nat) (isCircle : bool) (g : G)
  (e : error) :
  firstPoint_loop fuel isCircle g = Err e -> e = OutOfFuel.
Proof.
  revert g. induction fuel as [|fuel IH]; intros g; simpl;
    [now intros [= <-]|].
  destruct (draw_point g) as [q g2].
  destruct (inShape isCircle q); [discriminate | apply IH].
Qed.

Lemma main_loop_Err (fuel numPoints : nat) (k : Z) (isCircle : bool)
  (md c : R) (st : State (G:=G)) (e : error) :
  main_loop fuel numPoints k isCircle md c st = Err e ->
  e = OutOfBounds \/ e = OutOfFuel.
Proof.
  revert st. induction fuel as [|fuel IH]; intros st; simpl.
  - destruct (loop_cond numPoints st); [|discriminate].
    intros [= <-]. now right.
  - destruct (loop_cond numPoints st); [|discriminate].
    destruct (popRandom (processList st) (generator st))
      as [[[point rest] g']|e1] eqn:Hpop; cbn [bind];
      [|intros [= <-]; left; eapply popRandom_Err; eauto].
    destruct (candidates (Z.to_nat k) isCircle md c point
                (mkState (samplePoints st) rest (grid st) g'))
      as [st1|e1] eqn:Hc; cbn [bind];
      [apply IH | intros [= <-]; left; eapply candidates_Err; eauto].
Qed.

Lemma generatePoissonPoints_Err (fuel numPoints : nat) (g : G) (k : Z)
  (isCircle : bool) (minDist : R) (e : error) :
  generatePoissonPoints fuel numPoints g k isCircle minDist = Err e ->
  e <> OutOfRange.
Proof.
  unfold generatePoissonPoints, generatePoissonPoints_state.
  destruct (seed_state fuel g isCircle (effective_minDist numPoints minDist))
    as [st0|e0] eqn:Hseed; cbn [bind].
  - destruct (main_loop fuel numPoints k isCircle _ _ st0) as [st|e1] eqn:Hm;
      cbn [bind]; [discriminate|].
    intros [= <-]. apply main_loop_Err in Hm as [->| ->]; discriminate.
  - intros [= <-]. rewrite seed_state_eq in Hseed.
    destruct (grid_size_cases
                (cellSize_of (effective_minDist numPoints minDist)))
      as [Hgs|Hgs]; rewrite Hgs in Hseed; cbn [bind] in Hseed;
      [injection Hseed as <-; discriminate|].
    destruct (Grid_new _ _ _) as [gr0|e1] eqn:Hnew; cbn [bind] in Hseed.
    + destruct (firstPoint_loop fuel isCircle g) as [[p g1]|e2] eqn:Hfp;
        cbn [bind] in Hseed.
      * destruct (Grid_insert gr0 p) as [gr1|e3] eqn:Hins;
          cbn [bind] in Hseed; [discriminate|].
        injection Hseed as <-. apply Grid_insert_Err in Hins. now subst.
      * injection Hseed as <-. apply firstPoint_loop_Err in Hfp. now subst.
    + injection Hseed as <-. unfold Grid_new in Hnew.
      destruct (_ <? 0)%Z; [injection Hnew as <-; discriminate|].
      destruct (_ && _)%bool; [|discriminate].
      injection Hnew as <-. discriminate.
Qed.

(** The fuel is a bound only: a result that is not [OutOfFuel] is the
    result with any larger fuel. *)
Lemma firstPoint_loop_more (fuel fuel' : nat) (isCircle : bool) (g : G) :
  (fuel <= fuel')%nat ->
  firstPoint_loop fuel isCircle g <> Err OutOfFuel ->
  firstPoint_loop fuel' isCircle g = firstPoint_loop fuel isCircle g.
Proof.
  revert fuel' g. induction fuel as [|fuel IH]; intros fuel' g Hle Hr;
    [now contradiction Hr|].
  destruct fuel' as [|fuel']; [lia|]. cbn [firstPoint_loop] in *.
  destruct (draw_point g) as [q g2].
  destruct (inShape isCircle q); [reflexivity|].
  apply IH; [lia | exact Hr].
Qed.

Lemma main_loop_more (fuel fuel' numPoints : nat) (k : Z) (isCircle : bool)
  (md c : R) (st : State (G:=G)) :
  (fuel <= fuel')%nat ->
  main_loop fuel numPoints k isCircle md c st <> Err OutOfFuel ->
  main_loop fuel' numPoints k isCircle md c st
  = main_loop fuel numPoints k isCircle md c st.
Proof.
  revert fuel' st. induction fuel as [|fuel IH]; intros fuel' st Hle Hr.
  - cbn [main_loop] in *.
    destruct (loop_cond numPoints st) eqn:Hc; [now contradiction Hr|].
    destruct fuel'; cbn [main_loop]; now rewrite Hc.
  - destruct fuel' as [|fuel']; [lia|]. cbn [main_loop] in *.
    destruct (loop_cond numPoints st); [|reflexivity].
    destruct (popRandom (processList st) (generator st))
      as [[[point rest] g']|e]; cbn [bind] in *; [|reflexivity].
    destruct (candidates (Z.to_nat k) isCircle md c point
                (mkState (samplePoints st) rest (grid st) g'))
      as [st1|e]; cbn [bind] in *; [|reflexivity].
    apply IH; [lia | exact Hr].
Qed.

Lemma generatePoissonPoints_more (fuel fuel' numPoints : nat) (g : G)
  (k : Z) (isCircle : bool) (minDist : R) :
  (fuel <= fuel')%nat ->
  generatePoissonPoints fuel numPoints g k isCircle minDist
  <> Err OutOfFuel ->
  generatePoissonPoints fuel' numPoints g k isCircle minDist
  = generatePoissonPoints fuel numPoints g k isCircle minDist.
Proof.
  intros Hle. unfold generatePoissonPoints, generatePoissonPoints_state.
  rewrite !seed_state_eq.
  destruct (grid_size _) as [w|e]; cbn [bind]; [|reflexivity].
  destruct (Grid_new _ _ _) as [gr0|e]; cbn [bind]; [|reflexivity].
  destruct (firstPoint_loop fuel isCircle g) as [[p g1]|e] eqn:Hfp;
    cbn [bind].
  - rewrite (firstPoint_loop_more fuel fuel' isCircle g Hle)
      by (rewrite Hfp; discriminate).
    rewrite Hfp. cbn [bind].
    destruct (Grid_insert gr0 p) as [gr1|e]; cbn [bind]; [|reflexivity].
    intros Hr.
    rewrite (main_loop_more fuel fuel' numPoints k isCircle _ _ _ Hle);
      [reflexivity|].
    intros Hm. apply Hr. now rewrite Hm.
  - apply firstPoint_loop_Err in Hfp as ->. intros Hr. now contradiction Hr.
Qed.

End RunProperties.

(** ** More on the placement grid *)

Section PlacementProperties.

Import PoissonGenerator MapGenerator MapSpec Runs.

Lemma vec_at_Err {A : Type} (v : list A) (i : Z) (e : error) :
  vec_at v i = Err e -> e = OutOfRange.
Proof.
  unfold vec_at. destruct (i <? 0)%Z; [congruence|].
  destruct (nth_error v (Z.to_nat i)); congruence.
Qed.

Lemma vec_at_in_range {A : Type} (v : list A) (i : Z) :
  (0 <= i < Z.of_nat (List.length v))%Z -> exists x, vec_at v i = Ok x.
Proof.
  intros Hi. unfold vec_at. destruct (Z.ltb_spec i 0); [lia|].
  destruct (nth_error v (Z.to_nat i)) as [x|] eqn:Hn; [now exists x|].
  apply nth_error_None in Hn. lia.
Qed.

Lemma vec_at_out_of_range {A : Type} (v : list A) (i : Z) :
  ~ (0 <= i < Z.of_nat (List.length v))%Z -> vec_at v i = Err OutOfRange.
Proof.
  intros Hi. unfold vec_at. destruct (Z.ltb_spec i 0); [reflexivity|].
  destruct (nth_error v (Z.to_nat i)) as [x|] eqn:Hn; [|reflexivity].
  exfalso. apply Hi.
  assert (Z.to_nat i < List.length v)%nat
    by (apply nth_error_Some; congruence).
  lia.
Qed.

Lemma cell_at_in_range (gw gh : Z) (g : list (list (list Object)))
  (x y : Z) :
  pgrid_wf gw gh g -> (0 <= x < gw)%Z -> (0 <= y < gh)%Z ->
  exists cell, cell_at g x y = Ok cell.
Proof.
  intros (Hw & Hh & Hlen & Hcols) Hx Hy. unfold cell_at.
  destruct (vec_at_in_range g x ltac:(lia)) as [col Hcol].
  rewrite Hcol. cbn [bind].
  apply vec_at_Ok in Hcol as [_ Hcol]. apply nth_error_In in Hcol.
  rewrite Forall_forall in Hcols. apply Hcols in Hcol.
  apply vec_at_in_range. lia.
Qed.

Lemma cell_at_out_of_range (gw gh : Z) (g : list (list (list Object)))
  (x y : Z) :
  pgrid_wf gw gh g -> ~ ((0 <= x < gw)%Z /\ (0 <= y < gh)%Z) ->
  cell_at g x y = Err OutOfRange.
Proof.
  intros (Hw & Hh & Hlen & Hcols) Hout. unfold cell_at.
  destruct (vec_at g x) as [col|e] eqn:Hcol; cbn [bind].
  - pose proof Hcol as Hcol'.
    apply vec_at_Ok in Hcol as [Hx Hcol].
    assert (Z.to_nat x < List.length g)%nat
      by (apply nth_error_Some; congruence).
    apply nth_error_In in Hcol.
    rewrite Forall_forall in Hcols. apply Hcols in Hcol.
    apply vec_at_out_of_range. lia.
  - now rewrite (vec_at_Err _ _ _ Hcol).
Qed.

Lemma cell_at_Err (g : list (list (list Object))) (x y : Z) (e : error) :
  cell_at g x y = Err e -> e = OutOfRange.
Proof.
  unfold cell_at. destruct (vec_at g x) as [col|e1] eqn:Hcol; cbn [bind].
  - apply vec_at_Err.
  - intros [= <-]. eapply vec_at_Err; eauto.
Qed.

(** What a cell holds after [push_back]. *)
Lemma cell_push_back_at (g g' : list (list (list Object))) (x y : Z)
  (o : Object) :
  cell_push_back g x y o = Ok g' ->
  forall x' y',
    cell_at g' x' y'
    = if ((x' =? x) && (y' =? y))%Z
      then (c <- cell_at g x y ;; Ok (c ++ [o]))
      else cell_at g x' y'.
Proof.
  unfold cell_push_back.
  destruct (vec_at g x) as [col|] eqn:Hcol; cbn [bind]; [|discriminate].
  destruct (vec_at col y) as [c0|] eqn:Hc0; cbn [bind]; [|discriminate].
  intros [= <-] x' y'.
  assert (Hxy : cell_at g x y = Ok c0)
    by (unfold cell_at; now rewrite Hcol).
  rewrite Hxy. cbn [bind].
  apply vec_at_Ok in Hcol as [Hx Hcol]. apply vec_at_Ok in Hc0 as [Hy Hc0].
  assert (Lx : (Z.to_nat x < List.length g)%nat)
    by (apply nth_error_Some; congruence).
  assert (Ly : (Z.to_nat y < List.length col)%nat)
    by (apply nth_error_Some; congruence).
  unfold cell_at, vec_at.
  destruct (Z.ltb_spec x' 0).
  - replace (x' =? x)%Z with false by (symmetry; apply Z.eqb_neq; lia).
    reflexivity.
  - destruct (Z.eqb_spec x' x) as [->|Hnx]; cbn [andb].
    + rewrite list_update_same by exact Lx. rewrite Hcol. cbn [bind].
      destruct (Z.ltb_spec y' 0).
      * replace (y' =? y)%Z with false by (symmetry; apply Z.eqb_neq; lia).
        reflexivity.
      * destruct (Z.eqb_spec y' y) as [->|Hny].
        -- now rewrite list_update_same by exact Ly.
        -- now rewrite list_update_other by lia.
    + now rewrite list_update_other by lia.
Qed.

Lemma list_update_Forall {A : Type} (P : A -> Prop) (l : list A) (n : nat)
  (x : A) :
  Forall P l -> P x -> Forall P (list_update l n x).
Proof.
  intros Hl Hx. revert n. induction Hl as [|h t Hh Ht IH]; intros [|n];
    simpl; auto.
Qed.

Lemma cell_push_back_wf (gw gh : Z) (g g' : list (list (list Object)))
  (x y : Z) (o : Object) :
  pgrid_wf gw gh g -> cell_push_back g x y o = Ok g' -> pgrid_wf gw gh g'.
Proof.
  intros (Hw & Hh & Hlen & Hcols). unfold cell_push_back.
  destruct (vec_at g x) as [col|] eqn:Hcol; cbn [bind]; [|discriminate].
  destruct (vec_at col y) as [c0|] eqn:Hc0; cbn [bind]; [|discriminate].
  intros [= <-]. repeat split; auto.
  - now rewrite list_update_length.
  - apply list_update_Forall; [exact Hcols|].
    rewrite list_update_length.
    apply vec_at_Ok in Hcol as [_ Hcol]. apply nth_error_In in Hcol.
    rewrite Forall_forall in Hcols. now apply Hcols.
Qed.

Lemma cell_push_back_in_range (gw gh : Z) (g : list (list (list Object)))
  (x y : Z) (o : Object) :
  pgrid_wf gw gh g -> (0 <= x < gw)%Z -> (0 <= y < gh)%Z ->
  exists g', cell_push_back g x y o = Ok g'.
Proof.
  intros Hwf Hx Hy.
  destruct (cell_at_in_range gw gh g x y Hwf Hx Hy) as [cell Hcell].
  apply cell_at_Ok in Hcell as (col & Hcol & Hc).
  unfold cell_push_back. rewrite Hcol. cbn [bind]. rewrite Hc. cbn [bind].
  eexists. reflexivity.
Qed.

Lemma cell_push_back_out_of_range (gw gh : Z)
  (g : list (list (list Object))) (x y : Z) (o : Object) :
  pgrid_wf gw gh g -> ~ ((0 <= x < gw)%Z /\ (0 <= y < gh)%Z) ->
  cell_push_back g x y o = Err OutOfRange.
Proof.
  intros Hwf Hout.
  pose proof (cell_at_out_of_range gw gh g x y Hwf Hout) as Hcell.
  unfold cell_at in Hcell. unfold cell_push_back.
  destruct (vec_at g x) as [col|e]; cbn [bind] in *; [|congruence].
  destruct (vec_at col y) as [c|e]; cbn [bind]; [discriminate|congruence].
Qed.

Lemma cell_push_back_consistent (g g' : list (list (list Object)))
  (o : Object) :
  cells_consistent g -> cell_push_back g (a o) (b o) o = Ok g' ->
  cells_consistent g'.
Proof.
  intros Hc Hpush x y cell o' Hcell Hin.
  rewrite (cell_push_back_at _ _ _ _ _ Hpush) in Hcell.
  destruct (Z.eqb_spec x (a o)) as [->|Hx]; cbn [andb] in Hcell;
    [destruct (Z.eqb_spec y (b o)) as [->|Hy]|].
  - destruct (cell_at g (a o) (b o)) as [c|] eqn:Hold; cbn [bind] in Hcell;
      [|discriminate].
    injection Hcell as <-. apply in_app_or in Hin as [Hin|[<-|[]]].
    + eapply Hc; eauto.
    + now split.
  - eapply Hc; eauto.
  - eapply Hc; eauto.
Qed.

Lemma concat_update_length {A : Type} (l : list (list A)) (n : nat)
  (old new : list A) :
  nth_error l n = Some old ->
  (List.length (List.concat (list_update l n new)) + List.length old
   = List.length (List.concat l) + List.length new)%nat.
Proof.
  revert n. induction l as [|h t IH]; intros [|n] Hn; simpl in *;
    try discriminate.
  - injection Hn as ->. rewrite !length_app. lia.
  - rewrite !length_app. specialize (IH _ Hn). lia.
Qed.

Lemma concat2_update_length {A : Type} (l : list (list (list A))) (n : nat)
  (old new : list (list A)) :
  nth_error l n = Some old ->
  (List.length (List.concat (List.concat (list_update l n new)))
   + List.length (List.concat old)
   = List.length (List.concat (List.concat l))
     + List.length (List.concat new))%nat.
Proof.
  revert n. induction l as [|h t IH]; intros [|n] Hn; simpl in *;
    try discriminate.
  - injection Hn as ->. rewrite !concat_app, !length_app. lia.
  - rewrite !concat_app, !length_app. specialize (IH _ Hn). lia.
Qed.

Lemma cell_push_back_total (g g' : list (list (list Object))) (x y : Z)
  (o : Object) :
  cell_push_back g x y o = Ok g' ->
  total_objects g' = S (total_objects g).
Proof.
  unfold cell_push_back, total_objects.
  destruct (vec_at g x) as [col|] eqn:Hcol; cbn [bind]; [|discriminate].
  destruct (vec_at col y) as [c0|] eqn:Hc0; cbn [bind]; [|discriminate].
  intros [= <-].
  apply vec_at_Ok in Hcol as [_ Hcol]. apply vec_at_Ok in Hc0 as [_ Hc0].
  pose proof (concat_update_length col (Z.to_nat y) c0 (c0 ++ [o]) Hc0) as H1.
  pose proof (concat2_update_length g (Z.to_nat x) col
                (list_update col (Z.to_nat y) (c0 ++ [o])) Hcol) as H2.
  rewrite length_app in H1. simpl in H1. lia.
Qed.

End PlacementProperties.

(** ** More on the map generator *)

Section MapProperties.

Import PoissonGenerator MapGenerator MapSpec Runs.

Context {G : Type} `{PRNG G} {order : ArgOrder} {RS : Type} `{CRand RS}.

Variable normalize : vec2 -> vec2.
Variable orientedAngle : vec2 -> vec2 -> R.

Lemma repeat_nil_concat {A : Type} (n : nat) :
  List.concat (repeat (@nil A) n) = [].
Proof. induction n; simpl; auto. Qed.

Lemma repeat_nil_concat2 {A : Type} (n k : nat) :
  List.concat (List.concat (repeat (repeat (@nil A) k) n)) = [].
Proof.
  induction n as [|n IH]; simpl; [reflexivity|].
  rewrite concat_app, IH, repeat_nil_concat. reflexivity.
Qed.

(** X14. The constructor. For a map of [initWidth] x [initHeight] tiles the
    grid has [5 * initWidth] columns of [5 * initHeight] cells of size 20, all
    empty, and it covers the map exactly; a cell outside the grid cannot be
    read. *)
Theorem MapGenerator_new_grid (prng : G) (initWidth initHeight : Z) :
  (0 <= initWidth)%Z -> (0 <= initHeight)%Z ->
  let m := MapGenerator_new prng initWidth initHeight in
  cellSize m = 20%Z
  /\ gridWidth m = (5 * initWidth)%Z /\ gridHeight m = (5 * initHeight)%Z
  /\ width m = (gridWidth m * cellSize m)%Z
  /\ height m = (gridHeight m * cellSize m)%Z
  /\ pgrid_wf (gridWidth m) (gridHeight m) (grid m)
  /\ total_objects (grid m) = 0%nat
  /\ (forall x y, (0 <= x < gridWidth m)%Z -> (0 <= y < gridHeight m)%Z ->
        cell_at (grid m) x y = Ok [])
  /\ (forall x y, ~ ((0 <= x < gridWidth m)%Z /\ (0 <= y < gridHeight m)%Z) ->
        cell_at (grid m) x y = Err OutOfRange).
Proof.
  intros Hw Hh m.
  assert (Egw : gridWidth m = (5 * initWidth)%Z).
  { unfold m, MapGenerator_new. cbn [gridWidth].
    replace (initWidth * 100)%Z with (5 * initWidth * 20)%Z by lia.
    apply Z.quot_mul. lia. }
  assert (Egh : gridHeight m = (5 * initHeight)%Z).
  { unfold m, MapGenerator_new. cbn [gridHeight].
    replace (initHeight * 100)%Z with (5 * initHeight * 20)%Z by lia.
    apply Z.quot_mul. lia. }
  assert (Hwf : pgrid_wf (gridWidth m) (gridHeight m) (grid m)).
  { repeat split; try lia.
    - unfold m, MapGenerator_new. cbn [grid gridWidth].
      now rewrite repeat_length.
    - unfold m, MapGenerator_new. cbn [grid gridHeight].
      apply Forall_forall. intros col Hcol. apply repeat_spec in Hcol.
      subst col. now rewrite repeat_length. }
  split; [reflexivity|]. split; [exact Egw|]. split; [exact Egh|].
  split; [rewrite Egw; unfold m, MapGenerator_new; cbn [width cellSize]; lia|].
  split; [rewrite Egh; unfold m, MapGenerator_new; cbn [height cellSize]; lia|].
  split; [exact Hwf|]. split; [|split].
  - unfold total_objects, m, MapGenerator_new. cbn [grid].
    now rewrite repeat_nil_concat2.
  - intros x y Hx Hy.
    destruct (cell_at_in_range _ _ _ x y Hwf Hx Hy) as [cell Hcell].
    rewrite Hcell. f_equal.
    apply cell_at_Ok in Hcell as (col & Hcol & Hc).
    apply vec_at_Ok in Hcol as [_ Hcol]. apply nth_error_In in Hcol.
    unfold m, MapGenerator_new in Hcol. cbn [grid] in Hcol.
    apply repeat_spec in Hcol. subst col.
    apply vec_at_Ok in Hc as [_ Hc]. apply nth_error_In in Hc.
    now apply repeat_spec in Hc.
  - intros x y Hout. now apply (cell_at_out_of_range _ _ _ x y Hwf).
Qed.

(** The cell index of a scaled coordinate. *)
Lemma scaled_cell_index (v : R) (n c : Z) :
  (0 < c)%Z -> 0 <= v <= 1 ->
  let k := Zfloor (v * IZR (n * c) / IZR c) in
  (v < 1 -> (0 < n)%Z -> (0 <= k < n)%Z) /\ (v = 1 -> k = n).
Proof.
  intros Hc Hv k. apply IZR_lt in Hc as Hc'.
  assert (E : v * IZR (n * c) / IZR c = v * IZR n)
    by (rewrite mult_IZR; field; lra).
  unfold k. rewrite E. split.
  - intros Hlt Hn. apply IZR_lt in Hn as Hn'. split.
    + apply Zfloor_lub. apply Rmult_le_pos; lra.
    + pose proof (Zfloor_bound (v * IZR n)) as [Hlo _].
      apply lt_IZR.
      apply Rle_lt_trans with (v * IZR n); [exact Hlo|].
      rewrite <- (Rmult_1_l (IZR n)) at 2.
      apply Rmult_lt_compat_r; lra.
  - intros ->. rewrite Rmult_1_l. apply ZfloorZ.
Qed.

Lemma bin_point_unfold (m : MapGenerator (G:=G)) (p : Point)
  (g : list (list (list Object))) (rs : RS) :
  let position : vec2 := (p_x p * IZR (width m), p_y p * IZR (height m)) in
  let pa := Zfloor (fst position / IZR (cellSize m)) in
  let pb := Zfloor (snd position / IZR (cellSize m)) in
  let t := if (Z.rem (fst (rand rs)) 100 <? 15)%Z then "originPoint"%string
           else "hay"%string in
  bin_point m p (g, rs)
  = (g' <- cell_push_back g pa pb (mkObject position pa pb t 0) ;;
     Ok (g', snd (rand rs))).
Proof.
  unfold bin_point. destruct (rand rs) as [r rs1]. reflexivity.
Qed.

(** X15. The binning loop on points strictly inside the unit square. When the
    grid covers the map, the loop goes through; every point gets one object,
    of type "hay" or "originPoint", at the scaled position, appended to the
    cell its fields [a] and [b] name; nothing stored before is touched. *)
Theorem bin_points_inside (m : MapGenerator (G:=G)) (pts : list Point)
  (g : list (list (list Object))) (rs : RS) :
  (0 < cellSize m)%Z -> (0 < gridWidth m)%Z -> (0 < gridHeight m)%Z ->
  width m = (gridWidth m * cellSize m)%Z ->
  height m = (gridHeight m * cellSize m)%Z ->
  pgrid_wf (gridWidth m) (gridHeight m) g ->
  Forall (fun p => 0 <= p_x p < 1 /\ 0 <= p_y p < 1) pts ->
  exists g' rs',
    bin_points m pts (g, rs) = Ok (g', rs')
    /\ pgrid_wf (gridWidth m) (gridHeight m) g'
    /\ total_objects g' = (total_objects g + List.length pts)%nat
    /\ (cells_consistent g -> cells_consistent g')
    /\ forall x y cell, cell_at g x y = Ok cell ->
         exists added, cell_at g' x y = Ok (cell ++ added)
           /\ Forall (fun o =>
                        (type o = "hay"%string
                         \/ type o = "originPoint"%string)
                        /\ exists p, In p pts
                             /\ pos o = (p_x p * IZR (width m),
                                         p_y p * IZR (height m))) added.
Proof.
  intros Hcs Hgw Hgh Ew Eh Hwf Hpts. revert g rs Hwf.
  induction Hpts as [|p rest [[Hx0 Hx1] [Hy0 Hy1]] Hrest IH]; intros g rs Hwf.
  - exists g, rs. cbn [bin_points List.length].
    split; [reflexivity|]. split; [exact Hwf|]. split; [lia|].
    split; [auto|]. intros x y cell Hcell. exists [].
    rewrite app_nil_r. auto.
  - cbn [bin_points]. rewrite bin_point_unfold. cbn [fst snd].
    set (pa := Zfloor (p_x p * IZR (width m) / IZR (cellSize m))).
    set (pb := Zfloor (p_y p * IZR (height m) / IZR (cellSize m))).
    set (o := mkObject _ pa pb _ 0).
    assert (Ha : (0 <= pa < gridWidth m)%Z).
    { unfold pa. rewrite Ew.
      apply (scaled_cell_index (p_x p) (gridWidth m) (cellSize m) Hcs);
        [lra | lra | exact Hgw]. }
    assert (Hb : (0 <= pb < gridHeight m)%Z).
    { unfold pb. rewrite Eh.
      apply (scaled_cell_index (p_y p) (gridHeight m) (cellSize m) Hcs);
        [lra | lra | exact Hgh]. }
    destruct (cell_push_back_in_range _ _ g pa pb o Hwf Ha Hb) as [g1 Hpush].
    rewrite Hpush. cbn [bind].
    pose proof (cell_push_back_wf _ _ _ _ _ _ _ Hwf Hpush) as Hwf1.
    destruct (IH g1 (snd (rand rs)) Hwf1)
      as (g' & rs' & Hbin & Hwf' & Htot & Hcons & Hframe).
    exists g', rs'. split; [exact Hbin|]. split; [exact Hwf'|].
    split; [|split].
    + rewrite Htot, (cell_push_back_total _ _ _ _ _ Hpush).
      cbn [List.length]. lia.
    + intros Hc. apply Hcons.
      apply (cell_push_back_consistent g g1 o Hc). exact Hpush.
    + intros x y cell Hcell.
      destruct (cell_push_back_frame _ _ _ _ _ Hpush _ _ _ Hcell)
        as (a1 & Hc1 & Ha1).
      destruct (Hframe _ _ _ Hc1) as (a2 & Hc2 & Ha2).
      exists (a1 ++ a2). rewrite app_assoc. split; [exact Hc2|].
      apply Forall_app. split.
      * destruct Ha1 as [->| ->]; constructor; [|constructor].
        split.
        -- unfold o. cbn [type].
           destruct (Z.rem (fst (rand rs)) 100 <? 15)%Z; auto.
        -- exists p. split; [now left | reflexivity].
      * eapply Forall_impl; [|exact Ha2].
        intros o' [Ht (p' & Hin & Hpos)]. split; [exact Ht|].
        exists p'. split; [now right | exact Hpos].
Qed.

(** X16. The binning loop on a point of the edge. When the grid covers the map
    and the points are in the closed unit square, one point with [x = 1] or [y
    = 1] is enough for the loop to stop on the exception of [vector::at]. *)
Theorem bin_points_on_edge (m : MapGenerator (G:=G)) (pts : list Point)
  (g : list (list (list Object))) (rs : RS) :
  (0 < cellSize m)%Z -> (0 < gridWidth m)%Z -> (0 < gridHeight m)%Z ->
  width m = (gridWidth m * cellSize m)%Z ->
  height m = (gridHeight m * cellSize m)%Z ->
  pgrid_wf (gridWidth m) (gridHeight m) g ->
  Forall (fun p => 0 <= p_x p <= 1 /\ 0 <= p_y p <= 1) pts ->
  Exists (fun p => p_x p = 1 \/ p_y p = 1) pts ->
  bin_points m pts (g, rs) = Err OutOfRange.
Proof.
  intros Hcs Hgw Hgh Ew Eh Hwf Hpts. revert g rs Hwf.
  induction Hpts as [|p rest [Hx Hy] Hrest IH]; intros g rs Hwf Hex.
  - inversion Hex.
  - cbn [bin_points]. rewrite bin_point_unfold. cbn [fst snd].
    set (pa := Zfloor (p_x p * IZR (width m) / IZR (cellSize m))).
    set (pb := Zfloor (p_y p * IZR (height m) / IZR (cellSize m))).
    set (o := mkObject _ pa pb _ 0).
    pose proof (scaled_cell_index (p_x p) (gridWidth m) (cellSize m) Hcs Hx)
      as [Hain Haout].
    pose proof (scaled_cell_index (p_y p) (gridHeight m) (cellSize m) Hcs Hy)
      as [Hbin Hbout].
    rewrite <- Ew in Hain, Haout. rewrite <- Eh in Hbin, Hbout.
    fold pa in Hain, Haout. fold pb in Hbin, Hbout.
    destruct (Rlt_dec (p_x p) 1) as [Hx1|Hx1];
      [destruct (Rlt_dec (p_y p) 1) as [Hy1|Hy1]|].
    + destruct (cell_push_back_in_range _ _ g pa pb o Hwf
                  (Hain Hx1 Hgw) (Hbin Hy1 Hgh)) as [g1 Hpush].
      rewrite Hpush. cbn [bind]. apply IH.
      * exact (cell_push_back_wf _ _ _ _ _ _ _ Hwf Hpush).
      * apply Exists_cons in Hex as [[E|E]|Hex]; [lra | lra | exact Hex].
    + rewrite (cell_push_back_out_of_range _ _ g pa pb o Hwf); [reflexivity|].
      assert (pb = gridHeight m) by (apply Hbout; lra). lia.
    + rewrite (cell_push_back_out_of_range _ _ g pa pb o Hwf); [reflexivity|].
      assert (pa = gridWidth m) by (apply Haout; lra). lia.
Qed.

(** The kind of members a cluster gets. *)
Lemma place_member_cases (m : MapGenerator (G:=G)) (origin : Object)
  (radius : R) (isBarn : bool) (p : Point)
  (g g' : list (list (list Object))) (rs rs' : RS) :
  place_member normalize orientedAngle m origin radius isBarn p (g, rs)
  = Ok (g', rs') ->
  g' = g
  \/ exists o,
       cell_push_back g (a o) (b o) o = Ok g'
       /\ pos o = member_pos origin radius p
       /\ a o = Zfloor (fst (pos o) / IZR (cellSize m))
       /\ b o = Zfloor (snd (pos o) / IZR (cellSize m))
       /\ (0 <= a o < gridWidth m)%Z /\ (0 <= b o < gridHeight m)%Z
       /\ type o = (if isBarn then "barn" else "tree")%string.
Proof.
  unfold place_member.
  set (position := member_pos origin radius p).
  set (pa := Zfloor (fst position / IZR (cellSize m))).
  set (pb := Zfloor (snd position / IZR (cellSize m))).
  destruct ((pa >? gridWidth m - 1) || (pa <? 0)
            || (pb >? gridHeight m - 1) || (pb <? 0))%Z eqn:Hclip.
  - intros [= <- <-]. now left.
  - apply orb_false_elim in Hclip as [Hclip H4].
    apply orb_false_elim in Hclip as [Hclip H3].
    apply orb_false_elim in Hclip as [H1 H2].
    rewrite Z.gtb_ltb in H1, H3. apply Z.ltb_ge in H1, H2, H3, H4.
    set (point := mkObject position pa pb EmptyString 0).
    destruct (if isBarn
              then let (r, rs1) := rand rs in
                   (match Z.rem r 3 with
                    | 0%Z => set_rotation (set_type point "barn") 0
                    | 1%Z => set_rotation (set_type point "barn") 90
                    | 2%Z => set_rotation (set_type point "barn")
                               (orientedAngle (normalize (pos origin))
                                  (normalize
                                     (fst position - fst (pos origin),
                                      snd position - snd (pos origin))))
                    | _ => set_type point "barn"
                    end, rs1)
              else (set_type point "tree", rs)) as [point' rs1] eqn:Hpt.
    assert (Hfields : pos point' = position /\ a point' = pa
                      /\ b point' = pb
                      /\ type point' = (if isBarn then "barn" else "tree")
                                         %string).
    { destruct isBarn.
      - destruct (rand rs) as [r rs2]. injection Hpt as <- _.
        destruct (Z.rem r 3) as [|[[q|q|]|[q|q|]|]|q]; now repeat split.
      - injection Hpt as <- _. now repeat split. }
    destruct Hfields as (Hpos & Ha & Hb & Ht).
    destruct (cell_push_back g pa pb point') as [g1|] eqn:Hpush;
      cbn [bind]; [|discriminate].
    intros [= <- <-]. right. exists point'.
    rewrite Ha, Hb, Hpos. repeat split; auto; lia.
Qed.

Lemma place_member_total (gw gh : Z) (m : MapGenerator (G:=G))
  (origin : Object) (radius : R) (isBarn : bool) (p : Point)
  (g : list (list (list Object))) (rs : RS) :
  gw = gridWidth m -> gh = gridHeight m -> pgrid_wf gw gh g ->
  exists g' rs',
    place_member normalize orientedAngle m origin radius isBarn p (g, rs)
    = Ok (g', rs').
Proof.
  intros -> -> Hwf. unfold place_member.
  set (position := member_pos origin radius p).
  set (pa := Zfloor (fst position / IZR (cellSize m))).
  set (pb := Zfloor (snd position / IZR (cellSize m))).
  destruct ((pa >? gridWidth m - 1) || (pa <? 0)
            || (pb >? gridHeight m - 1) || (pb <? 0))%Z eqn:Hclip.
  - eexists _, _. reflexivity.
  - apply orb_false_elim in Hclip as [Hclip H4].
    apply orb_false_elim in Hclip as [Hclip H3].
    apply orb_false_elim in Hclip as [H1 H2].
    rewrite Z.gtb_ltb in H1, H3. apply Z.ltb_ge in H1, H2, H3, H4.
    match goal with
    | |- context [let (point', rs') := ?e in _] => destruct e as [point' rs1]
    end.
    destruct (cell_push_back_in_range _ _ g pa pb point' Hwf
                ltac:(lia) ltac:(lia)) as [g1 Hpush].
    rewrite Hpush. cbn [bind]. eexists _, _. reflexivity.
Qed.

(** The whole loop over the points of the cluster, on a grid of the size
    the generator has. *)
Lemma place_members_grid (m : MapGenerator (G:=G)) (origin : Object)
  (radius : R) (isBarn : bool) (Points : list Point)
  (g : list (list (list Object))) (rs : RS) :
  pgrid_wf (gridWidth m) (gridHeight m) g ->
  exists g' rs',
    place_members normalize orientedAngle m origin radius isBarn Points
      (g, rs) = Ok (g', rs')
    /\ pgrid_wf (gridWidth m) (gridHeight m) g'
    /\ (cells_consistent g -> cells_consistent g')
    /\ (total_objects g <= total_objects g'
        <= total_objects g + List.length Points)%nat
    /\ forall x y cell, cell_at g x y = Ok cell ->
         exists added, cell_at g' x y = Ok (cell ++ added)
           /\ Forall (fun o =>
                        type o = (if isBarn then "barn" else "tree")%string
                        /\ a o = x /\ b o = y
                        /\ a o = Zfloor (fst (pos o) / IZR (cellSize m))
                        /\ b o = Zfloor (snd (pos o) / IZR (cellSize m))
                        /\ exists p, In p Points
                             /\ pos o = member_pos origin radius p) added.
Proof.
  revert g rs. induction Points as [|p rest IH]; intros g rs Hwf.
  - exists g, rs. cbn [place_members List.length].
    split; [reflexivity|]. split; [exact Hwf|]. split; [auto|].
    split; [lia|]. intros x y cell Hcell. exists [].
    rewrite app_nil_r. auto.
  - cbn [place_members].
    destruct (place_member_total _ _ m origin radius isBarn p g rs
                eq_refl eq_refl Hwf) as (g1 & rs1 & H1).
    rewrite H1. cbn [bind].
    assert (Hstep : pgrid_wf (gridWidth m) (gridHeight m) g1
              /\ (cells_consistent g -> cells_consistent g1)
              /\ (total_objects g <= total_objects g1
                  <= S (total_objects g))%nat
              /\ forall x y cell, cell_at g x y = Ok cell ->
                   exists added, cell_at g1 x y = Ok (cell ++ added)
                     /\ Forall (fun o =>
                          type o = (if isBarn then "barn" else "tree")
                                     %string
                          /\ a o = x /\ b o = y
                          /\ a o = Zfloor (fst (pos o) / IZR (cellSize m))
                          /\ b o = Zfloor (snd (pos o) / IZR (cellSize m))
                          /\ pos o = member_pos origin radius p) added).
    { destruct (place_member_cases _ _ _ _ _ _ _ _ _ H1)
        as [->|(o & Hpush & Hpos & Ha & Hb & Hra & Hrb & Ht)].
      - split; [exact Hwf|]. split; [auto|]. split; [lia|].
        intros x y cell Hcell. exists []. rewrite app_nil_r. auto.
      - split; [exact (cell_push_back_wf _ _ _ _ _ _ _ Hwf Hpush)|].
        split; [intros Hc; exact (cell_push_back_consistent g g1 o Hc Hpush)|].
        split; [rewrite (cell_push_back_total _ _ _ _ _ Hpush); lia|].
        intros x y cell Hcell.
        rewrite (cell_push_back_at _ _ _ _ _ Hpush).
        destruct (Z.eqb_spec x (a o)) as [->|Hx]; cbn [andb];
          [destruct (Z.eqb_spec y (b o)) as [->|Hy]|].
        + rewrite Hcell. cbn [bind]. exists [o]. split; [reflexivity|].
          constructor; [|constructor]. repeat split; auto.
        + exists []. rewrite app_nil_r. auto.
        + exists []. rewrite app_nil_r. auto. }
    destruct Hstep as (Hwf1 & Hcons1 & Htot1 & Hframe1).
    destruct (IH g1 rs1 Hwf1) as (g' & rs' & Hpl & Hwf' & Hcons & Htot & Hfr).
    exists g', rs'. split; [exact Hpl|]. split; [exact Hwf'|].
    split; [auto|]. split; [cbn [List.length]; lia|].
    intros x y cell Hcell.
    destruct (Hframe1 _ _ _ Hcell) as (a1 & Hc1 & Ha1).
    destruct (Hfr _ _ _ Hc1) as (a2 & Hc2 & Ha2).
    exists (a1 ++ a2). rewrite app_assoc. split; [exact Hc2|].
    apply Forall_app. split.
    + eapply Forall_impl; [|exact Ha1].
      intros o (Ht & Hx & Hy & Ha & Hb & Hpos). repeat split; auto.
      exists p. split; [now left | exact Hpos].
    + eapply Forall_impl; [|exact Ha2].
      intros o (Ht & Hx & Hy & Ha & Hb & (p' & Hin & Hpos)).
      repeat split; auto. exists p'. split; [now right | exact Hpos].
Qed.

Lemma scanned_cells_in_map (m : MapGenerator (G:=G)) (origin : Object)
  (cx cy : Z) :
  In (cx, cy) (scanned_cells m origin) ->
  (0 <= cx < gridWidth m)%Z /\ (0 <= cy < gridHeight m)%Z.
Proof.
  unfold scanned_cells. intros Hin.
  apply in_flat_map in Hin as (x & _ & Hin).
  apply in_flat_map in Hin as (y & _ & Hin).
  destruct (outside_map m (a origin + x) (b origin + y)) eqn:E;
    [destruct Hin|].
  destruct Hin as [Hin|[]]. injection Hin as <- <-.
  unfold outside_map in E.
  apply orb_false_elim in E as [E E4].
  apply orb_false_elim in E as [E E3].
  apply orb_false_elim in E as [E1 E2].
  rewrite Z.gtb_ltb in E2, E4. apply Z.ltb_ge in E1, E2, E3, E4. lia.
Qed.

Lemma clearing_scan_cells_total (gw gh : Z) (g : list (list (list Object)))
  (origin : Object) (radius : R) (cells : list (Z * Z)) :
  pgrid_wf gw gh g ->
  Forall (fun c => (0 <= fst c < gw)%Z /\ (0 <= snd c < gh)%Z) cells ->
  exists copies, clearing_scan_cells g origin radius cells = Ok copies.
Proof.
  intros Hwf Hcells. induction Hcells as [|[cx cy] rest [Hx Hy] Hrest IH].
  - now exists [].
  - cbn [clearing_scan_cells fst snd] in *.
    destruct (cell_at_in_range _ _ g cx cy Hwf Hx Hy) as [cell Hcell].
    rewrite Hcell. cbn [bind]. destruct IH as [more ->]. cbn [bind].
    eexists. reflexivity.
Qed.

(** [GenerateCluster] on a grid of the size the generator has: the scan
    and the placement go through, and the sampler decides. *)
Lemma GenerateCluster_on_grid (fuel : nat) (origin : Object)
  (m : MapGenerator (G:=G)) (rs : RS) :
  pgrid_wf (gridWidth m) (gridHeight m) (grid m) ->
  let isBarn := (Z.rem (fst (rand rs)) 100 <? 20)%Z in
  let radius := fst (cluster_radius m isBarn (snd (rand rs))) in
  let n := fst (cluster_count isBarn
                  (snd (cluster_radius m isBarn (snd (rand rs))))) in
  match generatePoissonPoints fuel (Z.to_nat n) (PRNG_ m) 70 true (-1) with
  | Err e =>
      GenerateCluster normalize orientedAngle fuel origin m rs = Err e
  | Ok (Points, prng') =>
      exists g' rs',
        GenerateCluster normalize orientedAngle fuel origin m rs
        = Ok (with_grid (with_PRNG m prng') g', rs')
        /\ pgrid_wf (gridWidth m) (gridHeight m) g'
        /\ (cells_consistent (grid m) -> cells_consistent g')
        /\ (total_objects (grid m) <= total_objects g'
            <= total_objects (grid m) + List.length Points)%nat
        /\ forall x y cell, cell_at (grid m) x y = Ok cell ->
             exists added, cell_at g' x y = Ok (cell ++ added)
               /\ Forall (fun o =>
                    type o = (if isBarn then "barn" else "tree")%string
                    /\ a o = x /\ b o = y
                    /\ a o = Zfloor (fst (pos o) / IZR (cellSize m))
                    /\ b o = Zfloor (snd (pos o) / IZR (cellSize m))
                    /\ exists p, In p Points
                         /\ pos o = member_pos origin radius p) added
  end.
Proof.
  intros Hwf isBarn radius n. unfold GenerateCluster.
  subst isBarn radius n. destruct (rand rs) as [r0 rs1]. cbn [fst snd].
  destruct (cluster_radius m (Z.rem r0 100 <? 20)%Z rs1) as [radius rs2].
  cbn [fst snd].
  destruct (clearing_scan_cells_total _ _ (grid m) origin radius
              (scanned_cells m origin) Hwf) as [copies Hscan].
  { apply Forall_forall. intros [cx cy] Hin. cbn [fst snd].
    now apply scanned_cells_in_map with (origin := origin). }
  unfold clearing_scan. rewrite Hscan. cbn [bind].
  destruct (cluster_count (Z.rem r0 100 <? 20)%Z rs2) as [n rs3].
  cbn [fst snd].
  destruct (generatePoissonPoints fuel (Z.to_nat n) (PRNG_ m) 70 true (-1))
    as [[Points prng']|e]; cbn [bind]; [|reflexivity].
  destruct (place_members_grid m origin radius (Z.rem r0 100 <? 20)%Z Points
              (grid m) rs3 Hwf)
    as (g' & rs' & Hpl & Hwf' & Hcons & Htot & Hframe).
  rewrite Hpl. cbn [bind]. exists g', rs'.
  split; [reflexivity|]. split; [exact Hwf'|]. split; [exact Hcons|].
  split; [exact Htot | exact Hframe].
Qed.

(** X18. [GenerateCluster] reads and writes inside the grid only. On a grid of
    the size the generator has, the call fails only when its sampler fails,
    and then with the failure of the sampler; when the sampler returns, the
    call returns, with the generator the sampler has left. *)
Theorem GenerateCluster_fails_with_sampler (fuel : nat) (origin : Object)
  (m : MapGenerator (G:=G)) (rs : RS) :
  pgrid_wf (gridWidth m) (gridHeight m) (grid m) ->
  let isBarn := (Z.rem (fst (rand rs)) 100 <? 20)%Z in
  let n := fst (cluster_count isBarn
                  (snd (cluster_radius m isBarn (snd (rand rs))))) in
  match generatePoissonPoints fuel (Z.to_nat n) (PRNG_ m) 70 true (-1) with
  | Err e =>
      GenerateCluster normalize orientedAngle fuel origin m rs = Err e
  | Ok (Points, prng') =>
      exists m' rs',
        GenerateCluster normalize orientedAngle fuel origin m rs
        = Ok (m', rs')
        /\ PRNG_ m' = prng'
  end.
Proof.
  intros Hwf isBarn n.
  pose proof (GenerateCluster_on_grid fuel origin m rs Hwf) as Hrun.
  cbn zeta in Hrun. fold isBarn in Hrun. fold n in Hrun.
  destruct (generatePoissonPoints fuel (Z.to_nat n) (PRNG_ m) 70 true (-1))
    as [[Points prng']|e]; [|exact Hrun].
  destruct Hrun as (g' & rs' & Hrun & _).
  exists (with_grid (with_PRNG m prng') g'), rs'. split; [exact Hrun|].
  reflexivity.
Qed.

(** X19. The members of a cluster. A call that returns leaves the sizes of the
    map and of the grid as they were; the grid keeps its shape; the members
    appended are all barns or all trees, as the first draw of [rand()]
    decided; each is stored in the cell its position falls in, which its
    fields [a] and [b] name; and at most one member is appended for each point
    of the sampler. *)
Theorem GenerateCluster_members (fuel : nat) (origin : Object)
  (m m' : MapGenerator (G:=G)) (rs rs' : RS) :
  pgrid_wf (gridWidth m) (gridHeight m) (grid m) ->
  GenerateCluster normalize orientedAngle fuel origin m rs = Ok (m', rs') ->
  let isBarn := (Z.rem (fst (rand rs)) 100 <? 20)%Z in
  same_config m m'
  /\ pgrid_wf (gridWidth m') (gridHeight m') (grid m')
  /\ (cells_consistent (grid m) -> cells_consistent (grid m'))
  /\ (forall x y cell, cell_at (grid m) x y = Ok cell ->
        exists added,
          cell_at (grid m') x y = Ok (cell ++ added)
          /\ Forall (fun o =>
                       type o = (if isBarn then "barn" else "tree")%string
                       /\ a o = x /\ b o = y
                       /\ x = Zfloor (fst (pos o) / IZR (cellSize m))
                       /\ y = Zfloor (snd (pos o) / IZR (cellSize m)))
               added)
  /\ exists Points prng',
       generatePoissonPoints fuel
         (Z.to_nat (fst (cluster_count isBarn
                      (snd (cluster_radius m isBarn (snd (rand rs)))))))
         (PRNG_ m) 70 true (-1) = Ok (Points, prng')
       /\ (total_objects (grid m) <= total_objects (grid m')
           <= total_objects (grid m) + List.length Points)%nat.
Proof.
  intros Hwf Hrun isBarn.
  pose proof (GenerateCluster_on_grid fuel origin m rs Hwf) as Hgrid.
  cbn zeta in Hgrid. fold isBarn in Hgrid.
  destruct (generatePoissonPoints fuel _ (PRNG_ m) 70 true (-1))
    as [[Points prng']|e]; [|congruence].
  destruct Hgrid as (g' & rs1 & Hrun' & Hwf' & Hcons & Htot & Hext).
  rewrite Hrun in Hrun'. injection Hrun' as -> ->.
  cbn [grid with_grid gridWidth gridHeight with_PRNG].
  split; [now repeat split|]. split; [exact Hwf'|]. split; [exact Hcons|].
  split.
  - intros x y cell Hcell.
    destruct (Hext x y cell Hcell) as (added & Ha & Hall).
    exists added. split; [exact Ha|].
    eapply Forall_impl; [|exact Hall].
    intros o (Ht & Hx & Hy & Hao & Hbo & _).
    split; [exact Ht|]. split; [exact Hx|]. split; [exact Hy|].
    split; congruence.
  - exists Points, prng'. split; [reflexivity | exact Htot].
Qed.

End MapProperties.

(** ** The passes of [GenerateMap] *)

Section MapPasses.

Import PoissonGenerator MapGenerator MapSpec Runs.

Context {G : Type} `{PRNG G} {order : ArgOrder} {RS : Type} `{CRand RS}.

Variable normalize : vec2 -> vec2.
Variable orientedAngle : vec2 -> vec2 -> R.

(** X17. The parameters of a cluster. With a [rand()] that is never
    negative and a positive cell size, the clearing radius is between one
    cell and 9/5 of a cell: one cell for barns, [(1 + j / 5)] cells with
    [j] from 0 to 4 for trees; the number of points asked from the
    sampler is from 1 to 6 for barns and from 10 to 39 for trees. *)
Theorem cluster_parameters `{!CRand_range RS} (m : MapGenerator (G:=G))
  (isBarn : bool) (rs : RS) :
  (0 < cellSize m)%Z ->
  let radius := fst (cluster_radius m isBarn rs) in
  let n := fst (cluster_count isBarn (snd (cluster_radius m isBarn rs))) in
  IZR (cellSize m) <= radius <= 9 / 5 * IZR (cellSize m)
  /\ (if isBarn
      then radius = IZR (cellSize m) /\ (1 <= n <= 6)%Z
      else (exists j, (0 <= j <= 4)%Z
              /\ radius = (1 + IZR j / 5) * IZR (cellSize m))
           /\ (10 <= n <= 39)%Z).
Proof.
  intros Hcs radius n. apply IZR_lt in Hcs.
  assert (Hrem : forall r d, (0 <= r)%Z -> (0 < d)%Z ->
                   (0 <= Z.rem r d <= d - 1)%Z).
  { intros r d Hr Hd. pose proof (Z.rem_bound_pos r d Hr Hd). lia. }
  unfold radius, n, cluster_radius, cluster_count. destruct isBarn.
  - cbn [fst snd]. pose proof (rand_nonneg rs) as Hr.
    destruct (rand rs) as [r rs1]. cbn [fst] in *.
    pose proof (Hrem r 6%Z Hr ltac:(lia)).
    split; [lra|]. split; [reflexivity | lia].
  - pose proof (rand_nonneg rs) as Hr.
    destruct (rand rs) as [r rs1]. cbn [fst snd] in *.
    pose proof (rand_nonneg rs1) as Hr1.
    destruct (rand rs1) as [r1 rs2]. cbn [fst snd] in *.
    pose proof (Hrem r 5%Z Hr ltac:(lia)) as [Hlo Hhi].
    pose proof (Hrem r1 30%Z Hr1 ltac:(lia)).
    apply IZR_le in Hlo as Hlo', Hhi as Hhi'.
    replace (IZR (5 - 1)) with 4 in Hhi' by (simpl; lra).
    split; [|split; [|lia]].
    + split.
      * rewrite <- (Rmult_1_l (IZR (cellSize m))) at 1.
        apply Rmult_le_compat_r; lra.
      * apply Rmult_le_compat_r; lra.
    + exists (Z.rem r 5). split; [lia | reflexivity].
Qed.

Lemma grid_extends_refl (Q : Object -> Prop)
  (g : list (list (list Object))) : grid_extends Q g g.
Proof.
  intros x y cell Hcell. exists []. rewrite app_nil_r. auto.
Qed.

Lemma grid_extends_trans (Q : Object -> Prop)
  (g1 g2 g3 : list (list (list Object))) :
  grid_extends Q g1 g2 -> grid_extends Q g2 g3 -> grid_extends Q g1 g3.
Proof.
  intros H12 H23 x y cell Hcell.
  destruct (H12 _ _ _ Hcell) as (a1 & Hc1 & Ha1).
  destruct (H23 _ _ _ Hc1) as (a2 & Hc2 & Ha2).
  exists (a1 ++ a2). rewrite app_assoc. split; [exact Hc2|].
  apply Forall_app. now split.
Qed.

Lemma grid_extends_cells_all (Q : Object -> Prop) (gw gh : Z)
  (g g' : list (list (list Object))) :
  pgrid_wf gw gh g -> pgrid_wf gw gh g' ->
  grid_extends Q g g' -> cells_all Q g -> cells_all Q g'.
Proof.
  intros Hwf Hwf' Hext Hall x y cell Hcell.
  destruct (cell_at_Ok g' x y cell) as [Hin _].
  destruct (Hin Hcell) as (col & Hcol & Hc).
  assert (Hx : (0 <= x < gw)%Z).
  { apply vec_at_Ok in Hcol as [Hx Hcol].
    assert (Z.to_nat x < List.length g')%nat
      by (apply nth_error_Some; congruence).
    destruct Hwf' as (Hgw & _ & Hlen & _). lia. }
  assert (Hy : (0 <= y < gh)%Z).
  { apply vec_at_Ok in Hcol as [_ Hcol]. apply nth_error_In in Hcol.
    destruct Hwf' as (_ & Hgh & _ & Hcols).
    rewrite Forall_forall in Hcols. apply Hcols in Hcol.
    apply vec_at_Ok in Hc as [Hy Hc].
    assert (Z.to_nat y < List.length col)%nat
      by (apply nth_error_Some; congruence).
    lia. }
  destruct (cell_at_in_range _ _ g x y Hwf Hx Hy) as [old Hold].
  destruct (Hext _ _ _ Hold) as (added & Hnew & Hadd).
  rewrite Hcell in Hnew. injection Hnew as ->.
  apply Forall_app. split; [exact (Hall _ _ _ Hold) | exact Hadd].
Qed.

Lemma same_config_refl (m : MapGenerator (G:=G)) : same_config m m.
Proof. now repeat split. Qed.

Lemma same_config_trans (m1 m2 m3 : MapGenerator (G:=G)) :
  same_config m1 m2 -> same_config m2 m3 -> same_config m1 m3.
Proof.
  unfold same_config. intros (A1 & A2 & A3 & A4 & A5 & A6)
    (B1 & B2 & B3 & B4 & B5 & B6).
  repeat split; congruence.
Qed.

(** One call of [GenerateCluster] in the origin pass. *)
Lemma GenerateCluster_step (fuel : nat) (origin : Object)
  (m : MapGenerator (G:=G)) (rs : RS) :
  pgrid_wf (gridWidth m) (gridHeight m) (grid m) ->
  match GenerateCluster normalize orientedAngle fuel origin m rs with
  | Ok (m', rs') =>
      same_config m m'
      /\ pgrid_wf (gridWidth m') (gridHeight m') (grid m')
      /\ (cells_consistent (grid m) -> cells_consistent (grid m'))
      /\ grid_extends cluster_kind (grid m) (grid m')
  | Err e => e <> OutOfRange
  end.
Proof.
  intros Hwf.
  pose proof (GenerateCluster_on_grid normalize orientedAngle fuel origin m rs
                Hwf) as Hrun.
  cbn zeta in Hrun.
  destruct (generatePoissonPoints fuel _ (PRNG_ m) 70 true (-1))
    as [[Points prng']|e] eqn:Hpts.
  - destruct Hrun as (g' & rs' & -> & Hwf' & Hcons & _ & Hext).
    cbn [grid with_grid gridWidth gridHeight with_PRNG].
    split; [now repeat split|]. split; [exact Hwf'|]. split; [exact Hcons|].
    intros x y cell Hcell.
    destruct (Hext x y cell Hcell) as (added & Ha & Hall).
    exists added. split; [exact Ha|].
    eapply Forall_impl; [|exact Hall].
    intros o (Ht & _). unfold cluster_kind. rewrite Ht.
    destruct (Z.rem (fst (rand rs)) 100 <? 20)%Z; auto.
  - rewrite Hrun. eapply generatePoissonPoints_Err; eauto.
Qed.

Lemma origins_in_cell_spec (fuel : nat) (x y : Z) (i : nat)
  (m : MapGenerator (G:=G)) (rs : RS) :
  pgrid_wf (gridWidth m) (gridHeight m) (grid m) ->
  (0 <= x < gridWidth m)%Z -> (0 <= y < gridHeight m)%Z ->
  match origins_in_cell normalize orientedAngle fuel x y i m rs with
  | Ok (m', rs') =>
      same_config m m'
      /\ pgrid_wf (gridWidth m') (gridHeight m') (grid m')
      /\ (cells_consistent (grid m) -> cells_consistent (grid m'))
      /\ grid_extends cluster_kind (grid m) (grid m')
  | Err e => e <> OutOfRange
  end.
Proof.
  revert i m rs. induction fuel as [|fuel IH]; intros i m rs Hwf Hx Hy.
  - cbn [origins_in_cell].
    destruct (cell_at_in_range _ _ (grid m) x y Hwf Hx Hy) as [cell Hcell].
    rewrite Hcell. cbn [bind].
    destruct (nth_error cell i); [discriminate|].
    split; [apply same_config_refl|]. split; [exact Hwf|]. split; [auto|].
    apply grid_extends_refl.
  - cbn [origins_in_cell].
    destruct (cell_at_in_range _ _ (grid m) x y Hwf Hx Hy) as [cell Hcell].
    rewrite Hcell. cbn [bind].
    destruct (nth_error cell i) as [o|].
    2:{ split; [apply same_config_refl|]. split; [exact Hwf|].
        split; [auto|]. apply grid_extends_refl. }
    assert (Hstep :
      match (if String.eqb (type o) "originPoint"
             then GenerateCluster normalize orientedAngle (S fuel) o m rs
             else Ok (m, rs)) with
      | Ok (m', rs') =>
          same_config m m'
          /\ pgrid_wf (gridWidth m') (gridHeight m') (grid m')
          /\ (cells_consistent (grid m) -> cells_consistent (grid m'))
          /\ grid_extends cluster_kind (grid m) (grid m')
      | Err e => e <> OutOfRange
      end).
    { destruct (String.eqb (type o) "originPoint").
      - now apply GenerateCluster_step.
      - split; [apply same_config_refl|]. split; [exact Hwf|].
        split; [auto|]. apply grid_extends_refl. }
    destruct (if String.eqb (type o) "originPoint"
              then GenerateCluster normalize orientedAngle (S fuel) o m rs
              else Ok (m, rs)) as [[m1 rs1]|e]; cbn [bind]; [|exact Hstep].
    destruct Hstep as (Hcfg & Hwf1 & Hcons1 & Hext1).
    pose proof Hcfg as (_ & _ & _ & Egw & Egh & _).
    specialize (IH (S i) m1 rs1 Hwf1 ltac:(lia) ltac:(lia)).
    destruct (origins_in_cell normalize orientedAngle fuel x y (S i) m1 rs1)
      as [[m2 rs2]|e]; [|exact IH].
    destruct IH as (Hcfg2 & Hwf2 & Hcons2 & Hext2).
    split; [eapply same_config_trans; eauto|]. split; [exact Hwf2|].
    split; [auto|]. eapply grid_extends_trans; eauto.
Qed.

Lemma origins_pass_spec (fuel : nat) (cells : list (Z * Z))
  (m : MapGenerator (G:=G)) (rs : RS) :
  pgrid_wf (gridWidth m) (gridHeight m) (grid m) ->
  Forall (fun c => (0 <= fst c < gridWidth m)%Z
                   /\ (0 <= snd c < gridHeight m)%Z) cells ->
  match origins_pass normalize orientedAngle fuel cells m rs with
  | Ok (m', rs') =>
      same_config m m'
      /\ pgrid_wf (gridWidth m') (gridHeight m') (grid m')
      /\ (cells_consistent (grid m) -> cells_consistent (grid m'))
      /\ grid_extends cluster_kind (grid m) (grid m')
  | Err e => e <> OutOfRange
  end.
Proof.
  revert m rs. induction cells as [|[x y] rest IH]; intros m rs Hwf Hcells.
  - cbn [origins_pass]. split; [apply same_config_refl|].
    split; [exact Hwf|]. split; [auto|]. apply grid_extends_refl.
  - cbn [origins_pass]. inversion Hcells as [|c l [Hx Hy] Hrest]; subst.
    cbn [fst snd] in Hx, Hy.
    pose proof (origins_in_cell_spec fuel x y 0 m rs Hwf Hx Hy) as H1.
    destruct (origins_in_cell normalize orientedAngle fuel x y 0 m rs)
      as [[m1 rs1]|e]; cbn [bind]; [|exact H1].
    destruct H1 as (Hcfg & Hwf1 & Hcons1 & Hext1).
    pose proof Hcfg as (_ & _ & _ & Egw & Egh & _).
    assert (Hrest1 : Forall (fun c => (0 <= fst c < gridWidth m1)%Z
                               /\ (0 <= snd c < gridHeight m1)%Z) rest)
      by now rewrite Egw, Egh.
    specialize (IH m1 rs1 Hwf1 Hrest1).
    destruct (origins_pass normalize orientedAngle fuel rest m1 rs1)
      as [[m2 rs2]|e]; [|exact IH].
    destruct IH as (Hcfg2 & Hwf2 & Hcons2 & Hext2).
    split; [eapply same_config_trans; eauto|]. split; [exact Hwf2|].
    split; [auto|]. eapply grid_extends_trans; eauto.
Qed.

Lemma int_range_In (lo v : Z) (n : nat) :
  In v (int_range lo n) <-> (lo <= v < lo + Z.of_nat n)%Z.
Proof.
  revert lo. induction n as [|n IH]; intros lo; cbn [int_range In].
  - lia.
  - rewrite IH. lia.
Qed.

Lemma all_cells_In (m : MapGenerator (G:=G)) (x y : Z) :
  In (x, y) (all_cells m) <->
  (0 <= x < gridWidth m)%Z /\ (0 <= y < gridHeight m)%Z.
Proof.
  unfold all_cells, for_range. rewrite in_flat_map. split.
  - intros (x' & Hx' & Hin). apply in_map_iff in Hin as (y' & [= <- <-] & Hy').
    apply int_range_In in Hx', Hy'. lia.
  - intros [Hx Hy]. exists x. split; [apply int_range_In; lia|].
    apply in_map_iff. exists y. split; [reflexivity|].
    apply int_range_In. lia.
Qed.

Lemma all_cells_in_grid (m : MapGenerator (G:=G)) :
  Forall (fun c => (0 <= fst c < gridWidth m)%Z
                   /\ (0 <= snd c < gridHeight m)%Z) (all_cells m).
Proof.
  apply Forall_forall. intros [x y] Hin. now apply all_cells_In.
Qed.

(** What the last loop creates for one object. *)
Lemma instantiate_shown `{!CRand_range RS} (x y : Z) (o : Object) (rs : RS) :
  if visible o
  then exists i, fst (instantiate x y o rs) = [i] /\ shown_as (x, y) o i
  else fst (instantiate x y o rs) = [].
Proof.
  assert (Hrem : forall r d, (0 < d)%Z ->
            0 <= IZR (Z.rem (fst (rand r)) d) <= IZR (d - 1)).
  { intros r d Hd. pose proof (rand_nonneg r) as Hr.
    pose proof (Z.rem_bound_pos _ d Hr Hd).
    split; apply IZR_le; lia. }
  unfold visible, instantiate, shown_as.
  destruct (String.eqb (type o) "default" || String.eqb (type o) "originPoint");
    cbn [negb]; [reflexivity|].
  destruct (String.eqb (type o) "hay").
  { eexists. split; [reflexivity|]. cbn. now repeat split. }
  destruct (String.eqb (type o) "tree"), (String.eqb (type o) "barn").
  - pose proof (Hrem rs 5%Z ltac:(lia)) as H5.
    destruct (rand rs) as [r rs1]. cbn [fst] in H5.
    pose proof (Hrem rs1 80%Z ltac:(lia)) as H1.
    destruct (rand rs1) as [r1 rs2]. cbn [fst] in H1.
    pose proof (Hrem rs2 80%Z ltac:(lia)) as H2.
    destruct (rand rs2) as [r2 rs3]. cbn [fst] in H2.
    pose proof (Hrem rs3 80%Z ltac:(lia)) as H3.
    destruct (rand rs3) as [r3 rs4]. cbn [fst] in H3.
    replace (IZR (80 - 1)) with 79 in * by (simpl; lra).
    eexists. split; [reflexivity|]. cbn.
    repeat split. eexists _, _, _. split; [reflexivity|]. lra.
  - pose proof (Hrem rs 5%Z ltac:(lia)) as H5.
    destruct (rand rs) as [r rs1]. cbn [fst] in H5.
    replace (IZR (5 - 1)) with 4 in * by (simpl; lra).
    eexists. split; [reflexivity|]. cbn.
    repeat split. eexists. split; [reflexivity|]. lra.
  - pose proof (Hrem rs 80%Z ltac:(lia)) as H1.
    destruct (rand rs) as [r1 rs2]. cbn [fst] in H1.
    pose proof (Hrem rs2 80%Z ltac:(lia)) as H2.
    destruct (rand rs2) as [r2 rs3]. cbn [fst] in H2.
    pose proof (Hrem rs3 80%Z ltac:(lia)) as H3.
    destruct (rand rs3) as [r3 rs4]. cbn [fst] in H3.
    replace (IZR (80 - 1)) with 79 in * by (simpl; lra).
    eexists. split; [reflexivity|]. cbn.
    repeat split. eexists _, _, _. split; [reflexivity|]. lra.
  - eexists. split; [reflexivity|]. cbn. now repeat split.
Qed.

Lemma instantiate_cell_shown `{!CRand_range RS} (x y : Z)
  (cell : list Object) (rs : RS) :
  Forall2 (shown_as (x, y)) (filter visible cell)
    (fst (instantiate_cell x y cell rs)).
Proof.
  revert rs. induction cell as [|o rest IH]; intros rs;
    cbn [filter instantiate_cell fst]; [constructor|].
  pose proof (instantiate_shown x y o rs) as Ho.
  destruct (instantiate x y o rs) as [here rs1]. cbn [fst] in Ho.
  specialize (IH rs1).
  destruct (instantiate_cell x y rest rs1) as [more rs2]. cbn [fst] in *.
  destruct (visible o).
  - destruct Ho as (i & -> & Hi). cbn [app]. now constructor.
  - rewrite Ho. exact IH.
Qed.

(** The last loop on a grid of the right size. *)
Lemma final_pass_shown `{!CRand_range RS} (gw gh : Z)
  (g : list (list (list Object))) (cells : list (Z * Z)) (rs : RS) :
  pgrid_wf gw gh g ->
  Forall (fun c => (0 <= fst c < gw)%Z /\ (0 <= snd c < gh)%Z) cells ->
  exists created rs',
    final_pass g cells rs = Ok (created, rs')
    /\ Forall2 (fun co i => shown_as (fst co) (snd co) i)
         (visible_objects g cells) created.
Proof.
  intros Hwf Hcells. revert rs.
  induction Hcells as [|[x y] rest [Hx Hy] Hrest IH]; intros rs.
  - exists [], rs. split; [reflexivity | constructor].
  - cbn [fst snd] in Hx, Hy. cbn [final_pass].
    destruct (cell_at_in_range _ _ g x y Hwf Hx Hy) as [cell Hcell].
    rewrite Hcell. cbn [bind].
    pose proof (instantiate_cell_shown x y cell rs) as Hhere.
    destruct (instantiate_cell x y cell rs) as [here rs1]. cbn [fst] in Hhere.
    destruct (IH rs1) as (more & rs2 & Hmore & Hshown).
    rewrite Hmore. cbn [bind]. exists (here ++ more), rs2.
    split; [reflexivity|].
    unfold visible_objects. cbn [flat_map fst snd].
    unfold cell_or_empty at 1. rewrite Hcell.
    apply Forall2_app; [|exact Hshown].
    clear -Hhere. induction Hhere; cbn [map]; constructor; auto.
Qed.

(** X21. The last loop of [GenerateMap]. On a grid of the size the generator
    has, the loop reads inside the grid only and goes through; it creates one
    instance for each object whose type is neither "default" nor
    "originPoint", in the order of the cells and of the objects in a cell,
    with the cell, the type and the position of the object; a bale of hay
    becomes an entity that can be picked up and collected, a barn keeps its
    rotation, and the scale factors are in their ranges. *)
Theorem final_pass_instances `{!CRand_range RS} (m : MapGenerator (G:=G))
  (rs : RS) :
  pgrid_wf (gridWidth m) (gridHeight m) (grid m) ->
  exists created rs',
    final_pass (grid m) (all_cells m) rs = Ok (created, rs')
    /\ Forall2 (fun co i => shown_as (fst co) (snd co) i)
         (visible_objects (grid m) (all_cells m)) created
    /\ List.length created
       = List.length (visible_objects (grid m) (all_cells m)).
Proof.
  intros Hwf.
  destruct (final_pass_shown _ _ (grid m) (all_cells m) rs Hwf
              (all_cells_in_grid m)) as (created & rs' & Hrun & Hshown).
  exists created, rs'. split; [exact Hrun|]. split; [exact Hshown|].
  symmetry. eapply Forall2_length; eauto.
Qed.

(** The binning loop, when it goes through. *)
Lemma bin_points_Ok_spec (gw gh : Z) (m : MapGenerator (G:=G))
  (pts : list Point) (g g' : list (list (list Object))) (rs rs' : RS) :
  pgrid_wf gw gh g ->
  bin_points m pts (g, rs) = Ok (g', rs') ->
  pgrid_wf gw gh g'
  /\ (cells_consistent g -> cells_consistent g')
  /\ grid_extends binned_kind g g'.
Proof.
  revert g rs. induction pts as [|p rest IH]; intros g rs Hwf Hrun.
  - injection Hrun as <- <-. split; [exact Hwf|]. split; [auto|].
    apply grid_extends_refl.
  - cbn [bin_points] in Hrun. rewrite bin_point_unfold in Hrun.
    cbn zeta in Hrun.
    match type of Hrun with
    | context [cell_push_back g ?pa ?pb ?o] =>
        set (o' := o) in *;
        destruct (cell_push_back g pa pb o') as [g1|] eqn:Hpush;
        cbn [bind] in Hrun; [|discriminate]
    end.
    pose proof (cell_push_back_wf _ _ _ _ _ _ _ Hwf Hpush) as Hwf1.
    destruct (IH _ _ Hwf1 Hrun) as (Hwf' & Hcons & Hext).
    split; [exact Hwf'|]. split.
    + intros Hc. apply Hcons.
      exact (cell_push_back_consistent g g1 o' Hc Hpush).
    + eapply grid_extends_trans; [|exact Hext].
      intros x y cell Hcell.
      rewrite (cell_push_back_at _ _ _ _ _ Hpush).
      match goal with
      | |- context [if ?c then _ else _] => destruct c eqn:Hc
      end.
      * apply andb_prop in Hc as [Ex Ey].
        apply Z.eqb_eq in Ex, Ey. subst x y.
        rewrite Hcell. cbn [bind]. exists [o']. split; [reflexivity|].
        constructor; [|constructor]. unfold binned_kind, o'. cbn [type].
        destruct (Z.rem (fst (rand rs)) 100 <? 15)%Z; auto.
      * exists []. rewrite app_nil_r. auto.
Qed.

(** A failure of the binning loop comes from a point whose cell is not in
    the grid. *)
Lemma bin_points_Err_spec (m : MapGenerator (G:=G)) (pts : list Point)
  (g : list (list (list Object))) (rs : RS) (e : error) :
  pgrid_wf (gridWidth m) (gridHeight m) g ->
  bin_points m pts (g, rs) = Err e ->
  e = OutOfRange
  /\ Exists (fun p =>
       ~ ((0 <= Zfloor (p_x p * IZR (width m) / IZR (cellSize m))
           < gridWidth m)%Z
          /\ (0 <= Zfloor (p_y p * IZR (height m) / IZR (cellSize m))
              < gridHeight m)%Z)) pts.
Proof.
  revert g rs. induction pts as [|p rest IH]; intros g rs Hwf Hrun;
    [discriminate|].
  cbn [bin_points] in Hrun. rewrite bin_point_unfold in Hrun.
  cbn zeta in Hrun. cbn [fst snd] in Hrun.
  match type of Hrun with
  | context [cell_push_back g ?pa ?pb ?o] =>
      set (o' := o) in *;
      destruct (cell_push_back g pa pb o') as [g1|e1] eqn:Hpush;
      cbn [bind] in Hrun
  end.
  - pose proof (cell_push_back_wf _ _ _ _ _ _ _ Hwf Hpush) as Hwf1.
    destruct (IH _ _ Hwf1 Hrun) as [He Hex]. split; [exact He|].
    now apply Exists_cons_tl.
  - injection Hrun as <-. split.
    + unfold cell_push_back in Hpush.
      destruct (vec_at g _) as [col|e2] eqn:Hcol; cbn [bind] in Hpush;
        [|injection Hpush as <-; eapply vec_at_Err; eauto].
      destruct (vec_at col _) as [c|e3] eqn:Hc; cbn [bind] in Hpush;
        [discriminate | injection Hpush as <-; eapply vec_at_Err; eauto].
    + apply Exists_cons_hd. intros [Hx Hy].
      destruct (cell_push_back_in_range _ _ g _ _ o' Hwf Hx Hy) as [g1 Hg1].
      congruence.
Qed.

(** [GenerateMap], pass by pass. *)
Lemma GenerateMap_passes `{!CRand_range RS} (fuel : nat)
  (m : MapGenerator (G:=G)) (rs : RS) :
  pgrid_wf (gridWidth m) (gridHeight m) (grid m) ->
  let numPoints :=
    Z.to_nat
      (truncZ (IZR ((gridWidth m + 1) * (gridHeight m + 1)) * density m)) in
  let minDist := 1 / (density m * IZR (Z.min (gridWidth m) (gridHeight m))) in
  match generatePoissonPoints fuel numPoints (PRNG_ m) 50 false minDist with
  | Err e => GenerateMap normalize orientedAngle fuel m rs = Err e
  | Ok (Points, prng') =>
      match bin_points (with_PRNG m prng') Points (grid m, rs) with
      | Err e => GenerateMap normalize orientedAngle fuel m rs = Err e
      | Ok (g2, rs2) =>
          match GenerateMap normalize orientedAngle fuel m rs with
          | Err e => e <> OutOfRange
          | Ok (m', rs', created) =>
              same_config m m'
              /\ pgrid_wf (gridWidth m') (gridHeight m') (grid m')
              /\ (cells_consistent (grid m) -> cells_consistent (grid m'))
              /\ grid_extends binned_kind (grid m) g2
              /\ grid_extends cluster_kind g2 (grid m')
              /\ exists objs,
                   created = ground_plane m ++ objs
                   /\ Forall2 (fun co i => shown_as (fst co) (snd co) i)
                        (visible_objects (grid m') (all_cells m')) objs
          end
      end
  end.
Proof.
  intros Hwf numPoints minDist. unfold GenerateMap.
  fold numPoints. fold minDist.
  destruct (generatePoissonPoints fuel numPoints (PRNG_ m) 50 false minDist)
    as [[Points prng']|e]; cbn [bind]; [|reflexivity].
  change (grid (with_PRNG m prng')) with (grid m).
  destruct (bin_points (with_PRNG m prng') Points (grid m, rs))
    as [[g2 rs2]|e] eqn:Hbin; cbn [bind]; [|reflexivity].
  destruct (bin_points_Ok_spec _ _ _ _ _ _ _ _ Hwf Hbin)
    as (Hwf2 & Hcons2 & Hext2).
  set (m2 := with_grid (with_PRNG m prng') g2).
  assert (Hwfm2 : pgrid_wf (gridWidth m2) (gridHeight m2) (grid m2))
    by exact Hwf2.
  pose proof (origins_pass_spec fuel (all_cells m2) m2 rs2 Hwfm2
                (all_cells_in_grid m2)) as Hpass.
  destruct (origins_pass normalize orientedAngle fuel (all_cells m2) m2 rs2)
    as [[m3 rs3]|e]; cbn [bind]; [|exact Hpass].
  destruct Hpass as (Hcfg & Hwf3 & Hcons3 & Hext3).
  destruct (final_pass_shown _ _ (grid m3) (all_cells m3) rs3 Hwf3
              (all_cells_in_grid m3)) as (objs & rs4 & Hfin & Hshown).
  rewrite Hfin. cbn [bind].
  split; [exact Hcfg|]. split; [exact Hwf3|]. split; [auto|].
  split; [exact Hext2|]. split; [exact Hext3|].
  exists objs. now split.
Qed.

(** X22. The only read or write outside a vector is in the binning loop. On a
    grid of the size the generator has, when [GenerateMap] throws
    [out_of_range], the sampler has returned and the binning loop has thrown,
    on a point whose cell is not in the grid; the origin pass and the last
    loop never throw it. *)
Theorem GenerateMap_throws_in_binning `{!CRand_range RS} (fuel : nat)
  (m : MapGenerator (G:=G)) (rs : RS) :
  pgrid_wf (gridWidth m) (gridHeight m) (grid m) ->
  GenerateMap normalize orientedAngle fuel m rs = Err OutOfRange ->
  exists Points prng',
    generatePoissonPoints fuel
      (Z.to_nat
         (truncZ (IZR ((gridWidth m + 1) * (gridHeight m + 1)) * density m)))
      (PRNG_ m) 50 false
      (1 / (density m * IZR (Z.min (gridWidth m) (gridHeight m))))
    = Ok (Points, prng')
    /\ bin_points (with_PRNG m prng') Points (grid m, rs) = Err OutOfRange
    /\ Exists (fun p =>
         ~ ((0 <= Zfloor (p_x p * IZR (width m) / IZR (cellSize m))
             < gridWidth m)%Z
            /\ (0 <= Zfloor (p_y p * IZR (height m) / IZR (cellSize m))
                < gridHeight m)%Z)) Points.
Proof.
  intros Hwf Hrun.
  pose proof (GenerateMap_passes fuel m rs Hwf) as Hpasses.
  cbn zeta in Hpasses.
  destruct (generatePoissonPoints fuel _ (PRNG_ m) 50 false _)
    as [[Points prng']|e] eqn:Hpts.
  - exists Points, prng'. split; [reflexivity|].
    destruct (bin_points (with_PRNG m prng') Points (grid m, rs))
      as [[g2 rs2]|e] eqn:Hbin.
    + rewrite Hrun in Hpasses. now contradiction Hpasses.
    + assert (Hwf1 : pgrid_wf (gridWidth (with_PRNG m prng'))
                       (gridHeight (with_PRNG m prng')) (grid m))
        by exact Hwf.
      destruct (bin_points_Err_spec _ _ _ _ _ Hwf1 Hbin) as [-> Hex].
      split; [reflexivity | exact Hex].
  - rewrite Hrun in Hpasses. injection Hpasses as <-.
    now apply generatePoissonPoints_Err in Hpts.
Qed.

(** X23. What [GenerateMap] creates. On a grid of the size the generator has,
    whose objects are bales of hay, origins, barns and trees, a call that
    returns leaves the sizes as they were and the grid in shape; every cell is
    the cell it was followed by what the binning loop and the clusters
    appended, and the grid holds bales of hay, origins, barns and trees only,
    no object of type "default"; after the ground tiles, the instances
    created are those of the objects of the grid that are not origins, each
    of them a bale of hay, a barn or a tree: no object is hidden by a
    cluster. *)
Theorem GenerateMap_instances `{!CRand_range RS} (fuel : nat)
  (m m' : MapGenerator (G:=G)) (rs rs' : RS) (created : list Instance) :
  pgrid_wf (gridWidth m) (gridHeight m) (grid m) ->
  cells_all (fun o => binned_kind o \/ cluster_kind o) (grid m) ->
  GenerateMap normalize orientedAngle fuel m rs = Ok (m', rs', created) ->
  same_config m m'
  /\ pgrid_wf (gridWidth m') (gridHeight m') (grid m')
  /\ grid_extends (fun o => binned_kind o \/ cluster_kind o)
       (grid m) (grid m')
  /\ cells_all (fun o => binned_kind o \/ cluster_kind o) (grid m')
  /\ exists objs,
       created = ground_plane m ++ objs
       /\ Forall2 (fun co i => shown_as (fst co) (snd co) i)
            (visible_objects (grid m') (all_cells m')) objs
       /\ Forall (fun co => type (snd co) <> "originPoint"%string
                            /\ In (snd co)
                                 (cell_or_empty (grid m') (fst (fst co))
                                    (snd (fst co))))
            (visible_objects (grid m') (all_cells m'))
       /\ Forall (fun i => i_type i = "hay"%string
                           \/ i_type i = "barn"%string
                           \/ i_type i = "tree"%string) objs.
Proof.
  intros Hwf Hall Hrun.
  pose proof (GenerateMap_passes fuel m rs Hwf) as Hpasses.
  cbn zeta in Hpasses.
  destruct (generatePoissonPoints fuel _ (PRNG_ m) 50 false _)
    as [[Points prng']|e]; [|congruence].
  destruct (bin_points (with_PRNG m prng') Points (grid m, rs))
    as [[g2 rs2]|e]; [|congruence].
  rewrite Hrun in Hpasses.
  destruct Hpasses as (Hcfg & Hwf' & _ & Hext2 & Hext3 & objs & Hcr & Hshown).
  pose proof Hcfg as (_ & _ & _ & Egw & Egh & _).
  assert (Hext : grid_extends (fun o => binned_kind o \/ cluster_kind o)
                   (grid m) (grid m')).
  { eapply grid_extends_trans.
    - intros x y cell Hcell. destruct (Hext2 _ _ _ Hcell) as (ad & Hc & Ha).
      exists ad. split; [exact Hc|]. eapply Forall_impl; [|exact Ha]. auto.
    - intros x y cell Hcell. destruct (Hext3 _ _ _ Hcell) as (ad & Hc & Ha).
      exists ad. split; [exact Hc|]. eapply Forall_impl; [|exact Ha]. auto. }
  assert (Hall' : cells_all (fun o => binned_kind o \/ cluster_kind o)
                    (grid m')).
  { rewrite Egw, Egh in Hwf'.
    exact (grid_extends_cells_all _ _ _ _ _ Hwf Hwf' Hext Hall). }
  assert (Hvis : Forall (fun co =>
                   visible (snd co) = true
                   /\ In (snd co) (cell_or_empty (grid m') (fst (fst co))
                                     (snd (fst co)))
                   /\ (binned_kind (snd co) \/ cluster_kind (snd co)))
                   (visible_objects (grid m') (all_cells m'))).
  { apply Forall_forall. intros [c o] Hin. unfold visible_objects in Hin.
    apply in_flat_map in Hin as (c' & _ & Hin).
    apply in_map_iff in Hin as (o' & [= <- <-] & Hin).
    apply filter_In in Hin as [Hin Hv]. cbn [fst snd].
    split; [exact Hv|]. split; [exact Hin|].
    unfold cell_or_empty in Hin.
    destruct (cell_at (grid m') (fst c') (snd c')) as [cell|] eqn:Hcell;
      [|destruct Hin].
    pose proof (Hall' _ _ _ Hcell) as Hc. rewrite Forall_forall in Hc.
    now apply Hc. }
  split; [exact Hcfg|]. split; [exact Hwf'|]. split; [exact Hext|].
  split; [exact Hall'|].
  exists objs. split; [exact Hcr|]. split; [exact Hshown|]. split.
  - eapply Forall_impl; [|exact Hvis].
    intros [c o] (Hv & Hin & _). cbn [fst snd] in *. split; [|exact Hin].
    intros Ht. unfold visible in Hv. rewrite Ht in Hv. discriminate.
  - clear -Hshown Hvis. induction Hshown as [|[c o] i l l' Hi Hrest IH];
      [constructor|].
    inversion Hvis as [|? ? (Hv & _ & Hk) Hvis']; subst.
    constructor; [|now apply IH].
    destruct Hi as (_ & -> & _). cbn [snd] in *.
    unfold visible in Hv.
    destruct Hk as [[Hk|Hk]|[Hk|Hk]]; rewrite Hk in *; auto.
    discriminate.
Qed.

(** X20. The origin pass only appends clusters. On a grid of the size the
    generator has, a pass that returns leaves the sizes as they were and the
    grid in shape; every cell is the cell it was followed by barns and trees;
    the origins of a cell are those it had before the pass, so that no cluster
    starts another cluster. *)
Theorem origins_pass_appends_clusters (fuel : nat)
  (m m' : MapGenerator (G:=G)) (rs rs' : RS) :
  pgrid_wf (gridWidth m) (gridHeight m) (grid m) ->
  origins_pass normalize orientedAngle fuel (all_cells m) m rs
  = Ok (m', rs') ->
  same_config m m'
  /\ pgrid_wf (gridWidth m') (gridHeight m') (grid m')
  /\ (cells_consistent (grid m) -> cells_consistent (grid m'))
  /\ forall x y cell, cell_at (grid m) x y = Ok cell ->
       exists added,
         cell_at (grid m') x y = Ok (cell ++ added)
         /\ Forall cluster_kind added
         /\ filter (fun o => String.eqb (type o) "originPoint")
              (cell ++ added)
            = filter (fun o => String.eqb (type o) "originPoint") cell.
Proof.
  intros Hwf Hrun.
  pose proof (origins_pass_spec fuel (all_cells m) m rs Hwf
                (all_cells_in_grid m)) as Hpass.
  rewrite Hrun in Hpass. destruct Hpass as (Hcfg & Hwf' & Hcons & Hext).
  split; [exact Hcfg|]. split; [exact Hwf'|]. split; [exact Hcons|].
  intros x y cell Hcell. destruct (Hext _ _ _ Hcell) as (added & Hc & Ha).
  exists added. split; [exact Hc|]. split; [exact Ha|].
  rewrite filter_app.
  replace (filter (fun o => String.eqb (type o) "originPoint") added)
    with (@nil Object); [now rewrite app_nil_r|].
  symmetry. clear -Ha. induction Ha as [|o l Ho Hl IH]; [reflexivity|].
  cbn [filter]. destruct Ho as [Ho|Ho]; rewrite Ho; exact IH.
Qed.

End MapPasses.

(** ** The tilt of the player *)

Section PlayerTilt.

Import PlayerNode.

Lemma glm_min_Rmin (x y : R) : glm_min x y = Rmin x y.
Proof.
  unfold glm_min, flt, Rmin.
  destruct (Rlt_dec y x), (Rle_dec x y); lra.
Qed.

Lemma glm_max_Rmax (x y : R) : glm_max x y = Rmax x y.
Proof.
  unfold glm_max, flt, Rmax.
  destruct (Rlt_dec x y), (Rle_dec x y); lra.
Qed.

Lemma glm_min_cases (x y : R) :
  (y < x /\ glm_min x y = y) \/ (x <= y /\ glm_min x y = x).
Proof.
  unfold glm_min, flt. destruct (Rlt_dec y x); [left | right]; split; lra.
Qed.

Lemma glm_max_cases (x y : R) :
  (x < y /\ glm_max x y = y) \/ (y <= x /\ glm_max x y = x).
Proof.
  unfold glm_max, flt. destruct (Rlt_dec x y); [left | right]; split; lra.
Qed.

(** X24. The four keys keep the tilt between the two stops. Each of them moves
    one of the two tilts by at most [PI / 20], keeps it between [- PI / 2] and
    [PI / 2], and leaves the other tilt, the distance to the camera and the
    position as they were. *)
Theorem rotate_keeps_tilt_between_stops (p : PlayerNode) :
  - PI / 2 <= x_tilt_percentage p <= PI / 2 ->
  - PI / 2 <= y_tilt_percentage p <= PI / 2 ->
  forall f, In f [rotateLeft; rotateRight; rotateForward; rotateBackward] ->
    - PI / 2 <= x_tilt_percentage (f p) <= PI / 2
    /\ - PI / 2 <= y_tilt_percentage (f p) <= PI / 2
    /\ Rabs (x_tilt_percentage (f p) - x_tilt_percentage p)
       + Rabs (y_tilt_percentage (f p) - y_tilt_percentage p) <= PI / 20
    /\ forward_factor (f p) = forward_factor p
    /\ mPosition (f p) = mPosition p.
Proof.
  intros Hx Hy f Hf. pose proof PI_RGT_0 as Hpi.
  assert (H0 : Rabs 0 = 0) by apply Rabs_R0.
  destruct Hf as [<-|[<-|[<-|[<-|[]]]]];
    unfold rotateLeft, rotateRight, rotateForward, rotateBackward;
    cbn [x_tilt_percentage y_tilt_percentage forward_factor mPosition
         set_x_tilt set_y_tilt].
  - destruct (glm_min_cases (PI / 2) (x_tilt_percentage p + PI / 20))
      as [[Hc ->]|[Hc ->]];
      replace (y_tilt_percentage p - y_tilt_percentage p) with 0 by ring;
      rewrite H0; repeat split; try lra;
      rewrite Rabs_pos_eq; lra.
  - destruct (glm_max_cases (- PI / 2) (x_tilt_percentage p - PI / 20))
      as [[Hc ->]|[Hc ->]];
      replace (y_tilt_percentage p - y_tilt_percentage p) with 0 by ring;
      rewrite H0; repeat split; try lra;
      rewrite Rabs_left1; lra.
  - destruct (glm_min_cases (PI / 2) (y_tilt_percentage p + PI / 20))
      as [[Hc ->]|[Hc ->]];
      replace (x_tilt_percentage p - x_tilt_percentage p) with 0 by ring;
      rewrite H0; repeat split; try lra;
      rewrite Rabs_pos_eq; lra.
  - destruct (glm_max_cases (- PI / 2) (y_tilt_percentage p - PI / 20))
      as [[Hc ->]|[Hc ->]];
      replace (x_tilt_percentage p - x_tilt_percentage p) with 0 by ring;
      rewrite H0; repeat split; try lra;
      rewrite Rabs_left1; lra.
Qed.

(** X25. The key held down. After [n] calls of [rotateLeft] the tilt is the
    tilt at the start plus [n] steps of [PI / 20], stopped at [PI / 2]; from a
    tilt between the stops, twenty calls are enough to reach the stop, and
    every later call stays there. *)
Theorem rotateLeft_repeated (n : nat) (p : PlayerNode) :
  x_tilt_percentage p <= PI / 2 ->
  x_tilt_percentage (Nat.iter n rotateLeft p)
  = Rmin (PI / 2) (x_tilt_percentage p + INR n * (PI / 20))
  /\ y_tilt_percentage (Nat.iter n rotateLeft p) = y_tilt_percentage p
  /\ (- PI / 2 <= x_tilt_percentage p -> (20 <= n)%nat ->
      x_tilt_percentage (Nat.iter n rotateLeft p) = PI / 2).
Proof.
  intros Hx. pose proof PI_RGT_0 as Hpi.
  assert (Hform : x_tilt_percentage (Nat.iter n rotateLeft p)
                  = Rmin (PI / 2) (x_tilt_percentage p + INR n * (PI / 20))).
  { induction n as [|n IH].
    - change (INR 0) with 0. rewrite Rmult_0_l, Rplus_0_r.
      rewrite Rmin_right; [reflexivity | lra].
    - change (Nat.iter (S n) rotateLeft p)
        with (rotateLeft (Nat.iter n rotateLeft p)).
      unfold rotateLeft at 1.
      cbn [x_tilt_percentage set_x_tilt]. rewrite IH, glm_min_Rmin, S_INR.
      replace (x_tilt_percentage p + (INR n + 1) * (PI / 20))
        with (x_tilt_percentage p + INR n * (PI / 20) + PI / 20) by ring.
      set (t := x_tilt_percentage p + INR n * (PI / 20)).
      unfold Rmin. destruct (Rle_dec (PI / 2) t);
        destruct (Rle_dec (PI / 2) (PI / 2 + PI / 20));
        destruct (Rle_dec (PI / 2) (t + PI / 20)); lra. }
  split; [exact Hform|]. split.
  - clear Hform. induction n as [|n IH]; [reflexivity|].
    change (Nat.iter (S n) rotateLeft p)
      with (rotateLeft (Nat.iter n rotateLeft p)).
    unfold rotateLeft at 1.
    cbn [y_tilt_percentage set_x_tilt]. exact IH.
  - intros Hlo Hn. rewrite Hform. apply Rmin_left.
    apply le_INR in Hn. replace (INR 20) with 20 in Hn by (simpl; lra).
    assert (20 * (PI / 20) <= INR n * (PI / 20))
      by (apply Rmult_le_compat_r; lra).
    lra.
Qed.

(** X27. The tilt follows the camera. [rotateByCamera] forgets the tilt the
    player had: the two tilts are the velocity of the camera along x,
    reversed, and along z, times [PI / 2], cut to the interval from -1 to 1;
    the two angles of [SetupShader] are then at most [PI / 16 * sin 1] in
    absolute value. *)
Theorem rotateByCamera_clamps (v : R * R * R) (p : PlayerNode) :
  let p' := rotateByCamera v p in
  x_tilt_percentage p' = Rmin 1 (Rmax (-1) (- fst (fst v) * (PI / 2)))
  /\ y_tilt_percentage p' = Rmin 1 (Rmax (-1) (snd v * (PI / 2)))
  /\ -1 <= x_tilt_percentage p' <= 1
  /\ -1 <= y_tilt_percentage p' <= 1
  /\ Rabs (angle_x p') <= PI / 16 * sin 1
  /\ Rabs (angle_y p') <= PI / 16 * sin 1
  /\ forward_factor p' = forward_factor p
  /\ mPosition p' = mPosition p.
Proof.
  destruct v as [[vx vy] vz]. intros p'. pose proof PI_RGT_0 as Hpi.
  pose proof PI2_3_2 as Hpi2.
  assert (Ex : x_tilt_percentage p' = Rmin 1 (Rmax (-1) (- vx * (PI / 2)))).
  { unfold p', rotateByCamera.
    cbn [x_tilt_percentage y_tilt_percentage set_x_tilt set_y_tilt].
    now rewrite glm_min_Rmin, glm_max_Rmax. }
  assert (Ey : y_tilt_percentage p' = Rmin 1 (Rmax (-1) (vz * (PI / 2)))).
  { unfold p', rotateByCamera.
    cbn [x_tilt_percentage y_tilt_percentage set_x_tilt set_y_tilt].
    now rewrite glm_min_Rmin, glm_max_Rmax. }
  assert (Hclamp : forall t, -1 <= Rmin 1 (Rmax (-1) t) <= 1).
  { intros t. unfold Rmin, Rmax.
    repeat match goal with
           | |- context [Rle_dec ?a ?b] => destruct (Rle_dec a b)
           end; lra. }
  assert (Hsin : forall t, -1 <= t <= 1 ->
                   Rabs (PI / 16 * sin t) <= PI / 16 * sin 1).
  { intros t [Hlo Hhi].
    assert (Hup : sin t <= sin 1) by (apply sin_incr_1; lra).
    assert (Hdn : sin (Ropp 1) <= sin t) by (apply sin_incr_1; lra).
    rewrite sin_neg in Hdn.
    rewrite Rabs_mult, (Rabs_pos_eq (PI / 16)) by lra.
    apply Rmult_le_compat_l; [lra|].
    apply Rabs_le. lra. }
  cbn [fst snd].
  split; [exact Ex|]. split; [exact Ey|].
  split; [rewrite Ex; apply Hclamp|].
  split; [rewrite Ey; apply Hclamp|].
  split; [unfold angle_x; apply Hsin; rewrite Ex; apply Hclamp|].
  split; [unfold angle_y; apply Hsin; rewrite Ey; apply Hclamp|].
  split; reflexivity.
Qed.

End PlayerTilt.

(** ** A run of [GenerateMap] with a cluster next to a bale of hay *)

Section ClusterRun.

Import PoissonGenerator Spec MapGenerator Runs.

Context {order : ArgOrder}.

(** Candidates drawn with zeros around a point less than [minDist] from the
    right edge are all outside the square: [n] of them use up [2 * n]
    draws and change nothing else. *)
Lemma candidates_zeros (n : nat) (md c : R) (point : Point)
  (samples active : list Point) (gr : Grid) (rest : list R) :
  inShape false (Point_xy (p_x point + md) (p_y point)) = false ->
  candidates (G:=list R) n false md c point
    (mkState samples active gr (repeat 0 (2 * n) ++ rest))
  = Ok (mkState samples active gr rest).
Proof.
  intros Hout. induction n as [|n IH]; [reflexivity|].
  replace (2 * S n)%nat with (S (S (2 * n))) by lia.
  cbn [repeat app candidates].
  rewrite (candidate_reject_shape false md c point
             (Point_xy (p_x point + md) (p_y point))
             (mkState samples active gr (0 :: 0 :: repeat 0 (2 * n) ++ rest))
             (repeat 0 (2 * n) ++ rest));
    [ | apply around_zero_angle | exact Hout ].
  cbn [bind samplePoints processList grid]. exact IH.
Qed.

(** The sampler run of [GenerateMap]: one point, (7/8, 7/8). *)
Lemma cluster_map_points :
  generatePoissonPoints (G:=list R) 3 36 cluster_script 50 false (1 / 5)
  = Ok ([Point_xy (7 / 8) (7 / 8)], [1 / 4; 1 / 4]).
Proof.
  assert (Hmd : 0 < 1 / 5) by lra.
  assert (Heff : effective_minDist 36 (1 / 5) = 1 / 5)
    by (apply effective_minDist_pos; lra).
  set (p0 := Point_xy (7 / 8) (7 / 8)).
  assert (Hp0 : inShape false p0 = true).
  { simpl. unfold isInRectangle. simpl.
    repeat (apply andb_true_intro; split); apply fle_true; lra. }
  assert (Hfp : firstPoint_loop (G:=list R) 3 false cluster_script
                = Ok (p0, repeat 0 100 ++ [1 / 4; 1 / 4])).
  { apply (firstPoint_same 2 false (7 / 8)). exact Hp0. }
  destruct (seed_state_Ok 3 cluster_script _ false (1 / 5) p0 Hmd
              ltac:(apply grid_fits_ge; lra) Hfp)
    as [gr0 Hseed]; [simpl; lra | simpl; lra |].
  unfold generatePoissonPoints, generatePoissonPoints_state.
  rewrite Heff, Hseed. cbn [bind].
  rewrite (main_loop_turn 2 36 50 false _ _ _
             (mkState [p0] [] gr0 [1 / 4; 1 / 4]) p0 []
             (repeat 0 100 ++ [1 / 4; 1 / 4]));
    [ | reflexivity | reflexivity | ].
  - now rewrite main_loop_exit by reflexivity.
  - change (Z.to_nat 50) with 50%nat.
    cbn [samplePoints grid].
    apply (candidates_zeros 50 (1 / 5) (cellSize_of (1 / 5)) p0 [p0] [] gr0
             [1 / 4; 1 / 4]).
    simpl. unfold isInRectangle. simpl.
    replace (fle (7 / 8 + 1 / 5) 1) with false
      by (symmetry; apply fle_false; lra).
    now rewrite !andb_false_r.
Qed.

(** The sampler run of the cluster: one point, (1/4, 1/4). *)
Lemma cluster_points (fuel : nat) :
  generatePoissonPoints (G:=list R) (S fuel) 1 [1 / 4; 1 / 4] 70 true (-1)
  = Ok ([Point_xy (1 / 4) (1 / 4)], []).
Proof.
  assert (Hin : inShape true (Point_xy (1 / 4) (1 / 4)) = true).
  { simpl. unfold isInCircle. simpl. apply fle_true. lra. }
  destruct (few_points_run (G:=list R) (S fuel) 1 [1 / 4; 1 / 4] [] 70 true
              (-1) (Point_xy (1 / 4) (1 / 4)) (le_n 1))
    as (gr & _ & Hrun).
  - rewrite effective_minDist_one. lra.
  - rewrite effective_minDist_one. apply grid_fits_ge. lra.
  - apply firstPoint_same. exact Hin.
  - simpl. lra.
  - simpl. lra.
  - unfold generatePoissonPoints. now rewrite Hrun.
Qed.

Lemma hay2_near : distance (pos origin2) (pos hay2) < 20.
Proof. apply distance_lt; simpl; lra. Qed.

(** The clearing scan around [origin2] marks a copy of the hay and a copy
    of the origin. *)
Lemma clearing_scan_map2 :
  clearing_scan map2_binned origin2 20
  = Ok [set_type hay2 "default"; set_type origin2 "default"].
Proof.
  unfold clearing_scan.
  change (scanned_cells map2_binned origin2)
    with [(3, 3); (3, 4); (4, 3); (4, 4)]%Z.
  cbn [clearing_scan_cells].
  change (cell_at (grid map2_binned) 3 3) with (Ok (@nil Object)).
  change (cell_at (grid map2_binned) 3 4) with (Ok (@nil Object)).
  change (cell_at (grid map2_binned) 4 3) with (Ok (@nil Object)).
  change (cell_at (grid map2_binned) 4 4) with (Ok [hay2; origin2]).
  cbn [bind map app]. unfold clearing_body.
  replace (flt (distance (pos origin2) (pos hay2)) 20) with true
    by (symmetry; apply flt_true, hay2_near).
  replace (flt (distance (pos origin2) (pos origin2)) 20) with true
    by (symmetry; apply flt_true, distance_lt; simpl; lra).
  reflexivity.
Qed.

Lemma member_cell2 :
  Zfloor (fst (member_pos origin2 20 (Point_xy (1 / 4) (1 / 4))) / 20) = 4%Z
  /\ Zfloor (snd (member_pos origin2 20 (Point_xy (1 / 4) (1 / 4))) / 20)
     = 4%Z.
Proof.
  unfold member_pos, origin2. cbn [fst snd pos p_x p_y Point_xy].
  split; apply Zfloor_eq; lra.
Qed.

(** The cluster pass around [origin2]: a barn cluster of radius 20 with
    one member, five units to the left of the origin and five units below
    it, appended to the cell (4, 4). *)
Lemma cluster_run2 (fuel : nat) :
  GenerateCluster (G:=list R) (RS:=unit) (fun v => v) (fun _ _ => 0) (S fuel)
    origin2 map2_binned tt
  = Ok (map2_done, tt).
Proof.
  unfold GenerateCluster. cbn [rand zero_rand].
  change (Z.rem 0 100 <? 20)%Z with true.
  cbn [cluster_radius cluster_count rand zero_rand].
  change (IZR (cellSize map2_binned)) with 20.
  rewrite clearing_scan_map2. cbn [bind].
  change (Z.to_nat (Z.rem 0 6 + 1)) with 1%nat.
  change (PRNG_ map2_binned) with [1 / 4; 1 / 4].
  rewrite (cluster_points fuel).
  cbn [bind place_members]. unfold place_member.
  change (IZR (cellSize map2_binned)) with 20.
  destruct member_cell2 as [-> ->].
  reflexivity.
Qed.

(** The origin pass on the binned map: the cluster is generated when the
    loop over the cell (4, 4) comes to the origin. *)
Lemma origins_pass_map2 :
  origins_pass (G:=list R) (RS:=unit) (fun v => v) (fun _ _ => 0) 3
    (all_cells map2_binned) map2_binned tt
  = Ok (map2_done, tt).
Proof.
  change (all_cells map2_binned)
    with ([(0, 0); (0, 1); (0, 2); (0, 3); (0, 4);
           (1, 0); (1, 1); (1, 2); (1, 3); (1, 4);
           (2, 0); (2, 1); (2, 2); (2, 3); (2, 4);
           (3, 0); (3, 1); (3, 2); (3, 3); (3, 4);
           (4, 0); (4, 1); (4, 2); (4, 3); (4, 4)]%Z).
  do 24 (cbn [origins_pass];
         match goal with
         | |- context [origins_in_cell ?n ?o ?f ?x ?y 0 map2_binned tt] =>
             change (origins_in_cell n o f x y 0 map2_binned tt)
               with (Ok (map2_binned, tt))
         end; cbn [bind]).
  cbn [origins_pass].
  assert (Hcell : origins_in_cell (G:=list R) (RS:=unit) (fun v => v)
                    (fun _ _ => 0) 3 4 4 0 map2_binned tt
                  = Ok (map2_done, tt)).
  { cbn [origins_in_cell].
    change (cell_at (grid map2_binned) 4 4) with (Ok [hay2; origin2]).
    cbn [bind nth_error].
    change (String.eqb (type hay2) "originPoint") with false. cbn [bind].
    change (cell_at (grid map2_binned) 4 4) with (Ok [hay2; origin2]).
    cbn [bind nth_error].
    change (String.eqb (type origin2) "originPoint") with true.
    rewrite (cluster_run2 1). cbn [bind].
    change (cell_at (grid map2_done) 4 4) with (Ok [hay2; origin2; barn2]).
    cbn [bind nth_error].
    change (String.eqb (type barn2) "originPoint") with false. cbn [bind].
    change (cell_at (grid map2_done) 4 4) with (Ok [hay2; origin2; barn2]).
    reflexivity. }
  rewrite Hcell. reflexivity.
Qed.

(** The whole of the second call: the hay, less than four units away from
    the origin and in its cell, is still a bale of hay in the grid, and an
    instance is created for it, next to the barn. *)
Lemma GenerateMap_cluster_run :
  GenerateMap (G:=list R) (RS:=unit) (fun v => v) (fun _ _ => 0) 3 map2 tt
  = Ok (map2_done, tt, ground_plane map2 ++ [hay2_instance; barn2_instance]).
Proof.
  unfold GenerateMap.
  change (gridWidth map2) with 5%Z. change (gridHeight map2) with 5%Z.
  change (density map2) with 1. change (PRNG_ map2) with cluster_script.
  change ((5 + 1) * (5 + 1))%Z with 36%Z. change (Z.min 5 5) with 5%Z.
  replace (IZR 36 * 1) with (IZR 36) by ring.
  rewrite truncZ_IZR. change (Z.to_nat 36) with 36%nat.
  replace (1 / (1 * 5)) with (1 / 5) by field.
  rewrite cluster_map_points. cbn [bind bin_points].
  unfold bin_point.
  cbn [p_x p_y Point_xy fst snd with_PRNG with_grid width height cellSize
       map2 MapGenerator_new grid rand zero_rand].
  change (IZR (1 * 100)) with 100.
  replace (Zfloor (7 / 8 * 100 / 20)) with 4%Z
    by (symmetry; apply Zfloor_eq; lra).
  change (Z.rem 0 100 <? 15)%Z with true.
  cbn [bind cell_push_back].
  change (cell_push_back (grid_corner [hay2]) 4 4
            (mkObject (7 / 8 * 100, 7 / 8 * 100) 4 4 "originPoint" 0))
    with (Ok (grid_corner [hay2; origin2])).
  cbn [bind].
  change (with_grid _ (grid_corner [hay2; origin2])) with map2_binned.
  rewrite origins_pass_map2. cbn [bind].
  reflexivity.
Qed.

End ClusterRun.

(** ** The further properties at work *)

Section SamplerAtWork.

Import PoissonGenerator Spec Runs.






Lemma popRandom_takes_one_witness :
  [Point_xy 0 0; Point_xy 1 1] <> []
  /\ popRandom (G:=nat) [Point_xy 0 0; Point_xy 1 1] 0%nat
     = Ok (Point_xy 1 1, [Point_xy 0 0], 1%nat).
Proof.
  assert (Hne : [Point_xy 0 0; Point_xy 1 1] <> []) by discriminate.
  split; [exact Hne|].
  destruct (proj2 (popRandom_takes_one (G:=nat)
                     [Point_xy 0 0; Point_xy 1 1] 0%nat) Hne)
    as (_ & _ & p & Hp & Hpop & _).
  injection Hp as <-. exact Hpop.
Defined.

Lemma generateRandomPointAround_ring_witness :
  0 <= 1 / 2
  /\ getDistance (Point_xy (1 / 2) (1 / 2))
       (fst (generateRandomPointAround (G:=unit) (Point_xy (1 / 2) (1 / 2))
               (1 / 2) tt))
     = 1 / 2 * (1 / 2 + 1).
Proof.
  assert (Hmd : 0 <= 1 / 2) by lra.
  split; [exact Hmd|].
  exact (proj1 (proj2 (generateRandomPointAround_ring (G:=unit)
                         (Point_xy (1 / 2) (1 / 2)) (1 / 2) tt Hmd))).
Defined.

Lemma generatePoissonPoints_sequence_witness :
  generatePoissonPoints (G:=list R) 1 2 two_point_script 1 true (1 / 2)
  = Ok ([Point_xy (1 / 4) (1 / 2); Point_xy (3 / 4) (1 / 2)], [])
  /\ (1 <= List.length [Point_xy (1 / 4) (1 / 2); Point_xy (3 / 4) (1 / 2)]
      <= Nat.max 1 (2 - 1 + Z.to_nat 1))%nat.
Proof.
  split; [exact two_point_points|].
  exact (proj2 (proj2 (generatePoissonPoints_sequence 1 2 two_point_script []
                         1 true (1 / 2) _ two_point_points))).
Defined.

(** Two runs that enter the [while] loop with four turns of fuel: the one
    accepts a candidate and returns two points, the other stops on the
    write of its candidate outside the grid. *)
Lemma generatePoissonPoints_returns_witness :
  (0 < effective_minDist 2 (1 / 2)
   /\ grid_fits (effective_minDist 2 (1 / 2))
   /\ firstPoint_loop (G:=list R) 4 true two_point_script
      = Ok (Point_xy (1 / 4) (1 / 2), [0; 0])
   /\ (2 * 2 <= 4)%nat
   /\ generatePoissonPoints (G:=list R) 4 2 two_point_script 1 true (1 / 2)
      = Ok ([Point_xy (1 / 4) (1 / 2); Point_xy (3 / 4) (1 / 2)], []))
  /\ (0 < effective_minDist 2 (sqrt 2 / 2)
      /\ grid_fits (effective_minDist 2 (sqrt 2 / 2))
      /\ firstPoint_loop (G:=list R) 4 false edge_script
         = Ok (Point_xy (1 - sqrt 2 / 2) (1 - sqrt 2 / 2), [0; 0])
      /\ (2 * 2 <= 4)%nat
      /\ generatePoissonPoints (G:=list R) 4 2 edge_script 1 false
           (sqrt 2 / 2)
         = Err OutOfBounds).
Proof.
  assert (Hfuel : (2 * 2 <= 4)%nat) by lia.
  assert (Hle : (1 <= 4)%nat) by lia.
  split.
  - assert (Heff : effective_minDist 2 (1 / 2) = 1 / 2)
      by (apply effective_minDist_pos; lra).
    assert (Hmd : 0 < effective_minDist 2 (1 / 2)) by (rewrite Heff; lra).
    assert (Hfit : grid_fits (effective_minDist 2 (1 / 2)))
      by (rewrite Heff; apply grid_fits_ge; lra).
    assert (Hfp1 : firstPoint_loop (G:=list R) 1 true two_point_script
                   = Ok (Point_xy (1 / 4) (1 / 2), [0; 0])).
    { cbn [firstPoint_loop two_point_script]. unfold draw_point. simpl.
      replace (isInCircle (Point_xy (1 / 4) (1 / 2))) with true;
        [reflexivity|].
      symmetry. unfold isInCircle. simpl. apply fle_true. lra. }
    assert (Hfp : firstPoint_loop (G:=list R) 4 true two_point_script
                  = Ok (Point_xy (1 / 4) (1 / 2), [0; 0])).
    { rewrite (firstPoint_loop_more 1 4 true two_point_script Hle);
        [exact Hfp1 | rewrite Hfp1; discriminate]. }
    assert (Hrun : generatePoissonPoints (G:=list R) 4 2 two_point_script 1
                     true (1 / 2)
                   = Ok ([Point_xy (1 / 4) (1 / 2); Point_xy (3 / 4) (1 / 2)],
                         [])).
    { rewrite (generatePoissonPoints_more 1 4 2 two_point_script 1 true
                 (1 / 2) Hle);
        [exact two_point_points | rewrite two_point_points; discriminate]. }
    split; [exact Hmd|]. split; [exact Hfit|]. split; [exact Hfp|].
    split; [exact Hfuel|].
    destruct (generatePoissonPoints_returns 4 2 two_point_script [0; 0] 1
                true (1 / 2) _ Hmd Hfit Hfp Hfuel)
      as [(pts & g' & Hret)|Herr].
    + rewrite Hret. rewrite Hrun in Hret. now injection Hret as <- <-.
    + rewrite Hrun in Herr. discriminate.
  - pose proof sqrt2_bounds as [Hlo Hhi].
    assert (Heff : effective_minDist 2 (sqrt 2 / 2) = sqrt 2 / 2)
      by (apply effective_minDist_pos; lra).
    assert (Hmd : 0 < effective_minDist 2 (sqrt 2 / 2))
      by (rewrite Heff; lra).
    assert (Hfit : grid_fits (effective_minDist 2 (sqrt 2 / 2)))
      by (rewrite Heff; apply grid_fits_ge; lra).
    assert (Hfp : firstPoint_loop (G:=list R) 4 false edge_script
                  = Ok (Point_xy (1 - sqrt 2 / 2) (1 - sqrt 2 / 2), [0; 0])).
    { apply firstPoint_same. simpl. unfold isInRectangle. simpl.
      repeat (apply andb_true_intro; split); apply fle_true; lra. }
    assert (Hrun : generatePoissonPoints (G:=list R) 4 2 edge_script 1 false
                     (sqrt 2 / 2)
                   = Err OutOfBounds).
    { rewrite (generatePoissonPoints_more 1 4 2 edge_script 1 false
                 (sqrt 2 / 2) Hle);
        [exact edge_run | rewrite edge_run; discriminate]. }
    split; [exact Hmd|]. split; [exact Hfit|]. split; [exact Hfp|].
    split; [exact Hfuel|].
    destruct (generatePoissonPoints_returns 4 2 edge_script [0; 0] 1 false
                (sqrt 2 / 2) _ Hmd Hfit Hfp Hfuel)
      as [(pts & g' & Hret)|Herr].
    + rewrite Hrun in Hret. discriminate.
    + exact Herr.
Defined.


Lemma first_point_may_not_end_witness :
  (forall g : list R, g = [] ->
     inShape true
       (Point_xy (fst (randomFloat g))
          (fst (randomFloat (snd (randomFloat g))))) = false
     /\ snd (randomFloat (snd (randomFloat g))) = [])
  /\ firstPoint_loop (G:=list R) 100 true [] = Err OutOfFuel.
Proof.
  assert (Hstuck : forall g : list R, g = [] ->
            inShape true
              (Point_xy (fst (randomFloat g))
                 (fst (randomFloat (snd (randomFloat g))))) = false
            /\ snd (randomFloat (snd (randomFloat g))) = []).
  { intros g ->. cbn [randomFloat script_prng fst snd inShape].
    split; [|reflexivity].
    unfold isInCircle. cbn [p_x p_y Point_xy]. apply fle_false. lra. }
  split; [exact Hstuck|].
  exact (first_point_may_not_end (G:=list R) true (fun g => g = []) Hstuck
           100 [] eq_refl).
Defined.

End SamplerAtWork.

Section MapAtWork.

Import PoissonGenerator MapGenerator MapSpec Runs.

Lemma grid_5x5_wf (g : list (list (list Object))) :
  List.length g = 5%nat -> Forall (fun col => List.length col = 5%nat) g ->
  pgrid_wf 5 5 g.
Proof.
  intros Hlen Hcols. unfold pgrid_wf.
  split; [lia|]. split; [lia|]. split; [exact Hlen | exact Hcols].
Qed.

Lemma new_map_wf {G : Type} (prng : G) :
  pgrid_wf (gridWidth (MapGenerator_new prng 1 1))
    (gridHeight (MapGenerator_new prng 1 1))
    (grid (MapGenerator_new prng 1 1)).
Proof. apply grid_5x5_wf; [reflexivity | repeat constructor]. Qed.

Lemma map0_wf : pgrid_wf (gridWidth map0) (gridHeight map0) (grid map0).
Proof. apply grid_5x5_wf; [reflexivity | repeat constructor]. Qed.

Lemma MapGenerator_new_grid_witness :
  (0 <= 1)%Z
  /\ gridWidth (MapGenerator_new (G:=unit) tt 1 1) = 5%Z
  /\ cell_at (grid (MapGenerator_new (G:=unit) tt 1 1)) 5 0
     = Err OutOfRange.
Proof.
  assert (H1 : (0 <= 1)%Z) by lia.
  split; [exact H1|].
  destruct (MapGenerator_new_grid (G:=unit) tt 1 1 H1 H1)
    as (_ & Egw & _ & _ & _ & _ & _ & _ & Hout).
  split; [exact Egw|]. apply Hout. rewrite Egw. lia.
Defined.

Lemma bin_points_inside_witness :
  let m := MapGenerator_new (G:=unit) tt 1 1 in
  (0 < cellSize m)%Z /\ (0 < gridWidth m)%Z /\ (0 < gridHeight m)%Z
  /\ width m = (gridWidth m * cellSize m)%Z
  /\ height m = (gridHeight m * cellSize m)%Z
  /\ pgrid_wf (gridWidth m) (gridHeight m) (grid m)
  /\ Forall (fun p => 0 <= p_x p < 1 /\ 0 <= p_y p < 1)
       [Point_xy (1 / 2) (1 / 2)]
  /\ exists g' rs',
       bin_points (RS:=unit) m [Point_xy (1 / 2) (1 / 2)] (grid m, tt)
       = Ok (g', rs')
       /\ total_objects g' = 1%nat.
Proof.
  intros m.
  assert (Hcs : (0 < cellSize m)%Z) by (cbn; lia).
  assert (Hgw : (0 < gridWidth m)%Z) by (cbn; lia).
  assert (Hgh : (0 < gridHeight m)%Z) by (cbn; lia).
  assert (Ew : width m = (gridWidth m * cellSize m)%Z) by reflexivity.
  assert (Eh : height m = (gridHeight m * cellSize m)%Z) by reflexivity.
  assert (Hpts : Forall (fun p => 0 <= p_x p < 1 /\ 0 <= p_y p < 1)
                   [Point_xy (1 / 2) (1 / 2)])
    by (constructor; [simpl; lra | constructor]).
  split; [exact Hcs|]. split; [exact Hgw|]. split; [exact Hgh|].
  split; [exact Ew|]. split; [exact Eh|]. split; [exact (new_map_wf tt)|].
  split; [exact Hpts|].
  destruct (bin_points_inside (RS:=unit) m [Point_xy (1 / 2) (1 / 2)]
              (grid m) tt Hcs Hgw Hgh Ew Eh (new_map_wf tt) Hpts)
    as (g' & rs' & Hrun & _ & Htot & _).
  exists g', rs'. split; [exact Hrun | exact Htot].
Defined.

Lemma bin_points_on_edge_witness :
  let m := MapGenerator_new (G:=unit) tt 1 1 in
  (0 < cellSize m)%Z /\ (0 < gridWidth m)%Z /\ (0 < gridHeight m)%Z
  /\ width m = (gridWidth m * cellSize m)%Z
  /\ height m = (gridHeight m * cellSize m)%Z
  /\ pgrid_wf (gridWidth m) (gridHeight m) (grid m)
  /\ Forall (fun p => 0 <= p_x p <= 1 /\ 0 <= p_y p <= 1) [Point_xy 1 0]
  /\ Exists (fun p => p_x p = 1 \/ p_y p = 1) [Point_xy 1 0]
  /\ bin_points (RS:=unit) m [Point_xy 1 0] (grid m, tt) = Err OutOfRange.
Proof.
  intros m.
  assert (Hcs : (0 < cellSize m)%Z) by (cbn; lia).
  assert (Hgw : (0 < gridWidth m)%Z) by (cbn; lia).
  assert (Hgh : (0 < gridHeight m)%Z) by (cbn; lia).
  assert (Ew : width m = (gridWidth m * cellSize m)%Z) by reflexivity.
  assert (Eh : height m = (gridHeight m * cellSize m)%Z) by reflexivity.
  assert (Hpts : Forall (fun p => 0 <= p_x p <= 1 /\ 0 <= p_y p <= 1)
                   [Point_xy 1 0])
    by (constructor; [simpl; lra | constructor]).
  assert (Hedge : Exists (fun p => p_x p = 1 \/ p_y p = 1) [Point_xy 1 0])
    by (constructor; now left).
  split; [exact Hcs|]. split; [exact Hgw|]. split; [exact Hgh|].
  split; [exact Ew|]. split; [exact Eh|]. split; [exact (new_map_wf tt)|].
  split; [exact Hpts|]. split; [exact Hedge|].
  exact (bin_points_on_edge (RS:=unit) m [Point_xy 1 0] (grid m) tt Hcs Hgw
           Hgh Ew Eh (new_map_wf tt) Hpts Hedge).
Defined.

Lemma GenerateCluster_fails_with_sampler_witness :
  pgrid_wf (gridWidth map0) (gridHeight map0) (grid map0)
  /\ exists m' rs',
       GenerateCluster (G:=unit) (RS:=unit) (fun v => v) (fun _ _ => 0) 1
         origin0 map0 tt = Ok (m', rs')
       /\ PRNG_ m' = tt.
Proof.
  split; [exact map0_wf|].
  pose proof (GenerateCluster_fails_with_sampler (G:=unit) (RS:=unit)
                (fun v => v) (fun _ _ => 0) 1 origin0 map0 tt map0_wf) as Hrun.
  cbn zeta in Hrun.
  change (Z.to_nat
            (fst (cluster_count (RS:=unit)
                    (Z.rem (fst (rand tt)) 100 <? 20)%Z
                    (snd (cluster_radius map0
                            (Z.rem (fst (rand tt)) 100 <? 20)%Z
                            (snd (rand tt)))))))
    with 1%nat in Hrun.
  change (PRNG_ map0) with tt in Hrun.
  rewrite (half_run 0 1 70 true (-1) (le_n 1)) in Hrun;
    [exact Hrun | rewrite effective_minDist_one; lra
     | rewrite effective_minDist_one; apply grid_fits_ge; lra].
Defined.

Lemma GenerateCluster_members_witness :
  pgrid_wf (gridWidth map0) (gridHeight map0) (grid map0)
  /\ GenerateCluster (G:=unit) (RS:=unit) (fun v => v) (fun _ _ => 0) 1
       origin0 map0 tt
     = Ok (with_grid map0
             (([origin0; hay0; barn0] :: repeat [] 4)
              :: repeat (repeat [] 5) 4), tt)
  /\ same_config map0
       (with_grid map0
          (([origin0; hay0; barn0] :: repeat [] 4)
           :: repeat (repeat [] 5) 4)).
Proof.
  split; [exact map0_wf|]. split; [exact (cluster_run0 0)|].
  exact (proj1 (GenerateCluster_members (G:=unit) (RS:=unit) (fun v => v)
                  (fun _ _ => 0) 1 origin0 map0 _ tt tt map0_wf
                  (cluster_run0 0))).
Defined.

Lemma cluster_parameters_witness :
  (0 < cellSize map0)%Z
  /\ IZR (cellSize map0) <= fst (cluster_radius (RS:=unit) map0 false tt)
     <= 9 / 5 * IZR (cellSize map0).
Proof.
  assert (Hcs : (0 < cellSize map0)%Z) by (cbn; lia).
  split; [exact Hcs|].
  exact (proj1 (cluster_parameters (RS:=unit) map0 false tt Hcs)).
Defined.

Lemma final_pass_instances_witness :
  pgrid_wf (gridWidth map0) (gridHeight map0) (grid map0)
  /\ exists created rs',
       final_pass (RS:=unit) (grid map0) (all_cells map0) tt
       = Ok (created, rs')
       /\ List.length created
          = List.length (visible_objects (grid map0) (all_cells map0)).
Proof.
  split; [exact map0_wf|].
  destruct (final_pass_instances (RS:=unit) map0 tt map0_wf)
    as (created & rs' & Hrun & _ & Hlen).
  exists created, rs'. split; [exact Hrun | exact Hlen].
Defined.

(** The barn of the cluster around [origin2] is five units to the left of
    the origin and five units below it. *)
Lemma cluster_members_within_radius_witness :
  (0 < cellSize map2_binned)%Z
  /\ GenerateCluster (G:=list R) (RS:=unit) (fun v => v) (fun _ _ => 0) 2
       origin2 map2_binned tt
     = Ok (map2_done, tt)
  /\ cell_at (grid map2_done) 4 4 = Ok ([hay2; origin2] ++ [barn2])
  /\ pos barn2
     = (fst (pos origin2) + 1 / 4 * 20 - 20 / 2,
        snd (pos origin2) + 1 / 4 * 20 - 20 / 2)
  /\ distance (pos origin2) (pos barn2) <= 20 / 2.
Proof.
  assert (Hcs : (0 < cellSize map2_binned)%Z) by reflexivity.
  split; [exact Hcs|]. split; [exact (cluster_run2 1)|].
  split; [reflexivity|].
  destruct (cluster_members_within_radius (fun v => v) (fun _ _ => 0) 2
              origin2 map2_binned _ tt tt Hcs (cluster_run2 1))
    as (Points & g' & Hpts & _ & Hgrid).
  change (Z.to_nat _) with 1%nat in Hpts.
  change (PRNG_ map2_binned) with [1 / 4; 1 / 4] in Hpts.
  rewrite (cluster_points 1) in Hpts. injection Hpts as <- <-.
  destruct (Hgrid 4%Z 4%Z [hay2; origin2] eq_refl)
    as (added & Hadded & Hall).
  change (cell_at _ 4 4) with (Ok ([hay2; origin2] ++ [barn2])) in Hadded.
  injection Hadded as <-.
  apply Forall_inv in Hall. destruct Hall as ((p & Hp & Hpos) & Hnear & _).
  destruct Hp as [<-|[]].
  split; [exact Hpos | exact Hnear].
Defined.

Lemma GenerateMap_throws_in_binning_witness :
  let m := MapGenerator_new (G:=list R) map_edge_script 1 1 in
  pgrid_wf (gridWidth m) (gridHeight m) (grid m)
  /\ GenerateMap (RS:=unit) (fun v => v) (fun _ _ => 0) 2 m tt
     = Err OutOfRange
  /\ exists Points prng',
       bin_points (RS:=unit) (with_PRNG m prng') Points (grid m, tt)
       = Err OutOfRange.
Proof.
  intros m. split; [exact (new_map_wf map_edge_script)|].
  split; [exact (GenerateMap_edge_throws (fun v => v) (fun _ _ => 0))|].
  destruct (GenerateMap_throws_in_binning (RS:=unit) (fun v => v)
              (fun _ _ => 0) 2 m tt (new_map_wf map_edge_script)
              (GenerateMap_edge_throws (fun v => v) (fun _ _ => 0)))
    as (Points & prng' & _ & Hbin & _).
  exists Points, prng'. exact Hbin.
Defined.

Lemma map2_wf : pgrid_wf (gridWidth map2) (gridHeight map2) (grid map2).
Proof. apply grid_5x5_wf; [reflexivity | repeat constructor]. Qed.

Lemma map2_binned_wf :
  pgrid_wf (gridWidth map2_binned) (gridHeight map2_binned)
    (grid map2_binned).
Proof. apply grid_5x5_wf; [reflexivity | repeat constructor]. Qed.

Lemma map2_cells_all :
  cells_all (fun o => binned_kind o \/ cluster_kind o) (grid map2).
Proof.
  intros x y cell Hcell.
  apply cell_at_Ok in Hcell as (col & Hcol & Hc).
  apply vec_at_Ok in Hcol as [_ Hcol]. apply nth_error_In in Hcol.
  apply vec_at_Ok in Hc as [_ Hc]. apply nth_error_In in Hc.
  assert (Hall : Forall (Forall (Forall (fun o => binned_kind o
                                                  \/ cluster_kind o)))
                   (grid map2)).
  { cbn [grid map2 with_grid grid_corner repeat].
    repeat (apply Forall_cons || apply Forall_nil).
    left. left. reflexivity. }
  rewrite Forall_forall in Hall. specialize (Hall col Hcol).
  rewrite Forall_forall in Hall. exact (Hall cell Hc).
Qed.

(** A second call of [GenerateMap] on a map that holds a bale of hay: an
    origin is binned into the cell of the hay, less than four units away
    from it, and gets a cluster of one barn; the hay is still a bale of hay
    in the grid, and an instance is created for it. *)
Lemma GenerateMap_instances_witness :
  pgrid_wf (gridWidth map2) (gridHeight map2) (grid map2)
  /\ cells_all (fun o => binned_kind o \/ cluster_kind o) (grid map2)
  /\ GenerateMap (G:=list R) (RS:=unit) (fun v => v) (fun _ _ => 0) 3 map2 tt
     = Ok (map2_done, tt,
           ground_plane map2 ++ [hay2_instance; barn2_instance])
  /\ distance (pos origin2) (pos hay2) < 20
  /\ cell_at (grid map2_done) 4 4 = Ok [hay2; origin2; barn2]
  /\ same_config map2 map2_done
  /\ grid_extends (fun o => binned_kind o \/ cluster_kind o)
       (grid map2) (grid map2_done)
  /\ exists objs,
       ground_plane map2 ++ [hay2_instance; barn2_instance]
       = ground_plane map2 ++ objs
       /\ Forall (fun i => i_type i = "hay"%string
                           \/ i_type i = "barn"%string
                           \/ i_type i = "tree"%string) objs.
Proof.
  split; [exact map2_wf|]. split; [exact map2_cells_all|].
  split; [exact GenerateMap_cluster_run|].
  split; [exact hay2_near|]. split; [reflexivity|].
  destruct (GenerateMap_instances (G:=list R) (RS:=unit) (fun v => v)
              (fun _ _ => 0) 3 map2 map2_done tt tt _ map2_wf map2_cells_all
              GenerateMap_cluster_run)
    as (Hcfg & _ & Hext & _ & objs & Hcr & _ & _ & Hkinds).
  split; [exact Hcfg|]. split; [exact Hext|].
  exists objs. split; [exact Hcr | exact Hkinds].
Defined.

(** The origin pass of that call: the cluster around [origin2] is appended
    to the cell (4, 4), and the barn starts no other cluster. *)
Lemma origins_pass_appends_clusters_witness :
  pgrid_wf (gridWidth map2_binned) (gridHeight map2_binned)
    (grid map2_binned)
  /\ origins_pass (G:=list R) (RS:=unit) (fun v => v) (fun _ _ => 0) 3
       (all_cells map2_binned) map2_binned tt
     = Ok (map2_done, tt)
  /\ cell_at (grid map2_binned) 4 4 = Ok [hay2; origin2]
  /\ cell_at (grid map2_done) 4 4 = Ok ([hay2; origin2] ++ [barn2])
  /\ cluster_kind barn2
  /\ same_config map2_binned map2_done.
Proof.
  split; [exact map2_binned_wf|]. split; [exact origins_pass_map2|].
  split; [reflexivity|]. split; [reflexivity|].
  destruct (origins_pass_appends_clusters (G:=list R) (RS:=unit)
              (fun v => v) (fun _ _ => 0) 3 map2_binned map2_done tt tt
              map2_binned_wf origins_pass_map2)
    as (Hcfg & _ & _ & Hext).
  destruct (Hext 4%Z 4%Z [hay2; origin2] eq_refl)
    as (added & Hadded & Hkind & _).
  change (cell_at _ 4 4) with (Ok ([hay2; origin2] ++ [barn2])) in Hadded.
  injection Hadded as <-.
  split; [exact (Forall_inv Hkind) | exact Hcfg].
Defined.

End MapAtWork.

Section PlayerAtWork.

Import PlayerNode Runs.

Lemma player0_between_stops :
  - PI / 2 <= x_tilt_percentage player0 <= PI / 2
  /\ - PI / 2 <= y_tilt_percentage player0 <= PI / 2.
Proof.
  pose proof PI_RGT_0. cbn [x_tilt_percentage y_tilt_percentage player0].
  split; lra.
Qed.

Lemma rotate_keeps_tilt_between_stops_witness :
  - PI / 2 <= x_tilt_percentage player0 <= PI / 2
  /\ - PI / 2 <= y_tilt_percentage player0 <= PI / 2
  /\ In rotateLeft [rotateLeft; rotateRight; rotateForward; rotateBackward]
  /\ - PI / 2 <= x_tilt_percentage (rotateLeft player0) <= PI / 2.
Proof.
  destruct player0_between_stops as [Hx Hy].
  assert (Hin : In rotateLeft
                  [rotateLeft; rotateRight; rotateForward; rotateBackward])
    by now left.
  split; [exact Hx|]. split; [exact Hy|]. split; [exact Hin|].
  exact (proj1 (rotate_keeps_tilt_between_stops player0 Hx Hy rotateLeft Hin)).
Defined.

Lemma rotateLeft_repeated_witness :
  x_tilt_percentage player0 <= PI / 2
  /\ x_tilt_percentage (Nat.iter 20 rotateLeft player0) = PI / 2.
Proof.
  destruct player0_between_stops as [[Hlo Hhi] _].
  split; [exact Hhi|].
  exact (proj2 (proj2 (rotateLeft_repeated 20 player0 Hhi)) Hlo (le_n 20)).
Defined.

End PlayerAtWork.
